(** * Motia Uptime Monitor: the alert decision core

    A shallow embedding of the stateful core of the monitor:

    - [lib/stream.ts]: the three file-backed stores (last known status,
      per-site metrics, capped history) and the streaming metrics;
    - [lib/rate-limiter.ts]: the per-site token bucket;
    - [steps/alerter.step.ts]: the handler that decides, for each check
      result, between a first observation, a routine update, a status
      change alert and a rate-limited (suppressed) alert.

    JavaScript numbers are modelled in exact arithmetic: rationals [Qc]
    for measurements and token counts, [Z] for counters and for the
    millisecond readings of [Date.now()]; the two concrete figures of the
    specification (an uptime of 70 and a wait of 100000 ms) are checked in
    binary64 as well.  File I/O is assumed to succeed; a store file that
    does not exist yet reads as the empty collection, as the loaders of
    [stream.ts] do.  Events are handled one at a time. *)

From Stdlib Require Import Ascii String QArith Qcanon Qround Lqa PrimFloat.
From stdpp Require Import gmap strings list fin_maps numbers.

Local Open Scope string_scope.
Local Open Scope list_scope.
Local Open Scope Z_scope.

(* ===================================================================== *)
(** ** JavaScript values at the boundary *)
(* ===================================================================== *)

Module Js.

(** The primitive values a field of an incoming event may hold.  Event
    payloads are JSON, so a number is finite. *)
Inductive JsValue :=
| JsUndefined
| JsNull
| JsBoolean (b : bool)
| JsNumber (q : Qc)
| JsString (s : string).

(** [!v] is [negb (truthy v)]. *)
Definition truthy (v : JsValue) : bool :=
  match v with
  | JsUndefined | JsNull => false
  | JsBoolean b => b
  | JsNumber q => bool_decide (q ≠ 0%Qc)
  | JsString s => bool_decide (s ≠ "")
  end.

(** [Array.prototype.slice(start)] with one argument: a negative start
    counts from the end, and is clamped to the array. *)
Definition slice {A} (start : Z) (l : list A) : list A :=
  let len := Z.of_nat (length l) in
  let k := if start <? 0 then Z.max (len + start) 0 else Z.min start len in
  drop (Z.to_nat k) l.

(** [Math.floor] and [Math.ceil]. *)
Definition floor (q : Qc) : Z := Qfloor q.
Definition ceil (q : Qc) : Z := Qceiling q.

(** [Math.max] and [Math.min] on finite numbers. *)
Definition max (a b : Qc) : Qc := if bool_decide (a ≤ b)%Qc then b else a.
Definition min (a b : Qc) : Qc := if bool_decide (a ≤ b)%Qc then a else b.

(** A number that may be [Infinity] (the initial [minResponseTime]). *)
Inductive Number :=
| Finite (q : Qc)
| Infinity.

Definition min_inf (a : Number) (b : Qc) : Number :=
  match a with
  | Infinity => Finite b
  | Finite q => Finite (min q b)
  end.

(** *** Plain objects used as maps

    The status store and the metrics store are plain objects parsed from
    JSON and indexed by url.  A [gmap] holds the own properties of such an
    object, which is all [JSON.stringify], [Object.keys], [Object.values]
    and [Object.entries] see.  Reading [obj[key]] sees more: every plain
    object inherits the members of [Object.prototype], eleven functions
    and the accessor [__proto__], all of them truthy.  [Object.prototype]
    is taken as the language defines it: what an in-place update of an
    inherited member leaves on that member is not tracked.  No such name
    holds a colon, so none is a url with a scheme. *)
Definition objectPrototypeNames : list string :=
  ["constructor"; "__defineGetter__"; "__defineSetter__"; "hasOwnProperty";
   "__lookupGetter__"; "__lookupSetter__"; "isPrototypeOf";
   "propertyIsEnumerable"; "toString"; "valueOf"; "__proto__";
   "toLocaleString"].

(** What [obj[key]] finds. *)
Inductive Property (A : Type) :=
| Own (a : A)
| Inherited
| Missing.
Arguments Own {A} a.
Arguments Inherited {A}.
Arguments Missing {A}.

Definition getProperty {A} (obj : gmap string A) (key : string) : Property A :=
  match obj !! key with
  | Some a => Own a
  | None =>
    if bool_decide (key ∈ objectPrototypeNames) then Inherited else Missing
  end.

(** [obj[key] = a] creates or overwrites an own property, with one
    exception: where [__proto__] is not an own property the assignment
    runs the inherited setter, which replaces the prototype of [obj] and
    creates no property. *)
Definition setProperty {A} (obj : gmap string A) (key : string) (a : A)
  : gmap string A :=
  match obj !! key with
  | Some _ => <[key := a]> obj
  | None => if bool_decide (key = "__proto__") then obj else <[key := a]> obj
  end.

End Js.
Export Js.

(* ===================================================================== *)
(** ** [lib/types.ts] *)
(* ===================================================================== *)

Inductive Status := UP | DOWN.

Definition status_name (s : Status) : string :=
  match s with UP => "UP" | DOWN => "DOWN" end.

Global Instance Status_eq_dec : EqDecision Status.
Proof. solve_decision. Defined.

(** An event payload as it arrives: an object whose six fields hold
    whatever the sender put there ([JsUndefined] for a missing field). *)
Record RawResult := {
  raw_url : JsValue;
  raw_status : JsValue;
  raw_code : JsValue;
  raw_responseTime : JsValue;
  raw_checkedAt : JsValue;
  raw_error : JsValue
}.

(** [StatusResult]: a result that went through the guards of
    [updateLastStatus].  [code] and [error] are never inspected by the
    store and stay as they came. *)
Record StatusResult := {
  url : string;
  status : Status;
  code : JsValue;
  responseTime : Qc;
  checkedAt : string;
  error : JsValue
}.

Record SiteMetrics := {
  m_url : string;
  averageResponseTime : Qc;
  uptimePercentage : Qc;
  totalChecks : Z;
  successfulChecks : Z;
  lastDownTime : option string;
  lastUpTime : option string;
  consecutiveFailures : Z;
  maxResponseTime : Qc;
  minResponseTime : Number
}.

Record TokenBucket := {
  tokens : Qc;
  lastRefill : Z
}.

(** What a function argument of type [any] can be. *)
Inductive JsArg :=
| ArgPrimitive (v : JsValue)
| ArgArray
| ArgObject (o : RawResult).

(** The payload a validated result came from. *)
Definition to_raw (r : StatusResult) : RawResult :=
  {| raw_url := JsString (url r);
     raw_status := JsString (status_name (status r));
     raw_code := code r;
     raw_responseTime := JsNumber (responseTime r);
     raw_checkedAt := JsString (checkedAt r);
     raw_error := error r |}.

(* ===================================================================== *)
(** ** The world and its monad *)
(* ===================================================================== *)

(** What the alerter shows on the terminal, one constructor per branch of
    the handler.  The last two are the rate-limited notice and the
    status-change alert when the previous "record" is an inherited member
    of the store object, whose [status] is [undefined]. *)
Inductive Notification :=
| InitialCheck (u s rt : JsValue)
| StatusUpdate (input : RawResult)
| RateLimited (u s : JsValue) (previousStatus : Status)
              (timeUntilNextMs tokensRemaining : Z)
| StatusChange (input : RawResult) (previousStatus : Status)
               (tokensRemaining : Z)
| RateLimitedFromUndefined (u s : JsValue)
                           (timeUntilNextMs tokensRemaining : Z)
| StatusChangeFromUndefined (input : RawResult) (tokensRemaining : Z).

(** The three store files, the limiter's [Map] of buckets, the terminal,
    and the clock: [Date.now()] returns [clock ticks] and moves on to the
    next reading, so the environment chooses every reading. *)
Record World := {
  statusStore : gmap string StatusResult;
  metricsStore : gmap string SiteMetrics;
  historyStore : list StatusResult;
  buckets : gmap string TokenBucket;
  terminal : list Notification;
  clock : nat → Z;
  ticks : nat
}.

Definition set_statusStore (s : gmap string StatusResult) (w : World) : World :=
  {| statusStore := s; metricsStore := metricsStore w;
     historyStore := historyStore w; buckets := buckets w;
     terminal := terminal w; clock := clock w; ticks := ticks w |}.

Definition set_metricsStore (m : gmap string SiteMetrics) (w : World) : World :=
  {| statusStore := statusStore w; metricsStore := m;
     historyStore := historyStore w; buckets := buckets w;
     terminal := terminal w; clock := clock w; ticks := ticks w |}.

Definition set_historyStore (h : list StatusResult) (w : World) : World :=
  {| statusStore := statusStore w; metricsStore := metricsStore w;
     historyStore := h; buckets := buckets w;
     terminal := terminal w; clock := clock w; ticks := ticks w |}.

Definition set_buckets (b : gmap string TokenBucket) (w : World) : World :=
  {| statusStore := statusStore w; metricsStore := metricsStore w;
     historyStore := historyStore w; buckets := b;
     terminal := terminal w; clock := clock w; ticks := ticks w |}.

(** A call either returns a value or throws an [Error] with a message;
    the effects made before the throw stay. *)
Inductive Res (A : Type) :=
| Ok (a : A)
| Throw (msg : string).
Arguments Ok {A} a.
Arguments Throw {A} msg.

Definition M (A : Type) : Type := World → Res A * World.

Definition ret {A} (a : A) : M A := λ w, (Ok a, w).

Definition throw {A} (msg : string) : M A := λ w, (Throw msg, w).

Definition bind {A B} (m : M A) (k : A → M B) : M B :=
  λ w, match m w with
       | (Ok a, w') => k a w'
       | (Throw e, w') => (Throw e, w')
       end.

(** [try { m } catch (e) { h e }]. *)
Definition try_catch {A} (m : M A) (h : string → M A) : M A :=
  λ w, match m w with
       | (Ok a, w') => (Ok a, w')
       | (Throw e, w') => h e w'
       end.

Notation "'let*' x ':=' m 'in' k" := (bind m (λ x, k))
  (at level 10, x name, m at level 100, k at level 200).

Definition gets {A} (f : World → A) : M A := λ w, (Ok (f w), w).
Definition modify (f : World → World) : M unit := λ w, (Ok tt, f w).

(** [Date.now()]. *)
Definition Date_now : M Z :=
  λ w, (Ok (clock w (ticks w)),
        {| statusStore := statusStore w; metricsStore := metricsStore w;
           historyStore := historyStore w; buckets := buckets w;
           terminal := terminal w; clock := clock w; ticks := S (ticks w) |}).

(** [console.log] / [logger] output of the alerter. *)
Definition notify (n : Notification) : M unit :=
  λ w, (Ok tt,
        {| statusStore := statusStore w; metricsStore := metricsStore w;
           historyStore := historyStore w; buckets := buckets w;
           terminal := terminal w ++ [n]; clock := clock w; ticks := ticks w |}).

(** Running a computation: its outcome and the world it leaves. *)
Definition outcome {A} (m : M A) (w : World) : Res A := fst (m w).
Definition after {A} (m : M A) (w : World) : World := snd (m w).

(** What a computation adds to the terminal. *)
Definition emitted {A} (m : M A) (w : World) : list Notification :=
  drop (length (terminal w)) (terminal (after m w)).

Global Instance JsValue_eq_dec : EqDecision JsValue.
Proof. solve_decision. Defined.

(* ===================================================================== *)
(** ** [lib/stream.ts]: the persistent status store *)
(* ===================================================================== *)

Module Stream.

Definition loadStatusStore : M (gmap string StatusResult) := gets statusStore.

Definition saveStatusStore (store : gmap string StatusResult) : M unit :=
  modify (set_statusStore store).

Definition loadMetricsStore : M (gmap string SiteMetrics) := gets metricsStore.

Definition saveMetricsStore (metrics : gmap string SiteMetrics) : M unit :=
  modify (set_metricsStore metrics).

(** [addToHistory] with the literal [1000] of the source as [cap]:
    push, then keep the last [cap] entries when there are more. *)
Definition addToHistoryCapped (cap : Z) (result : StatusResult) : M unit :=
  let* history := gets historyStore in
  let history := history ++ [result] in
  let history :=
    if cap <? Z.of_nat (length history) then Js.slice (- cap) history
    else history in
  modify (set_historyStore history).

Definition addToHistory : StatusResult → M unit := addToHistoryCapped 1000.

(** The object [metrics[result.url] || {...}] starts from. *)
Definition initialMetrics (u : string) : SiteMetrics :=
  {| m_url := u;
     averageResponseTime := 0%Qc;
     uptimePercentage := Qc_of_Z 100;
     totalChecks := 0;
     successfulChecks := 0;
     lastDownTime := None;
     lastUpTime := None;
     consecutiveFailures := 0;
     maxResponseTime := 0%Qc;
     minResponseTime := Infinity |}.

(** The in-place updates [updateSiteMetrics] makes to [existing]. *)
Definition recordCheck (existing : SiteMetrics) (result : StatusResult)
  : SiteMetrics :=
  let totalChecks' := totalChecks existing + 1 in
  let up := bool_decide (status result = UP) in
  let successfulChecks' :=
    if up then successfulChecks existing + 1 else successfulChecks existing in
  {| m_url := m_url existing;
     averageResponseTime :=
       ((averageResponseTime existing * Qc_of_Z (totalChecks' - 1)
         + responseTime result) / Qc_of_Z totalChecks')%Qc;
     uptimePercentage :=
       (Qc_of_Z successfulChecks' / Qc_of_Z totalChecks' * Qc_of_Z 100)%Qc;
     totalChecks := totalChecks';
     successfulChecks := successfulChecks';
     lastDownTime :=
       if up then lastDownTime existing else Some (checkedAt result);
     lastUpTime :=
       if up then Some (checkedAt result) else lastUpTime existing;
     consecutiveFailures :=
       if up then 0 else consecutiveFailures existing + 1;
     maxResponseTime := Js.max (maxResponseTime existing) (responseTime result);
     minResponseTime := Js.min_inf (minResponseTime existing) (responseTime result)
  |}.

(** [updateSiteMetrics].  Where [metrics[result.url]] is an inherited
    member, that member is what gets updated in place; the assignment
    [metrics[result.url] = existing] then stores a function, which
    [JSON.stringify] leaves out, or runs the [__proto__] setter, so the
    file is written back with the entries it had. *)
Definition updateSiteMetrics (result : StatusResult)
    (previousResult : Property StatusResult) : M unit :=
  let* metrics := loadMetricsStore in
  match getProperty metrics (url result) with
  | Own existing =>
    saveMetricsStore
      (setProperty metrics (url result) (recordCheck existing result))
  | Missing =>
    saveMetricsStore
      (setProperty metrics (url result)
                   (recordCheck (initialMetrics (url result)) result))
  | Inherited => saveMetricsStore metrics
  end.

(** The four field guards of [updateLastStatus], in source order; a
    payload that passes all of them is a [StatusResult]. *)
Definition validate (o : RawResult) : Res StatusResult :=
  match raw_url o with
  | JsString u =>
    if negb (truthy (raw_url o)) then Throw "Result must have a valid URL string"
    else
      match raw_status o with
      | JsString s =>
        let st :=
          if bool_decide (s = "UP") then Some UP
          else if bool_decide (s = "DOWN") then Some DOWN else None in
        match st with
        | Some st =>
          match raw_responseTime o with
          | JsNumber rt =>
            if bool_decide (rt < 0)%Qc then
              Throw "Result must have a valid responseTime (non-negative number)"
            else
              match raw_checkedAt o with
              | JsString c =>
                if negb (truthy (raw_checkedAt o)) then
                  Throw "Result must have a valid checkedAt timestamp"
                else
                  Ok {| url := u; status := st; code := raw_code o;
                        responseTime := rt; checkedAt := c;
                        error := raw_error o |}
              | _ => Throw "Result must have a valid checkedAt timestamp"
              end
          | _ => Throw "Result must have a valid responseTime (non-negative number)"
          end
        | None => Throw "Result must have a valid status (UP or DOWN)"
        end
      | _ => Throw "Result must have a valid status (UP or DOWN)"
      end
  | _ => Throw "Result must have a valid URL string"
  end.

Definition updateLastStatus (result : JsArg) : M unit :=
  match result with
  | ArgObject o =>
    match validate o with
    | Throw e => throw e
    | Ok r =>
      let* store := loadStatusStore in
      let previousResult := getProperty store (url r) in
      let* _ := saveStatusStore (setProperty store (url r) r) in
      let* _ := updateSiteMetrics r previousResult in
      addToHistory r
    end
  | _ => throw "Result must be a valid object"
  end.

Definition getSnapshot : M (gmap string StatusResult) := loadStatusStore.

(** [getPreviousStatus]: [result ? { ...result } : null].  An own
    record gives its copy, nothing gives [null] ([Missing]), and an
    inherited member, being truthy, gives the empty object its spread
    leaves ([Inherited]). *)
Definition getPreviousStatus (u : JsValue) : M (Property StatusResult) :=
  match u with
  | JsString s =>
    if negb (truthy u) then throw "URL must be a valid string"
    else
      let* store := loadStatusStore in
      ret (getProperty store s)
  | _ => throw "URL must be a valid string"
  end.

(** [getSiteMetrics]: [metrics[url] || null]; an inherited member is
    returned as it is. *)
Definition getSiteMetrics (u : JsValue) : M (Property SiteMetrics) :=
  match u with
  | JsString s =>
    if negb (truthy u) then throw "URL must be a valid string"
    else
      let* metrics := loadMetricsStore in
      ret (getProperty metrics s)
  | _ => throw "URL must be a valid string"
  end.

Definition getAllMetrics : M (gmap string SiteMetrics) := loadMetricsStore.

Definition getSiteHistory (u : string) (limit : Z) : M (list StatusResult) :=
  let* history := gets historyStore in
  ret (rev (Js.slice (- limit) (filter (λ result, url result = u) history))).

(** [clearAllStatuses]: the three files are rewritten empty (a history
    file that does not exist stays absent, which reads as empty too). *)
Definition clearAllStatuses : M unit :=
  let* _ := saveStatusStore ∅ in
  let* _ := saveMetricsStore ∅ in
  modify (set_historyStore []).

(** [Object.values] and [Object.keys(...).length]. *)
Definition values {A} (m : gmap string A) : list A := (map_to_list m).*2.

Definition getSiteCount : M nat :=
  let* store := loadStatusStore in
  ret (size store).

Record SystemMetrics := {
  totalSites : nat;
  upSites : nat;
  downSites : nat;
  overallUptimePercentage : Qc;
  systemAverageResponseTime : Qc;
  lastUpdate : option Z
}.

(** [Math.max] of the times of a non-empty array; [None] is [NaN], which
    any unparseable timestamp yields and [Math.max] propagates. *)
Definition maxTime (first : option Z) (others : list (option Z)) : option Z :=
  foldr (λ t acc, match t, acc with
                  | Some a, Some b => Some (Z.max a b)
                  | _, _ => None
                  end) first others.

(** [getSystemMetrics]; [getTime s] stands for
    [new Date(s).getTime()].  The sums run over the values of the metrics
    object; in exact arithmetic their order does not matter. *)
Definition getSystemMetrics (getTime : string → option Z) : M SystemMetrics :=
  let* store := loadStatusStore in
  let* metrics := loadMetricsStore in
  let sites := values store in
  let up := length (filter (λ s, status s = UP) sites) in
  let down := length (filter (λ s, status s = DOWN) sites) in
  let allMetrics := values metrics in
  let count := Qc_of_Z (Z.of_nat (length allMetrics)) in
  let avgUptime :=
    if (0 <? length allMetrics)%nat
    then (foldl (λ sum m, sum + uptimePercentage m) 0 allMetrics / count)%Qc
    else Qc_of_Z 100 in
  let avgResponseTime :=
    if (0 <? length allMetrics)%nat
    then (foldl (λ sum m, sum + averageResponseTime m) 0 allMetrics / count)%Qc
    else 0%Qc in
  let* last :=
    match (λ s, getTime (checkedAt s)) <$> sites with
    | [] => let* now := Date_now in ret (Some now)
    | t :: ts => ret (maxTime t ts)
    end in
  ret {| totalSites := length sites; upSites := up; downSites := down;
         overallUptimePercentage := avgUptime;
         systemAverageResponseTime := avgResponseTime;
         lastUpdate := last |}.

End Stream.

(* ===================================================================== *)
(** ** [lib/rate-limiter.ts]: the token bucket *)
(* ===================================================================== *)

Module RateLimiter.

(** The configuration a limiter closes over; its [Map] of buckets is
    the [buckets] field of the world. *)
Record Config := {
  burst : Qc;
  windowSec : Qc;
  refillRate : Qc
}.

Definition createRateLimiter (burst windowSec : Qc) : Res Config :=
  if bool_decide (burst ≤ 0)%Qc then Throw "burst must be a positive number"
  else if bool_decide (windowSec ≤ 0)%Qc then
    Throw "windowSec must be a positive number"
  else
    Ok {| burst := burst; windowSec := windowSec;
          refillRate := (burst / (windowSec * Qc_of_Z 1000))%Qc |}.

(** [getBucket]: the bucket of a site, created full on first use. *)
Definition getBucket (rl : Config) (siteUrl : string) : M TokenBucket :=
  let* bs := gets buckets in
  match bs !! siteUrl with
  | Some bucket => ret bucket
  | None =>
    let* now := Date_now in
    let bucket := {| tokens := burst rl; lastRefill := now |} in
    let* _ := modify (set_buckets (<[siteUrl := bucket]> bs)) in
    ret bucket
  end.

(** The body of [refillBucket] once [now] has been read. *)
Definition refillAt (rl : Config) (now : Z) (bucket : TokenBucket) : TokenBucket :=
  let timePassed := now - lastRefill bucket in
  if 0 <? timePassed then
    let tokensToAdd := (Qc_of_Z timePassed * refillRate rl)%Qc in
    {| tokens := Js.min (burst rl) (tokens bucket + tokensToAdd)%Qc;
       lastRefill := now |}
  else bucket.

(** [refillBucket] mutates the bucket object held by the [Map]; here it
    returns the refilled bucket and its callers write it back. *)
Definition refillBucket (rl : Config) (bucket : TokenBucket) : M TokenBucket :=
  let* now := Date_now in
  ret (refillAt rl now bucket).

Definition putBucket (siteUrl : string) (bucket : TokenBucket) : M unit :=
  let* bs := gets buckets in
  modify (set_buckets (<[siteUrl := bucket]> bs)).

(** [getBucket] followed by [refillBucket], shared by every operation. *)
Definition refilled (rl : Config) (siteUrl : JsValue) : M (string * TokenBucket) :=
  match siteUrl with
  | JsString s =>
    if negb (truthy siteUrl) then throw "siteUrl must be a valid string"
    else
      let* bucket := getBucket rl s in
      let* bucket := refillBucket rl bucket in
      let* _ := putBucket s bucket in
      ret (s, bucket)
  | _ => throw "siteUrl must be a valid string"
  end.

Definition isAllowed (rl : Config) (siteUrl : JsValue) : M bool :=
  let* sb := refilled rl siteUrl in
  ret (bool_decide (1 ≤ tokens sb.2)%Qc).

Definition consume (rl : Config) (siteUrl : JsValue) : M bool :=
  let* sb := refilled rl siteUrl in
  if bool_decide (1 ≤ tokens sb.2)%Qc then
    let* _ := putBucket sb.1 {| tokens := (tokens sb.2 - 1)%Qc;
                                lastRefill := lastRefill sb.2 |} in
    ret true
  else ret false.

Definition getTokenCount (rl : Config) (siteUrl : JsValue) : M Z :=
  let* sb := refilled rl siteUrl in
  ret (Js.floor (tokens sb.2)).

Definition reset : M unit := modify (set_buckets ∅).

Definition getTimeUntilNextToken (rl : Config) (siteUrl : JsValue) : M Z :=
  let* sb := refilled rl siteUrl in
  if bool_decide (1 ≤ tokens sb.2)%Qc then ret 0
  else
    let tokensNeeded := (1 - tokens sb.2)%Qc in
    ret (Js.ceil (tokensNeeded / refillRate rl)%Qc).

End RateLimiter.

(* ===================================================================== *)
(** ** [steps/alerter.step.ts]: the alert decision *)
(* ===================================================================== *)

Module Alerter.

Import RateLimiter.

(** The handler, for an [input] that is an object.  Debug logging is left
    out; each branch shows one notification, which carries what the branch
    logs and prints.  [previous] is [None] when [getPreviousStatus] threw
    and the [catch] block returned.  For an inherited member
    [previousResult.status] is [undefined], which [status] equals only
    when the payload has no status either. *)
Definition handler (rl : Config) (input : RawResult) : M unit :=
  let u := raw_url input in
  let s := raw_status input in
  let* previous :=
    try_catch
      (let* previousResult := Stream.getPreviousStatus u in
       let* _ := Stream.getSnapshot in
       ret (Some previousResult))
      (λ _, ret None) in
  match previous with
  | None => ret tt
  | Some Missing =>
    let* _ := Stream.updateLastStatus (ArgObject input) in
    notify (InitialCheck u s (raw_responseTime input))
  | Some (Own previousResult) =>
    let previousStatus := status previousResult in
    if bool_decide (s = JsString (status_name previousStatus)) then
      let* _ := Stream.updateLastStatus (ArgObject input) in
      notify (StatusUpdate input)
    else
      let* granted := consume rl u in
      if negb granted then
        let* timeUntilNext := getTimeUntilNextToken rl u in
        let* tokensRemaining := getTokenCount rl u in
        notify (RateLimited u s previousStatus timeUntilNext tokensRemaining)
      else
        let* tokensRemaining := getTokenCount rl u in
        let* _ := notify (StatusChange input previousStatus tokensRemaining) in
        Stream.updateLastStatus (ArgObject input)
  | Some Inherited =>
    if bool_decide (s = JsUndefined) then
      let* _ := Stream.updateLastStatus (ArgObject input) in
      notify (StatusUpdate input)
    else
      let* granted := consume rl u in
      if negb granted then
        let* timeUntilNext := getTimeUntilNextToken rl u in
        let* tokensRemaining := getTokenCount rl u in
        notify (RateLimitedFromUndefined u s timeUntilNext tokensRemaining)
      else
        let* tokensRemaining := getTokenCount rl u in
        let* _ := notify (StatusChangeFromUndefined input tokensRemaining) in
        Stream.updateLastStatus (ArgObject input)
  end.

(** Results handled one after the other, each to completion; a handler
    that throws fails its own event only. *)
Fixpoint handleAll (rl : Config) (inputs : list RawResult) : M unit :=
  match inputs with
  | [] => ret tt
  | input :: rest =>
    let* _ := try_catch (handler rl input) (λ _, ret tt) in
    handleAll rl rest
  end.

End Alerter.

(* ===================================================================== *)
(** ** [steps/health.step.ts]: the health endpoint *)
(* ===================================================================== *)

Module HealthCheck.

Inductive HealthStatus := ok | degraded | down.

Record HealthResponse := {
  healthStatus : HealthStatus;
  sitesConfigured : Z;
  lastKnown : gmap string StatusResult;
  now : string;
  totalUptime : Qc;
  averageResponseTime : Qc;
  activeAlerts : nat;
  uptime : Qc
}.

(** The [try] block of the handler.  The number of configured sites, the
    ISO timestamp and [process.uptime()] come from the environment. *)
Definition handler (configured : Z) (nowIso : string) (processUptime : Qc)
    (getTime : string → option Z) : M HealthResponse :=
  let* lastKnown := Stream.getSnapshot in
  let* systemMetrics := Stream.getSystemMetrics getTime in
  let* allMetrics := Stream.getAllMetrics in
  let downSites :=
    length (filter (λ s, status s = DOWN) (Stream.values lastKnown)) in
  let totalSites := length (Stream.values lastKnown) in
  let healthStatus :=
    if (0 <? downSites)%nat then
      if bool_decide (Qc_of_Z (Z.of_nat totalSites) * (1 / (1 + 1))
                      ≤ Qc_of_Z (Z.of_nat downSites))%Qc
      then down else degraded
    else ok in
  let activeAlerts :=
    length (filter (λ m, 0 < consecutiveFailures m) (Stream.values allMetrics)) in
  ret {| healthStatus := healthStatus;
         sitesConfigured := configured;
         lastKnown := lastKnown;
         now := nowIso;
         totalUptime := Stream.overallUptimePercentage systemMetrics;
         averageResponseTime := Stream.systemAverageResponseTime systemMetrics;
         activeAlerts := activeAlerts;
         uptime := processUptime |}.

End HealthCheck.

(* ===================================================================== *)
(** ** [steps/checker.step.ts]: the probe *)
(* ===================================================================== *)

Module Checker.

(** What a [catch] clause receives: an [Error] object with its [name],
    [message] and, when it has one, its [code] property; or any other
    thrown value, given by [String(error)]. *)
Inductive Thrown :=
| ErrorObject (name message : string) (code : option JsValue)
| NotAnError (asString : string).

(** What the environment does inside the [try] block: [new URL(url)]
    throws or yields a protocol, and [fetch] rejects or resolves with a
    response status. *)
Inductive UrlParse := UrlThrows (e : Thrown) | UrlProtocol (protocol : string).
Inductive Fetch := FetchRejects (e : Thrown) | FetchResponds (httpStatus : Z).

Inductive Topic := check_result | status_stream.

(** [Math.round]: to the nearest integer, halves upwards. *)
Definition round (q : Qc) : Z := Qfloor (q + 1 / (1 + 1))%Qc.

(** [message.includes(needle)]. *)
Fixpoint includes (needle s : string) : bool :=
  String.prefix needle s
  || match s with
     | EmptyString => false
     | String _ rest => includes needle rest
     end.

(** The message the [catch] block settles on. *)
Definition errorMessageOf (error : Thrown) : string :=
  match error with
  | NotAnError text => text
  | ErrorObject name message code =>
    if bool_decide (name = "AbortError") then "Request timeout (10s)"
    else if bool_decide (name = "TypeError") && includes "fetch" message
    then "Network error - unable to connect"
    else
      match code with
      | Some (JsString "ENOTFOUND") => "DNS resolution failed"
      | Some (JsString "ECONNREFUSED") => "Connection refused"
      | Some (JsString "ECONNRESET") => "Connection reset by peer"
      | Some (JsString "ETIMEDOUT") => "Connection timeout"
      | Some (JsString "CERT_HAS_EXPIRED") => "SSL certificate expired"
      | Some (JsString "UNABLE_TO_VERIFY_LEAF_SIGNATURE") =>
        "SSL certificate verification failed"
      | _ => message
      end
  end.

(** The [try] block: the result of a response, or what was thrown. *)
Definition attempt (parsed : UrlParse) (fetched : Fetch) : Thrown + Z :=
  match parsed with
  | UrlThrows e => inl e
  | UrlProtocol protocol =>
    if bool_decide (protocol = "http:") || bool_decide (protocol = "https:")
    then match fetched with
         | FetchRejects e => inl e
         | FetchResponds httpStatus => inr httpStatus
         end
    else inl (ErrorObject "Error" "Only HTTP and HTTPS protocols are supported"
                          None)
  end.

(** The result the handler builds.  [elapsed] is the number
    [endTime - startTime] the handler computes from its two readings of
    [performance.now()], [nowIso] is [new Date().toISOString()]. *)
Definition check (u : string) (parsed : UrlParse) (fetched : Fetch)
    (elapsed : Qc) (nowIso : string) : RawResult :=
  let responseTime := round elapsed in
  match attempt parsed fetched with
  | inr httpStatus =>
    {| raw_url := JsString u;
       raw_status :=
         JsString (if (200 <=? httpStatus) && (httpStatus <? 400)
                   then "UP" else "DOWN");
       raw_code := JsNumber (Qc_of_Z httpStatus);
       raw_responseTime := JsNumber (Qc_of_Z responseTime);
       raw_checkedAt := JsString nowIso;
       raw_error := JsNull |}
  | inl error =>
    {| raw_url := JsString u;
       raw_status := JsString "DOWN";
       raw_code := JsNull;
       raw_responseTime := JsNumber (Qc_of_Z responseTime);
       raw_checkedAt := JsString nowIso;
       raw_error := JsString (errorMessageOf error) |}
  end.

(** The handler: the result goes out on both topics, [check.result]
    first (both [emit] calls are taken to succeed). *)
Definition handler (u : string) (parsed : UrlParse) (fetched : Fetch)
    (elapsed : Qc) (nowIso : string) : list (Topic * RawResult) :=
  let result := check u parsed fetched elapsed nowIso in
  [(check_result, result); (status_stream, result)].

End Checker.

(* ===================================================================== *)
(** ** Runs and reference notions used in the statements *)
(* ===================================================================== *)

(** [accepted o r]: the payload [o] passes the guards of
    [updateLastStatus] and is stored as [r]. *)
Definition accepted (o : RawResult) (r : StatusResult) : Prop :=
  Stream.validate o = Ok r.

(** Results submitted to the store one after the other. *)
Fixpoint updateAll (os : list RawResult) : M unit :=
  match os with
  | [] => ret tt
  | o :: rest =>
    let* _ := Stream.updateLastStatus (ArgObject o) in
    updateAll rest
  end.

(** The results of one site, in submission order. *)
Definition ofSite (u : string) (rs : list StatusResult) : list StatusResult :=
  filter (λ r, url r = u) rs.

Definition countStatus (s : Status) (rs : list StatusResult) : nat :=
  length (filter (λ r, status r = s) rs).

(** The plain arithmetic mean, as the specification words it. *)
Definition sumQc (xs : list Qc) : Qc := foldr Qcplus 0%Qc xs.

Definition arithmeticMean (xs : list Qc) : Qc :=
  (sumQc xs / Qc_of_Z (Z.of_nat (length xs)))%Qc.

(** The metrics of site [u] after the store took [rs], starting from the
    entry [m] (if any): the fold of [recordCheck] over the results of [u]. *)
Fixpoint metricsAfter (m : option SiteMetrics) (u : string)
    (rs : list StatusResult) : option SiteMetrics :=
  match rs with
  | [] => m
  | r :: rest =>
    metricsAfter
      (if bool_decide (url r = u)
       then Some (Stream.recordCheck (default (Stream.initialMetrics u) m) r)
       else m)
      u rest
  end.

(** Results appended to the history one after the other, under cap [cap]. *)
Fixpoint appendAll (cap : Z) (rs : list StatusResult) : M unit :=
  match rs with
  | [] => ret tt
  | r :: rest =>
    let* _ := Stream.addToHistoryCapped cap r in
    appendAll cap rest
  end.

(** The limiter's view of site [s] in world [w]: the bucket an operation
    finds (a full one, stamped with the next clock reading, when the site
    has none yet), the number of clock readings the operation takes, the
    bucket once refilled, and the world the refill leaves. *)
Definition bucketBefore (rl : RateLimiter.Config) (s : string) (w : World)
  : TokenBucket :=
  default {| tokens := RateLimiter.burst rl; lastRefill := clock w (ticks w) |}
          (buckets w !! s).

Definition readingsTaken (s : string) (w : World) : nat :=
  match buckets w !! s with Some _ => 1 | None => 2 end.

Definition refilledBucket (rl : RateLimiter.Config) (s : string) (w : World)
  : TokenBucket :=
  RateLimiter.refillAt rl (clock w (ticks w + readingsTaken s w - 1)%nat)
                       (bucketBefore rl s w).

Definition withBucket (s : string) (b : TokenBucket) (n : nat) (w : World)
  : World :=
  {| statusStore := statusStore w; metricsStore := metricsStore w;
     historyStore := historyStore w; buckets := <[s := b]> (buckets w);
     terminal := terminal w; clock := clock w; ticks := (ticks w + n)%nat |}.

(** Every bucket holds between 0 and [burst] tokens. *)
Definition bucketsOk (rl : RateLimiter.Config) (bs : gmap string TokenBucket)
  : Prop :=
  ∀ k b, bs !! k = Some b →
         (0 ≤ tokens b)%Qc ∧ (tokens b ≤ RateLimiter.burst rl)%Qc.

(** Any use of the limiter: a sequence of calls of its four operations. *)
Inductive LimiterCall :=
| CallIsAllowed (key : JsValue)
| CallConsume (key : JsValue)
| CallTokenCount (key : JsValue)
| CallTimeUntil (key : JsValue).

Definition callLimiter (rl : RateLimiter.Config) (c : LimiterCall) : M unit :=
  match c with
  | CallIsAllowed key => let* _ := RateLimiter.isAllowed rl key in ret tt
  | CallConsume key => let* _ := RateLimiter.consume rl key in ret tt
  | CallTokenCount key => let* _ := RateLimiter.getTokenCount rl key in ret tt
  | CallTimeUntil key =>
    let* _ := RateLimiter.getTimeUntilNextToken rl key in ret tt
  end.

Fixpoint callAll (rl : RateLimiter.Config) (cs : list LimiterCall) : M unit :=
  match cs with
  | [] => ret tt
  | c :: rest =>
    let* _ := try_catch (callLimiter rl c) (λ _, ret tt) in
    callAll rl rest
  end.

(** A bucket of site [s] read again at the instant [t0] of its last
    refill: the state of a limiter used with no time elapsing. *)
Definition atInstant (t0 : Z) (s : string) (tk : Qc) (w : World) : Prop :=
  (∀ n, clock w n = t0) ∧
  buckets w !! s = Some {| tokens := tk; lastRefill := t0 |}.

(** A url that is not the name of a member of [Object.prototype]: what
    the store objects hold under it is all there is to find. *)
Definition ownName (u : string) : Prop := u ∉ objectPrototypeNames.

(** The world [updateLastStatus] leaves for the accepted result [r],
    whatever its url: the status record is assigned, the metrics entry is
    updated where there is one to find or to create, the history is
    appended (and capped). *)
Definition stored (r : StatusResult) (w : World) : World :=
  {| statusStore := setProperty (statusStore w) (url r) r;
     metricsStore :=
       match getProperty (metricsStore w) (url r) with
       | Own existing =>
         setProperty (metricsStore w) (url r) (Stream.recordCheck existing r)
       | Missing =>
         setProperty (metricsStore w) (url r)
                     (Stream.recordCheck (Stream.initialMetrics (url r)) r)
       | Inherited => metricsStore w
       end;
     historyStore :=
       (let h := historyStore w ++ [r] in
        if 1000 <? Z.of_nat (length h) then Js.slice (-1000) h else h);
     buckets := buckets w; terminal := terminal w;
     clock := clock w; ticks := ticks w |}.

(** The same world for a url that is an [ownName]: status record
    overwritten, metrics updated, history appended (and capped). *)
Definition persisted (r : StatusResult) (w : World) : World :=
  {| statusStore := <[url r := r]> (statusStore w);
     metricsStore :=
       <[url r := Stream.recordCheck
                    (default (Stream.initialMetrics (url r))
                             (metricsStore w !! url r)) r]>
         (metricsStore w);
     historyStore :=
       (let h := historyStore w ++ [r] in
        if 1000 <? Z.of_nat (length h) then Js.slice (-1000) h else h);
     buckets := buckets w; terminal := terminal w;
     clock := clock w; ticks := ticks w |}.

(** The world once [n] is shown on the terminal. *)
Definition notified (n : Notification) (w : World) : World :=
  {| statusStore := statusStore w; metricsStore := metricsStore w;
     historyStore := historyStore w; buckets := buckets w;
     terminal := terminal w ++ [n]; clock := clock w; ticks := ticks w |}.

(** [n] calls of [consume] in a row, then [getTimeUntilNextToken]. *)
Fixpoint consumeTimes (rl : RateLimiter.Config) (key : JsValue) (n : nat)
  : M (list bool) :=
  match n with
  | O => ret []
  | S n =>
    let* granted := RateLimiter.consume rl key in
    let* rest := consumeTimes rl key n in
    ret (granted :: rest)
  end.

Definition burstThenWait (rl : RateLimiter.Config) (key : JsValue) (n : nat)
  : M (list bool * Z) :=
  let* granted := consumeTimes rl key n in
  let* wait := RateLimiter.getTimeUntilNextToken rl key in
  ret (granted, wait).

(** *** Malformed results

    The specification calls a result malformed when its url is absent or
    not well-formed, its status is outside UP/DOWN, its response time is
    negative, or its timestamp is not parseable.  Well-formed and
    parseable are taken by a necessary condition each: a well-formed
    absolute URL (what [new URL(...)] accepts in [lib/env.ts]) starts with
    a scheme, a letter followed by letters, digits, [+], [-] or [.] up to
    a colon; a timestamp [Date] can parse contains at least one digit.
    A string that fails the condition is malformed under the full grammar
    as well. *)
Definition isAlpha (c : ascii) : bool :=
  let n := nat_of_ascii c in
  ((65 <=? n) && (n <=? 90) || (97 <=? n) && (n <=? 122))%nat.

Definition isDigit (c : ascii) : bool :=
  let n := nat_of_ascii c in ((48 <=? n) && (n <=? 57))%nat.

Fixpoint schemeTail (s : string) : bool :=
  match s with
  | EmptyString => false
  | String c rest =>
    if Ascii.eqb c ":"%char then true
    else if isAlpha c || isDigit c || Ascii.eqb c "+"%char
            || Ascii.eqb c "-"%char || Ascii.eqb c "."%char
    then schemeTail rest
    else false
  end.

Definition hasUrlScheme (s : string) : bool :=
  match s with
  | EmptyString => false
  | String c rest => isAlpha c && schemeTail rest
  end.

Fixpoint hasDigit (s : string) : bool :=
  match s with
  | EmptyString => false
  | String c rest => isDigit c || hasDigit rest
  end.

Definition malformed (o : RawResult) : Prop :=
  (∀ s, raw_url o = JsString s → hasUrlScheme s = false) ∨
  (raw_status o ≠ JsString "UP" ∧ raw_status o ≠ JsString "DOWN") ∨
  (∃ q, raw_responseTime o = JsNumber q ∧ (q < 0)%Qc) ∨
  (∀ s, raw_checkedAt o = JsString s → hasDigit s = false).

(** What the guards of [updateLastStatus] do reject: a url or timestamp
    that is not a non-empty string, a status that is not the string UP or
    DOWN, a response time that is not a number or is negative. *)
Definition nonEmptyString (v : JsValue) : Prop :=
  ∃ s, v = JsString s ∧ s ≠ "".

Definition shapeInvalid (o : RawResult) : Prop :=
  ¬ nonEmptyString (raw_url o) ∨
  (raw_status o ≠ JsString "UP" ∧ raw_status o ≠ JsString "DOWN") ∨
  (∀ q, raw_responseTime o = JsNumber q → (q < 0)%Qc) ∨
  ¬ nonEmptyString (raw_checkedAt o).

Definition rejectedShape (result : JsArg) : Prop :=
  match result with
  | ArgObject o => shapeInvalid o
  | _ => True
  end.

(** A payload whose url, when it is a non-empty string at all, has a
    scheme: what the [z.string().url()] of the step's input schema lets
    through. *)
Definition schemeOrNoUrl (o : RawResult) : bool :=
  match raw_url o with
  | JsString s => bool_decide (s = "") || hasUrlScheme s
  | _ => true
  end.

(** A result the store accepts when it is sent as a payload. *)
Definition wellFormed (r : StatusResult) : Prop := accepted (to_raw r) r.

(** Whether handling [o] in world [w] ends in a rate-limited notice. *)
Definition suppressed (rl : RateLimiter.Config) (o : RawResult) (w : World)
  : bool :=
  match emitted (Alerter.handler rl o) w with
  | [RateLimited _ _ _ _ _] | [RateLimitedFromUndefined _ _ _ _] => true
  | _ => false
  end.

(** The results of a run, handled from world [w] on, that were not
    suppressed. *)
Fixpoint notSuppressed (rl : RateLimiter.Config) (rs : list StatusResult)
    (w : World) : list StatusResult :=
  match rs with
  | [] => []
  | r :: rest =>
    (if suppressed rl (to_raw r) w then [] else [r])
    ++ notSuppressed rl rest (after (Alerter.handler rl (to_raw r)) w)
  end.

(** All clock readings of [w] fall in the window from [lo] to [hi]. *)
Definition clockWithin (lo hi : Z) (w : World) : Prop :=
  ∀ n, lo ≤ clock w n ≤ hi.

(** A bucket last refilled inside the window that holds at least [k]
    tokens and at most [k] plus what was refilled since [lo]. *)
Definition inBudget (rl : RateLimiter.Config) (lo hi k : Z) (b : TokenBucket)
  : Prop :=
  lo ≤ lastRefill b ≤ hi ∧
  (Qc_of_Z k ≤ tokens b)%Qc ∧
  (tokens b ≤ Qc_of_Z k
              + Qc_of_Z (lastRefill b - lo) * RateLimiter.refillRate rl)%Qc.

Definition budget (rl : RateLimiter.Config) (lo hi : Z) (s : string) (k : Z)
    (w : World) : Prop :=
  ∃ b, buckets w !! s = Some b ∧ inBudget rl lo hi k b.

Definition isStatusChange (n : Notification) : bool :=
  match n with
  | StatusChange _ _ _ | StatusChangeFromUndefined _ _ => true
  | _ => false
  end.

(** A payload with a well-formed url whose timestamp cannot be parsed. *)
Definition strangeResult : RawResult :=
  {| raw_url := JsString "https://a.example";
     raw_status := JsString "UP";
     raw_code := JsNull;
     raw_responseTime := JsNumber (Qc_of_Z 10);
     raw_checkedAt := JsString "yesterday";
     raw_error := JsNull |}.

(** *** The same arithmetic in binary64

    The expressions behind the two concrete figures of the specification,
    in IEEE 754 double precision as JavaScript evaluates them. *)
Module Binary64.

Definition uptimePercentage (successfulChecks totalChecks : float) : float :=
  (successfulChecks / totalChecks * 100)%float.

Definition refillRate (burst windowSec : float) : float :=
  (burst / (windowSec * 1000))%float.

(** The argument of [Math.ceil] in [getTimeUntilNextToken]. *)
Definition tokensNeededOverRate (tokens rate : float) : float :=
  ((1 - tokens) / rate)%float.

End Binary64.

(** Sample data for the worked instances. *)
Definition sampleResult (u : string) (s : Status) (rt : Z) : StatusResult :=
  {| url := u; status := s; code := JsNumber (Qc_of_Z 200);
     responseTime := Qc_of_Z rt; checkedAt := "2025-09-06T21:30:15.000Z";
     error := JsNull |}.

Definition sampleLimiter (b ws : Z) : RateLimiter.Config :=
  {| RateLimiter.burst := Qc_of_Z b;
     RateLimiter.windowSec := Qc_of_Z ws;
     RateLimiter.refillRate := (Qc_of_Z b / (Qc_of_Z ws * Qc_of_Z 1000))%Qc |}.

Definition sevenUpThreeDown : list StatusResult :=
  let a := "https://a.example" in
  [sampleResult a UP 100; sampleResult a DOWN 5000;
   sampleResult "https://b.example" DOWN 70; sampleResult a UP 120;
   sampleResult a UP 80; sampleResult a DOWN 5000; sampleResult a UP 110;
   sampleResult a UP 90; sampleResult "https://b.example" UP 60;
   sampleResult a DOWN 5000; sampleResult a UP 100; sampleResult a UP 130].

Definition emptyWorld (clk : nat → Z) : World :=
  {| statusStore := ∅; metricsStore := ∅; historyStore := [];
     buckets := ∅; terminal := []; clock := clk; ticks := 0 |}.


(** *** Streaks

    The number of results at the end of [rs] that all have status [s]:
    the current run of consecutive failures when [s] is DOWN. *)
Fixpoint leadingRun (s : Status) (rs : list StatusResult) : nat :=
  match rs with
  | [] => 0
  | r :: rest => if bool_decide (status r = s) then S (leadingRun s rest) else 0
  end.

Definition trailingRun (s : Status) (rs : list StatusResult) : nat :=
  leadingRun s (rev rs).

(** The timestamp of the last result of [rs] with status [s]. *)
Definition lastTime (s : Status) (rs : list StatusResult) : option string :=
  checkedAt <$> list.last (filter (λ r, status r = s) rs).

(** *** Stores that agree

    What the status record [r] and the metrics entry [m] of one site have
    in common once every result went through [updateLastStatus]: the site
    is DOWN exactly when its failure streak is positive, the counters are
    ordered, and the uptime is their ratio. *)
Definition siteInSync (r : StatusResult) (m : SiteMetrics) : Prop :=
  (status r = DOWN ↔ 0 < consecutiveFailures m) ∧
  0 ≤ consecutiveFailures m ∧
  0 ≤ successfulChecks m ≤ totalChecks m ∧
  0 < totalChecks m ∧
  uptimePercentage m
    = (Qc_of_Z (successfulChecks m) / Qc_of_Z (totalChecks m)
       * Qc_of_Z 100)%Qc ∧
  (0 ≤ averageResponseTime m)%Qc.

(** The status store and the metrics store know the same sites, and
    their entries agree site by site. *)
Definition inSync (store : gmap string StatusResult)
    (metrics : gmap string SiteMetrics) : Prop :=
  ∀ u, match store !! u, metrics !! u with
       | Some r, Some m => siteInSync r m
       | None, None => True
       | _, _ => False
       end.

Definition storesInSync (w : World) : Prop :=
  inSync (statusStore w) (metricsStore w).

(** *** Alerts per site

    The status-change alerts among the notifications [ns] that are about
    site [s]. *)
Definition isAlertFor (s : string) (n : Notification) : bool :=
  match n with
  | StatusChange input _ _ | StatusChangeFromUndefined input _ =>
    bool_decide (raw_url input = JsString s)
  | _ => false
  end.

Definition alertsFor (s : string) (ns : list Notification) : nat :=
  length (filter (λ n, isAlertFor s n = true) ns).

(** With the clock standing still at [t0], the limiter sees [tk] tokens
    for site [s]: its bucket holds them, or the site has no bucket yet and
    [tk] is the burst. *)
Definition stillAt (rl : RateLimiter.Config) (t0 : Z) (s : string) (tk : Qc)
    (w : World) : Prop :=
  (∀ n, clock w n = t0) ∧
  refilledBucket rl s w = {| tokens := tk; lastRefill := t0 |}.

(** *** A history that agrees with the stores

    The newest history entry of a site, if the cap left any, is the
    site's status record, and the metrics counted at least as many checks
    as the history still holds. *)
Definition historyAgrees (w : World) : Prop :=
  ∀ u,
    match list.last (ofSite u (historyStore w)) with
    | Some r => statusStore w !! u = Some r
    | None => True
    end ∧
    Z.of_nat (length (ofSite u (historyStore w)))
      ≤ default 0 (totalChecks <$> metricsStore w !! u).


(* ===================================================================== *)
(** * Verified properties *)
(* ===================================================================== *)

Import Stream RateLimiter Alerter.

(** ** Stepping through the monad *)

Ltac run_monad :=
  unfold outcome, after, emitted, bind, ret, throw, gets, modify, try_catch,
    notify, Date_now,
    loadStatusStore, saveStatusStore, loadMetricsStore, saveMetricsStore,
    set_statusStore, set_metricsStore, set_historyStore, set_buckets in *;
  simpl in *.

(** Linear arithmetic on [Qc], through [Q]. *)
Ltac qc_lra :=
  unfold Qcle, Qclt, Qcminus, Qcopp, Qcplus in *; simpl in *;
  rewrite ?Qred_correct in *; lra.

Lemma bind_ok {A B} (m : M A) (k : A → M B) w a w' :
  m w = (Ok a, w') → bind m k w = k a w'.
Proof. unfold bind. by intros ->. Qed.

Lemma bind_throw {A B} (m : M A) (k : A → M B) w e w' :
  m w = (Throw e, w') → bind m k w = (Throw e, w').
Proof. unfold bind. by intros ->. Qed.

Lemma try_catch_ok {A} (m : M A) h w a w' :
  m w = (Ok a, w') → try_catch m h w = (Ok a, w').
Proof. unfold try_catch. by intros ->. Qed.

Lemma try_catch_throw {A} (m : M A) h w e w' :
  m w = (Throw e, w') → try_catch m h w = h e w'.
Proof. unfold try_catch. by intros ->. Qed.

(** ** Accepted payloads *)

Lemma accepted_inv o r :
  accepted o r ↔
    raw_url o = JsString (url r) ∧ url r ≠ "" ∧
    raw_status o = JsString (status_name (status r)) ∧
    raw_responseTime o = JsNumber (responseTime r) ∧
    (0 ≤ responseTime r)%Qc ∧
    raw_checkedAt o = JsString (checkedAt r) ∧ checkedAt r ≠ "" ∧
    raw_code o = code r ∧ raw_error o = error r.
Proof.
  unfold accepted, validate. split.
  - intros H.
    destruct (raw_url o) as [| | |q|u] eqn:Eu; try discriminate.
    simpl in H. case_bool_decide as Hu; simpl in H; [|discriminate].
    destruct (raw_status o) as [| | |q|s]; try discriminate.
    destruct (raw_responseTime o) as [| | |rt|]; 
      repeat case_bool_decide; simpl in H; try discriminate;
      destruct (raw_checkedAt o) as [| | | |c]; try discriminate; simpl in H;
      case_bool_decide; simpl in H; try discriminate;
      injection H as <-; simpl; subst;
      repeat split; auto; by apply Qcnot_lt_le.
  - intros (-> & Hu & -> & -> & Hrt & -> & Hc & Hcode & Herr).
    simpl. rewrite !bool_decide_eq_true_2 by done. simpl.
    destruct r as [u [] cd rt c e]; simpl in *; subst.
    + rewrite bool_decide_eq_false_2 by (by apply Qcle_not_lt).
      by rewrite bool_decide_eq_true_2.
    + rewrite bool_decide_eq_false_2 by (by apply Qcle_not_lt).
      by rewrite bool_decide_eq_true_2.
Qed.

Lemma accepted_url o r : accepted o r → raw_url o = JsString (url r) ∧ url r ≠ "".
Proof. rewrite accepted_inv. tauto. Qed.

(** ** Plain objects: own and inherited properties *)

Lemma ownName_not_proto u : ownName u → u ≠ "__proto__".
Proof. intros Hu ->. apply Hu. unfold objectPrototypeNames. set_solver. Qed.

Lemma getProperty_own {A} (obj : gmap string A) key a :
  obj !! key = Some a → getProperty obj key = Own a.
Proof. unfold getProperty. by intros ->. Qed.

Lemma getProperty_ownName {A} (obj : gmap string A) key :
  ownName key →
  getProperty obj key =
    match obj !! key with Some a => Own a | None => Missing end.
Proof.
  intros Hk. unfold getProperty. destruct (obj !! key); [done|].
  by rewrite bool_decide_eq_false_2.
Qed.

Lemma setProperty_own {A} (obj : gmap string A) key a b :
  obj !! key = Some b → setProperty obj key a = <[key := a]> obj.
Proof. unfold setProperty. by intros ->. Qed.

Lemma setProperty_ownName {A} (obj : gmap string A) key a :
  ownName key → setProperty obj key a = <[key := a]> obj.
Proof.
  intros Hk. unfold setProperty. destruct (obj !! key); [done|].
  rewrite bool_decide_eq_false_2; [done|]. by apply ownName_not_proto.
Qed.

Lemma setProperty_ne {A} (obj : gmap string A) key a other :
  other ≠ key → setProperty obj key a !! other = obj !! other.
Proof.
  intros Hne. unfold setProperty.
  destruct (obj !! key); [by rewrite lookup_insert_ne|].
  case_bool_decide; [done|by rewrite lookup_insert_ne].
Qed.

Lemma getProperty_insert_eq {A} (obj : gmap string A) key a :
  getProperty (<[key := a]> obj) key = Own a.
Proof. apply getProperty_own, lookup_insert_eq. Qed.

Lemma getProperty_insert_ne {A} (obj : gmap string A) key a other :
  other ≠ key → getProperty (<[key := a]> obj) other = getProperty obj other.
Proof. intros Hne. unfold getProperty. by rewrite lookup_insert_ne. Qed.

(** A url with a scheme contains a colon; no member of
    [Object.prototype] has such a name. *)
Lemma hasUrlScheme_ownName u : hasUrlScheme u = true → ownName u.
Proof.
  intros Hu Hin. unfold objectPrototypeNames in Hin.
  repeat (apply elem_of_cons in Hin as [-> | Hin]; [discriminate Hu|]).
  by apply elem_of_nil in Hin.
Qed.

Lemma stored_ownName r w : ownName (url r) → stored r w = persisted r w.
Proof.
  intros Hu. unfold stored, persisted.
  rewrite (getProperty_ownName (metricsStore w)) by done.
  rewrite (setProperty_ownName (statusStore w)) by done.
  destruct (metricsStore w !! url r) as [m|]; simpl;
    by rewrite setProperty_ownName.
Qed.

(** What [stored] leaves under a url that is an [ownName]. *)
Lemma stored_status_lookup r w u :
  ownName u →
  statusStore (stored r w) !! u =
    if bool_decide (url r = u) then Some r else statusStore w !! u.
Proof.
  intros Hu. cbn [stored statusStore]. case_bool_decide as E.
  - subst u. by rewrite setProperty_ownName, lookup_insert_eq.
  - by rewrite setProperty_ne.
Qed.

Lemma stored_metrics_lookup r w u :
  ownName u →
  metricsStore (stored r w) !! u =
    if bool_decide (url r = u)
    then Some (recordCheck (default (initialMetrics u) (metricsStore w !! u)) r)
    else metricsStore w !! u.
Proof.
  intros Hu. cbn [stored metricsStore]. case_bool_decide as E.
  - subst u. rewrite getProperty_ownName by done.
    destruct (metricsStore w !! url r) as [m|];
      by rewrite setProperty_ownName, lookup_insert_eq.
  - destruct (getProperty (metricsStore w) (url r)); [|done|];
      by rewrite setProperty_ne.
Qed.

(** ** The store: what an accepted or a rejected submission does *)

Lemma updateLastStatus_stored o r w :
  accepted o r →
  updateLastStatus (ArgObject o) w = (Ok tt, stored r w).
Proof.
  unfold accepted. intros H. unfold updateLastStatus. rewrite H.
  unfold updateSiteMetrics, addToHistory, addToHistoryCapped, stored.
  run_monad. by destruct (getProperty (metricsStore w) (url r)).
Qed.

Lemma updateLastStatus_accepted o r w :
  accepted o r → ownName (url r) →
  updateLastStatus (ArgObject o) w = (Ok tt, persisted r w).
Proof.
  intros H Hu. rewrite (updateLastStatus_stored o r w H).
  by rewrite stored_ownName.
Qed.

Lemma updateLastStatus_throws arg w e w' :
  updateLastStatus arg w = (Throw e, w') → w' = w.
Proof.
  unfold updateLastStatus. destruct arg as [v| |o]; run_monad; try congruence.
  destruct (validate o) as [r|e'] eqn:Hv; [|run_monad; congruence].
  fold (updateLastStatus (ArgObject o)).
  intros H. pose proof (updateLastStatus_stored o r w Hv) as H'.
  unfold updateLastStatus in H'. rewrite Hv in H'. run_monad. congruence.
Qed.

(** ** The history log *)

Lemma addToHistoryCapped_history cap r w :
  0 < cap →
  historyStore (after (addToHistoryCapped cap r) w) =
    drop (length (historyStore w ++ [r]) - Z.to_nat cap) (historyStore w ++ [r]).
Proof.
  intros Hcap. unfold addToHistoryCapped. run_monad.
  set (h := historyStore w ++ [r]).
  destruct (cap <? Z.of_nat (length h)) eqn:E; simpl.
  - apply Z.ltb_lt in E. unfold Js.slice.
    destruct (- cap <? 0) eqn:E'; [|apply Z.ltb_ge in E'; lia].
    f_equal. lia.
  - apply Z.ltb_ge in E.
    replace (length h - Z.to_nat cap)%nat with 0%nat by lia. done.
Qed.

Lemma addToHistoryCapped_frame cap r w :
  let w' := after (addToHistoryCapped cap r) w in
  outcome (addToHistoryCapped cap r) w = Ok tt ∧
  statusStore w' = statusStore w ∧ metricsStore w' = metricsStore w ∧
  buckets w' = buckets w ∧ terminal w' = terminal w.
Proof. unfold addToHistoryCapped. run_monad. done. Qed.



(** ** The metrics *)

Lemma updateAll_accepted os rs w :
  Forall2 accepted os rs →
  outcome (updateAll os) w = Ok tt ∧
  ∀ u, ownName u →
       metricsStore (after (updateAll os) w) !! u
       = metricsAfter (metricsStore w !! u) u rs.
Proof.
  intros H. revert w. induction H as [|o r os rs Ho _ IH]; intros w.
  - by run_monad.
  - simpl. unfold outcome, after in *.
    rewrite (bind_ok _ _ _ _ _ (updateLastStatus_stored o r w Ho)).
    destruct (IH (stored r w)) as [IH1 IH2].
    split; [done|]. intros u Hu.
    rewrite (IH2 u Hu), (stored_metrics_lookup r w u Hu). done.
Qed.

Lemma metricsAfter_app m u rs1 rs2 :
  metricsAfter m u (rs1 ++ rs2) = metricsAfter (metricsAfter m u rs1) u rs2.
Proof. revert m. induction rs1 as [|r rs1 IH]; intros m; simpl; [done|apply IH]. Qed.

Lemma metricsAfter_ofSite m u rs :
  metricsAfter m u rs = metricsAfter m u (ofSite u rs).
Proof.
  revert m. induction rs as [|r rs IH]; intros m; [done|].
  unfold ofSite. rewrite filter_cons. simpl. case_bool_decide as Hu.
  - rewrite decide_True by done. simpl. rewrite bool_decide_eq_true_2 by done. apply IH.
  - rewrite decide_False by done. apply IH.
Qed.

Lemma Qc_of_Z_nonzero z : z ≠ 0 → Qc_of_Z z ≠ 0%Qc.
Proof. intros Hz H. apply Hz, Z2Qc_inj. by rewrite Z2Qc_inj_0. Qed.

Lemma countStatus_snoc s rs r :
  countStatus s (rs ++ [r]) =
    (countStatus s rs + (if bool_decide (status r = s) then 1 else 0))%nat.
Proof.
  unfold countStatus. rewrite list.filter_app, length_app. f_equal.
  rewrite filter_cons, filter_nil. case_bool_decide.
  - by rewrite decide_True.
  - by rewrite decide_False.
Qed.

Lemma sumQc_snoc xs x : sumQc (xs ++ [x]) = (sumQc xs + x)%Qc.
Proof.
  induction xs as [|y xs IH]; simpl; [ring|]. rewrite IH. ring.
Qed.

(** The counters and the running mean after the results [rs] of one site,
    starting from a site never seen before. *)
Lemma metricsAfter_summary u rs :
  Forall (λ r, url r = u) rs →
  let m := default (initialMetrics u) (metricsAfter None u rs) in
  totalChecks m = Z.of_nat (length rs) ∧
  successfulChecks m = Z.of_nat (countStatus UP rs) ∧
  (averageResponseTime m * Qc_of_Z (Z.of_nat (length rs)))%Qc
    = sumQc (responseTime <$> rs) ∧
  (rs ≠ [] → metricsAfter None u rs = Some m ∧
     uptimePercentage m =
       (Qc_of_Z (successfulChecks m) / Qc_of_Z (totalChecks m) * Qc_of_Z 100)%Qc).
Proof.
  induction rs as [|r rs IH] using rev_ind; intros Hall m.
  - subst m. simpl. repeat split; try done.
  - apply Forall_app in Hall as [Hall Hr]. rewrite Forall_singleton in Hr.
    destruct (IH Hall) as (Ht & Hs & Ha & _). clear IH.
    subst m. rewrite metricsAfter_app. simpl.
    rewrite bool_decide_eq_true_2 by done. simpl.
    set (m0 := default (initialMetrics u) (metricsAfter None u rs)) in *.
    rewrite length_app, countStatus_snoc, fmap_app.
    change (responseTime <$> [r]) with [responseTime r].
    rewrite sumQc_snoc. simpl.
    rewrite Ht, Hs, <- Ha.
    assert (Hn : Qc_of_Z (Z.of_nat (length rs) + 1) ≠ 0%Qc)
      by (apply Qc_of_Z_nonzero; lia).
    repeat split.
    + lia.
    + case_bool_decide; lia.
    + replace (Z.of_nat (length rs) + 1 - 1) with (Z.of_nat (length rs)) by lia.
      replace (Z.of_nat (length rs + 1)) with (Z.of_nat (length rs) + 1) by lia.
      field. done.
Qed.

Lemma countStatus_total rs :
  (countStatus UP rs + countStatus DOWN rs)%nat = length rs.
Proof.
  unfold countStatus. induction rs as [|r rs IH]; [done|].
  rewrite !filter_cons. destruct (status r);
    repeat case_decide; simpl; try congruence; lia.
Qed.

Lemma ofSite_Forall u rs : Forall (λ r, url r = u) (ofSite u rs).
Proof.
  unfold ofSite. apply list.Forall_forall. intros r Hr.
  by apply list_elem_of_filter in Hr as [? _].
Qed.

(** The metrics of a site the store had not seen, after a run of accepted
    submissions that contains at least one result of that site. *)
Lemma updateAll_site_metrics os rs w u :
  Forall2 accepted os rs →
  ownName u →
  metricsStore w !! u = None →
  ofSite u rs ≠ [] →
  ∃ m, metricsStore (after (updateAll os) w) !! u = Some m ∧
       totalChecks m = Z.of_nat (length (ofSite u rs)) ∧
       successfulChecks m = Z.of_nat (countStatus UP (ofSite u rs)) ∧
       (averageResponseTime m * Qc_of_Z (Z.of_nat (length (ofSite u rs))))%Qc
         = sumQc (responseTime <$> ofSite u rs) ∧
       uptimePercentage m =
         (Qc_of_Z (successfulChecks m) / Qc_of_Z (totalChecks m) * Qc_of_Z 100)%Qc.
Proof.
  intros Hacc Hown Hnone Hne.
  destruct (updateAll_accepted os rs w Hacc) as [_ Hm].
  destruct (metricsAfter_summary u (ofSite u rs) (ofSite_Forall u rs))
    as (Ht & Hs & Ha & Hsome).
  destruct (Hsome Hne) as [Hsome' Hu].
  eexists. rewrite (Hm u Hown), Hnone, metricsAfter_ofSite.
  split; [exact Hsome'|]. done.
Qed.

Lemma updateAll_site_untouched os rs w u :
  Forall2 accepted os rs →
  ownName u →
  ofSite u rs = [] →
  metricsStore (after (updateAll os) w) !! u = metricsStore w !! u.
Proof.
  intros Hacc Hown Hnil.
  destruct (updateAll_accepted os rs w Hacc) as [_ Hm].
  by rewrite (Hm u Hown), metricsAfter_ofSite, Hnil.
Qed.

(** One update, from any store, for a url that is an [ownName]: the entry
    written has the uptime recomputed from its own counters. *)
Lemma updateSiteMetrics_uptime r previous w :
  ownName (url r) →
  ∃ m, metricsStore (after (updateSiteMetrics r previous) w) !! url r = Some m ∧
       uptimePercentage m =
         (Qc_of_Z (successfulChecks m) / Qc_of_Z (totalChecks m)
          * Qc_of_Z 100)%Qc.
Proof.
  intros Hu. unfold updateSiteMetrics, after.
  rewrite (bind_ok _ _ _ _ _ (eq_refl : loadMetricsStore w = (Ok (metricsStore w), w))).
  rewrite getProperty_ownName by done.
  destruct (metricsStore w !! url r) as [m|];
    rewrite setProperty_ownName by done; run_monad;
    rewrite lookup_insert_eq; eexists; split; reflexivity.
Qed.

(** One update of the mean: if the stored average times the stored count
    is the sum [total] of the response times seen so far, the same holds
    after the update with the new response time added. *)
Lemma recordCheck_mean existing r total :
  0 ≤ totalChecks existing →
  (averageResponseTime existing * Qc_of_Z (totalChecks existing))%Qc = total →
  (averageResponseTime (recordCheck existing r)
   * Qc_of_Z (totalChecks (recordCheck existing r)))%Qc
  = (total + responseTime r)%Qc.
Proof.
  intros Hn <-. simpl.
  assert (Hnz : Qc_of_Z (totalChecks existing + 1) ≠ 0%Qc)
    by (apply Qc_of_Z_nonzero; lia).
  replace (totalChecks existing + 1 - 1) with (totalChecks existing) by lia.
  field. done.
Qed.

(** In a run of results whose urls have a scheme, a site with a result
    has such a url. *)
Lemma ofSite_scheme u rs :
  Forall (λ r, hasUrlScheme (url r) = true) rs → ofSite u rs ≠ [] →
  hasUrlScheme u = true.
Proof.
  intros Hall Hne. destruct (ofSite u rs) as [|r l] eqn:E; [done|].
  assert (Hin : r ∈ ofSite u rs) by (rewrite E; left).
  apply list_elem_of_filter in Hin as [<- Hin].
  by apply (proj1 (list.Forall_forall _ _) Hall).
Qed.

(** C5, as amended: for results whose url has a scheme, as every absolute
    URL has.  After every metrics update for such a url, from any store,
    the entry written has
    [uptimePercentage = successfulChecks / totalChecks * 100].
    Starting from a store without metrics for such a site [u], after any
    run of accepted submissions of such results every stored metrics
    entry of [u] moreover has [totalChecks > 0]; the entry a new site
    starts from has [totalChecks = 0] and [uptimePercentage = 100]; and
    when the run holds 7 UP and 3 DOWN results of [u], in any order and
    interleaved with any other sites, [uptimePercentage] is exactly
    70. *)
Theorem uptime_percentage_invariant
    (w : World) (os : list RawResult) (rs : list StatusResult) (u : string) :
  Forall2 accepted os rs →
  Forall (λ r, hasUrlScheme (url r) = true) rs →
  hasUrlScheme u = true →
  metricsStore w !! u = None →
  let w' := after (updateAll os) w in
  (∀ w0 r previous,
     hasUrlScheme (url r) = true →
     ∃ m, metricsStore (after (updateSiteMetrics r previous) w0) !! url r
          = Some m ∧
          uptimePercentage m =
            (Qc_of_Z (successfulChecks m) / Qc_of_Z (totalChecks m)
             * Qc_of_Z 100)%Qc) ∧
  (∀ m, metricsStore w' !! u = Some m →
        0 < totalChecks m ∧
        uptimePercentage m =
          (Qc_of_Z (successfulChecks m) / Qc_of_Z (totalChecks m)
           * Qc_of_Z 100)%Qc) ∧
  (totalChecks (initialMetrics u) = 0 ∧
   uptimePercentage (initialMetrics u) = Qc_of_Z 100) ∧
  (countStatus UP (ofSite u rs) = 7%nat →
   countStatus DOWN (ofSite u rs) = 3%nat →
   ∃ m, metricsStore w' !! u = Some m ∧ uptimePercentage m = Qc_of_Z 70).
Proof.
  intros Hacc _ Hscheme Hnone w'.
  pose proof (hasUrlScheme_ownName u Hscheme) as Hown.
  split; [intros w0 r previous Hr;
          by apply updateSiteMetrics_uptime, hasUrlScheme_ownName|].
  split; [|split; [done|]].
  - intros m Hm. destruct (decide (ofSite u rs = [])) as [Hnil|Hne].
    + subst w'. rewrite (updateAll_site_untouched os rs w u) in Hm by done.
      congruence.
    + destruct (updateAll_site_metrics os rs w u Hacc Hown Hnone Hne)
        as (m' & Hm' & Ht & _ & _ & Hu).
      subst w'. rewrite Hm' in Hm. injection Hm as <-. split; [|done].
      rewrite Ht. destruct (ofSite u rs); [done|simpl; lia].
  - intros Hup Hdown.
    assert (Hlen : length (ofSite u rs) = 10%nat)
      by (rewrite <- countStatus_total; lia).
    assert (Hne : ofSite u rs ≠ []) by (intros E; by rewrite E in Hlen).
    destruct (updateAll_site_metrics os rs w u Hacc Hown Hnone Hne)
      as (m & Hm & Ht & Hs & _ & Hu).
    exists m. split; [done|].
    rewrite Hu, Hs, Ht, Hup, Hlen. by apply Qc_is_canon.
Qed.

(** C6, as amended: for results whose url has a scheme, as every absolute
    URL has.  Starting from a store without metrics for a site [u], after
    any run of accepted submissions of such results (of any sites) that
    holds a result of [u], the streaming [averageResponseTime] of [u] is
    the arithmetic mean of the response times of all results of [u]
    recorded so far. *)
Theorem streaming_mean_is_arithmetic_mean
    (w : World) (os : list RawResult) (rs : list StatusResult) (u : string) :
  Forall2 accepted os rs →
  Forall (λ r, hasUrlScheme (url r) = true) rs →
  metricsStore w !! u = None →
  ofSite u rs ≠ [] →
  ∃ m, metricsStore (after (updateAll os) w) !! u = Some m ∧
       averageResponseTime m = arithmeticMean (responseTime <$> ofSite u rs).
Proof.
  intros Hacc Hall Hnone Hne.
  pose proof (ofSite_scheme u rs Hall Hne) as Hscheme.
  destruct (updateAll_site_metrics os rs w u Hacc
              (hasUrlScheme_ownName u Hscheme) Hnone Hne)
    as (m & Hm & _ & _ & Ha & _).
  exists m. split; [done|].
  unfold arithmeticMean. rewrite length_fmap, <- Ha.
  rewrite Qcdiv_mult_l; [done|].
  apply Qc_of_Z_nonzero. destruct (ofSite u rs); [done|simpl; lia].
Qed.

(** ** The token bucket *)

Ltac run_limiter :=
  unfold refilled, getBucket, refillBucket, putBucket in *; run_monad.

Lemma refilled_string rl s w :
  s ≠ "" →
  refilled rl (JsString s) w =
    (Ok (s, refilledBucket rl s w),
     withBucket s (refilledBucket rl s w) (readingsTaken s w) w).
Proof.
  intros Hs. unfold refilledBucket, bucketBefore, readingsTaken, withBucket.
  run_limiter. rewrite bool_decide_eq_true_2 by done. simpl.
  destruct (buckets w !! s) as [b|] eqn:Hb; simpl.
  - repeat f_equal; lia.
  - rewrite insert_insert_eq. repeat f_equal; lia.
Qed.

Lemma refilled_throws rl key w e w' :
  refilled rl key w = (Throw e, w') → w' = w.
Proof.
  destruct key as [| | | |s]; run_limiter; try congruence.
  destruct (decide (s = "")) as [->|Hs]; simpl; [congruence|].
  rewrite bool_decide_eq_true_2 by done. simpl.
  destruct (buckets w !! s); simpl; congruence.
Qed.

Lemma refilled_ok rl key w sb w' :
  refilled rl key w = (Ok sb, w') →
  ∃ s, key = JsString s ∧ s ≠ "" ∧ sb = (s, refilledBucket rl s w) ∧
       w' = withBucket s (refilledBucket rl s w) (readingsTaken s w) w.
Proof.
  destruct key as [| | | |s]; try (run_limiter; congruence).
  destruct (decide (s = "")) as [->|Hs]; [run_limiter; congruence|].
  rewrite refilled_string by done. intros [= <- <-]. eauto.
Qed.

Lemma consume_string rl s w :
  s ≠ "" →
  consume rl (JsString s) w =
    let b := refilledBucket rl s w in
    if bool_decide (1 ≤ tokens b)%Qc then
      (Ok true,
       withBucket s {| tokens := (tokens b - 1)%Qc; lastRefill := lastRefill b |}
                  (readingsTaken s w) w)
    else (Ok false, withBucket s b (readingsTaken s w) w).
Proof.
  intros Hs. unfold consume.
  rewrite (bind_ok _ _ _ _ _ (refilled_string rl s w Hs)). simpl.
  case_bool_decide; [|done].
  unfold putBucket, withBucket. run_monad. by rewrite insert_insert_eq.
Qed.

Lemma isAllowed_string rl s w :
  s ≠ "" →
  isAllowed rl (JsString s) w =
    (Ok (bool_decide (1 ≤ tokens (refilledBucket rl s w))%Qc),
     withBucket s (refilledBucket rl s w) (readingsTaken s w) w).
Proof.
  intros Hs. unfold isAllowed.
  by rewrite (bind_ok _ _ _ _ _ (refilled_string rl s w Hs)).
Qed.

Lemma getTokenCount_string rl s w :
  s ≠ "" →
  getTokenCount rl (JsString s) w =
    (Ok (Js.floor (tokens (refilledBucket rl s w))),
     withBucket s (refilledBucket rl s w) (readingsTaken s w) w).
Proof.
  intros Hs. unfold getTokenCount.
  by rewrite (bind_ok _ _ _ _ _ (refilled_string rl s w Hs)).
Qed.

Lemma getTimeUntilNextToken_string rl s w :
  s ≠ "" →
  getTimeUntilNextToken rl (JsString s) w =
    (Ok (let b := refilledBucket rl s w in
         if bool_decide (1 ≤ tokens b)%Qc then 0
         else Js.ceil ((1 - tokens b) / refillRate rl)%Qc),
     withBucket s (refilledBucket rl s w) (readingsTaken s w) w).
Proof.
  intros Hs. unfold getTimeUntilNextToken.
  rewrite (bind_ok _ _ _ _ _ (refilled_string rl s w Hs)). simpl.
  by case_bool_decide.
Qed.

(** A key that is not a non-empty string makes every operation throw
    before it touches anything. *)
Lemma refilled_invalid rl key w :
  (∀ s, key = JsString s → s = "") →
  refilled rl key w = (Throw "siteUrl must be a valid string", w).
Proof.
  intros H. destruct key as [| | | |s]; try done.
  rewrite (H s eq_refl). done.
Qed.

Lemma key_cases (key : JsValue) :
  (∃ s, key = JsString s ∧ s ≠ "") ∨ (∀ s, key = JsString s → s = "").
Proof.
  destruct key as [| | | |s]; try (right; intros; discriminate).
  destruct (decide (s = "")) as [->|Hs]; [right; congruence|left; eauto].
Qed.

Lemma createRateLimiter_ok b ws rl :
  createRateLimiter b ws = Ok rl →
  burst rl = b ∧ windowSec rl = ws ∧
  refillRate rl = (b / (ws * Qc_of_Z 1000))%Qc ∧
  (0 < burst rl)%Qc ∧ (0 < windowSec rl)%Qc ∧ (0 < refillRate rl)%Qc.
Proof.
  unfold createRateLimiter. repeat case_bool_decide; try discriminate.
  intros [= <-]. simpl.
  assert (Hb : (0 < b)%Qc) by (by apply Qcnot_le_lt).
  assert (Hw : (0 < ws)%Qc) by (by apply Qcnot_le_lt).
  repeat split; try done.
  unfold Qcdiv. apply Qcmult_pos_pos; [done|]. apply Qcinv_pos.
  apply Qcmult_pos_pos; [done|]. by apply (Z2Qc_inj_lt 0 1000).
Qed.

Lemma Js_min_le_l a b : (Js.min a b ≤ a)%Qc.
Proof.
  unfold Js.min. case_bool_decide as H; [apply Qcle_refl|].
  apply Qclt_le_weak. by apply Qcnot_le_lt.
Qed.

Lemma Js_min_le_r a b : (Js.min a b ≤ b)%Qc.
Proof. unfold Js.min. case_bool_decide as H; [done|apply Qcle_refl]. Qed.

Lemma Js_min_glb a b c : (c ≤ a)%Qc → (c ≤ b)%Qc → (c ≤ Js.min a b)%Qc.
Proof. unfold Js.min. by case_bool_decide. Qed.

Lemma refillAt_range rl now b :
  (0 < refillRate rl)%Qc → (0 ≤ burst rl)%Qc →
  (0 ≤ tokens b)%Qc ∧ (tokens b ≤ burst rl)%Qc →
  (0 ≤ tokens (refillAt rl now b))%Qc ∧
  (tokens (refillAt rl now b) ≤ burst rl)%Qc.
Proof.
  intros Hr Hb [H0 H1]. unfold refillAt.
  destruct (0 <? now - lastRefill b) eqn:E; simpl; [|done].
  apply Z.ltb_lt in E. split; [|apply Js_min_le_l].
  apply Js_min_glb; [done|].
  apply Qcplus_nonneg_nonneg; [done|].
  apply Qcmult_nonneg_nonneg; [|by apply Qclt_le_weak].
  apply (proj1 (Z2Qc_inj_le 0 (now - lastRefill b))). lia.
Qed.

Lemma refilledBucket_range rl s w :
  (0 < refillRate rl)%Qc → (0 ≤ burst rl)%Qc →
  bucketsOk rl (buckets w) →
  (0 ≤ tokens (refilledBucket rl s w))%Qc ∧
  (tokens (refilledBucket rl s w) ≤ burst rl)%Qc.
Proof.
  intros Hr Hb Hok. apply refillAt_range; [done..|].
  unfold bucketBefore. destruct (buckets w !! s) as [b|] eqn:E; simpl.
  - by apply (Hok s).
  - split; [done|apply Qcle_refl].
Qed.

Lemma bucketsOk_insert rl s b bs :
  bucketsOk rl bs →
  (0 ≤ tokens b)%Qc ∧ (tokens b ≤ burst rl)%Qc →
  bucketsOk rl (<[s := b]> bs).
Proof.
  intros Hok Hb k b' Hk. destruct (decide (s = k)) as [->|Hne].
  - rewrite lookup_insert_eq in Hk. by injection Hk as <-.
  - rewrite lookup_insert_ne in Hk by done. by apply (Hok k).
Qed.

Lemma Qceiling_pos (q : Qc) : (0 < q)%Qc → 0 < Js.ceil q.
Proof.
  intros Hq. unfold Js.ceil.
  destruct (Z_lt_le_dec 0 (Qceiling q)) as [|Hle]; [done|exfalso].
  apply (Qlt_not_le 0 q); [exact Hq|].
  eapply Qle_trans; [apply Qle_ceiling|].
  change (inject_Z (Qceiling q) <= inject_Z 0)%Q. by rewrite <- Zle_Qle.
Qed.

(** Every operation keeps the tokens of every bucket within 0 and
    [burst]. *)
Lemma operations_keep_bucketsOk b ws rl key w :
  createRateLimiter b ws = Ok rl →
  bucketsOk rl (buckets w) →
  bucketsOk rl (buckets (after (isAllowed rl key) w)) ∧
  bucketsOk rl (buckets (after (consume rl key) w)) ∧
  bucketsOk rl (buckets (after (getTokenCount rl key) w)) ∧
  bucketsOk rl (buckets (after (getTimeUntilNextToken rl key) w)).
Proof.
  intros Hrl Hok.
  destruct (createRateLimiter_ok b ws rl Hrl) as (_ & _ & _ & Hb & _ & Hr).
  assert (Hb' : (0 ≤ burst rl)%Qc) by (by apply Qclt_le_weak).
  destruct (key_cases key) as [(s & -> & Hs)|Hbad].
  - pose proof (refilledBucket_range rl s w Hr Hb' Hok) as [Hlo Hhi].
    unfold after.
    rewrite consume_string, isAllowed_string, getTokenCount_string,
      getTimeUntilNextToken_string by done.
    simpl. split_and!; try (by apply bucketsOk_insert).
    case_bool_decide as Ht; simpl; [|by apply bucketsOk_insert].
    apply bucketsOk_insert; [done|]. simpl.
    generalize dependent (tokens (refilledBucket rl s w)).
    intros t ? ? ?. split; qc_lra.
  - unfold after, consume, isAllowed, getTokenCount, getTimeUntilNextToken.
    rewrite !(bind_throw _ _ _ _ _ (refilled_invalid rl key w Hbad)). simpl.
    split_and!; done.
Qed.

(** C10. For a limiter built by [createRateLimiter], any key and any
    bucket state, all read at the same instants: [consume] and [isAllowed]
    return the same answer; [getTimeUntilNextToken] returns 0 exactly when
    [isAllowed] returns true; a denied [consume] leaves the world as
    [isAllowed] does, that is, refilled and nothing else; and when every
    bucket holds between 0 and [burst] tokens before an operation, so it
    does after it. *)
Theorem limiter_operations_agree
    (b ws : Qc) (rl : Config) (key : JsValue) (w : World) :
  createRateLimiter b ws = Ok rl →
  outcome (consume rl key) w = outcome (isAllowed rl key) w ∧
  (outcome (getTimeUntilNextToken rl key) w = Ok 0 ↔
   outcome (isAllowed rl key) w = Ok true) ∧
  (outcome (consume rl key) w = Ok false →
   after (consume rl key) w = after (isAllowed rl key) w) ∧
  (bucketsOk rl (buckets w) →
   bucketsOk rl (buckets (after (isAllowed rl key) w)) ∧
   bucketsOk rl (buckets (after (consume rl key) w)) ∧
   bucketsOk rl (buckets (after (getTokenCount rl key) w)) ∧
   bucketsOk rl (buckets (after (getTimeUntilNextToken rl key) w))).
Proof.
  intros Hrl.
  destruct (createRateLimiter_ok b ws rl Hrl) as (_ & _ & _ & _ & _ & Hr).
  split_and!; [| | |apply (operations_keep_bucketsOk b ws rl key w Hrl)].
  all: destruct (key_cases key) as [(s & -> & Hs)|Hbad].
  all: unfold outcome, after.
  all: try (unfold consume, isAllowed, getTimeUntilNextToken;
            rewrite !(bind_throw _ _ _ _ _ (refilled_invalid rl key w Hbad));
            simpl; done).
  all: rewrite ?consume_string, ?isAllowed_string,
         ?getTimeUntilNextToken_string by done.
  all: simpl; case_bool_decide as Ht; simpl; try done.
  split; [|done]. intros H0. exfalso. injection H0 as H0.
  assert (Hpos : 0 < Js.ceil ((1 - tokens (refilledBucket rl s w))
                              / refillRate rl)%Qc).
  { apply Qceiling_pos. unfold Qcdiv.
    apply Qcmult_pos_pos; [|by apply Qcinv_pos].
    apply Qcnot_le_lt in Ht.
    generalize dependent (tokens (refilledBucket rl s w)).
    intros t ? _. qc_lra. }
  lia.
Qed.

(** From a limiter without buckets, whatever is called and whatever the
    clock reads, every bucket holds between 0 and [burst] tokens. *)
Lemma bucketsOk_reachable b ws rl cs w :
  createRateLimiter b ws = Ok rl →
  buckets w = ∅ →
  bucketsOk rl (buckets (after (callAll rl cs) w)).
Proof.
  intros Hrl Hempty.
  assert (Hok : bucketsOk rl (buckets w)).
  { rewrite Hempty. intros k b' H. by rewrite lookup_empty in H. }
  clear Hempty. revert w Hok. induction cs as [|c cs IH]; intros w Hok; [done|].
  simpl. unfold after in *.
  assert (Hstep : ∃ w1, try_catch (callLimiter rl c) (λ _, ret tt) w = (Ok tt, w1)
                        ∧ bucketsOk rl (buckets w1)).
  { destruct c as [key|key|key|key];
      destruct (operations_keep_bucketsOk b ws rl key w Hrl Hok)
        as (H1 & H2 & H3 & H4);
      unfold callLimiter, try_catch, bind, ret, after in *;
      match goal with
      | |- context [?f rl key w] => destruct (f rl key w) as [[v|e] w1]
      end; simpl in *; eauto. }
  destruct Hstep as (w1 & E & Hok1).
  rewrite (bind_ok _ _ _ _ _ E). by apply IH.
Qed.

Lemma createRateLimiter_record b ws rl :
  createRateLimiter b ws = Ok rl →
  rl = {| burst := b; windowSec := ws;
          refillRate := (b / (ws * Qc_of_Z 1000))%Qc |}.
Proof.
  unfold createRateLimiter. repeat case_bool_decide; try discriminate.
  by intros [= <-].
Qed.

Lemma refilledBucket_fresh rl s w t0 :
  (∀ n, clock w n = t0) → buckets w !! s = None →
  refilledBucket rl s w = {| tokens := burst rl; lastRefill := t0 |}.
Proof.
  intros Hclk Hnone. unfold refilledBucket, bucketBefore, refillAt.
  rewrite Hnone. simpl. rewrite !Hclk, Z.sub_diag. done.
Qed.

Lemma refilledBucket_atInstant rl s w t0 tk :
  atInstant t0 s tk w →
  refilledBucket rl s w = {| tokens := tk; lastRefill := t0 |}.
Proof.
  intros [Hclk Hb]. unfold refilledBucket, bucketBefore, refillAt.
  rewrite Hb. simpl. rewrite !Hclk, Z.sub_diag. done.
Qed.

Lemma atInstant_withBucket t0 s tk n w :
  (∀ n, clock w n = t0) →
  atInstant t0 s tk (withBucket s {| tokens := tk; lastRefill := t0 |} n w).
Proof. intros Hclk. split; [done|]. simpl. by rewrite lookup_insert_eq. Qed.

Lemma consume_fresh_instant rl s w t0 :
  s ≠ "" → (∀ n, clock w n = t0) → buckets w !! s = None →
  (1 ≤ burst rl)%Qc →
  ∃ w', consume rl (JsString s) w = (Ok true, w') ∧
        atInstant t0 s (burst rl - 1)%Qc w'.
Proof.
  intros Hs Hclk Hnone Hb. rewrite consume_string by done.
  rewrite (refilledBucket_fresh rl s w t0) by done. simpl.
  rewrite bool_decide_eq_true_2 by done.
  eexists. split; [done|]. by apply atInstant_withBucket.
Qed.

Lemma consume_atInstant rl s w t0 tk :
  s ≠ "" → atInstant t0 s tk w → (1 ≤ tk)%Qc →
  ∃ w', consume rl (JsString s) w = (Ok true, w') ∧
        atInstant t0 s (tk - 1)%Qc w'.
Proof.
  intros Hs Hat Htk. rewrite consume_string by done.
  rewrite (refilledBucket_atInstant rl s w t0 tk) by done. simpl.
  rewrite bool_decide_eq_true_2 by done.
  eexists. split; [done|]. apply atInstant_withBucket, Hat.
Qed.

Lemma getTimeUntilNextToken_atInstant rl s w t0 tk :
  s ≠ "" → atInstant t0 s tk w → (tk < 1)%Qc →
  outcome (getTimeUntilNextToken rl (JsString s)) w
    = Ok (Js.ceil ((1 - tk) / refillRate rl)%Qc).
Proof.
  intros Hs Hat Htk. unfold outcome.
  rewrite getTimeUntilNextToken_string by done.
  rewrite (refilledBucket_atInstant rl s w t0 tk) by done. simpl.
  rewrite bool_decide_eq_false_2 by (by apply Qclt_not_le). done.
Qed.

(** C8. With [burst = 3] and [windowSec = 300] the refill rate is
    3/300000 tokens per millisecond, so one token takes 100000 ms; three
    [consume] calls on a site without a bucket, with the clock standing
    still, are all granted, and [getTimeUntilNextToken] then returns
    exactly 100000. *)
Theorem time_until_next_token_after_burst
    (rl : Config) (w : World) (s : string) :
  createRateLimiter (Qc_of_Z 3) (Qc_of_Z 300) = Ok rl →
  s ≠ "" →
  buckets w !! s = None →
  (∀ n, clock w n = clock w 0%nat) →
  refillRate rl = (Qc_of_Z 3 / Qc_of_Z 300000)%Qc ∧
  (1 / refillRate rl)%Qc = Qc_of_Z 100000 ∧
  outcome (burstThenWait rl (JsString s) 3) w = Ok ([true; true; true], 100000).
Proof.
  intros Hrl Hs Hnone Hclk. apply createRateLimiter_record in Hrl. subst rl.
  set (rl := {| burst := Qc_of_Z 3 |}).
  split; [by apply Qc_is_canon|]. split; [by apply Qc_is_canon|].
  destruct (consume_fresh_instant rl s w (clock w 0%nat) Hs Hclk Hnone)
    as (w1 & E1 & H1); [by vm_compute|].
  destruct (consume_atInstant rl s w1 _ _ Hs H1) as (w2 & E2 & H2);
    [by vm_compute|].
  destruct (consume_atInstant rl s w2 _ _ Hs H2) as (w3 & E3 & H3);
    [by vm_compute|].
  pose proof (getTimeUntilNextToken_atInstant rl s w3 _ _ Hs H3) as E4.
  unfold outcome in *. unfold burstThenWait, consumeTimes.
  unfold bind. rewrite E1, E2, E3. simpl.
  destruct (getTimeUntilNextToken rl (JsString s) w3) as [r4 w4].
  simpl in E4. rewrite E4 by (by vm_compute). simpl.
  do 2 f_equal.
Qed.

(** ** The handler, branch by branch *)

Lemma getPreviousStatus_string s w :
  s ≠ "" →
  getPreviousStatus (JsString s) w = (Ok (getProperty (statusStore w) s), w).
Proof.
  intros Hs. unfold getPreviousStatus. simpl.
  rewrite bool_decide_eq_true_2 by done. by run_monad.
Qed.

Lemma getPreviousStatus_invalid key w :
  (∀ s, key = JsString s → s = "") →
  getPreviousStatus key w = (Throw "URL must be a valid string", w).
Proof.
  intros H. destruct key as [| | | |s]; try done.
  by rewrite (H s eq_refl).
Qed.

Lemma lookup_phase s w :
  s ≠ "" →
  try_catch
    (let* previousResult := getPreviousStatus (JsString s) in
     let* _ := getSnapshot in
     ret (Some previousResult))
    (λ _, ret None) w
  = (Ok (Some (getProperty (statusStore w) s)), w).
Proof.
  intros Hs. unfold try_catch.
  by rewrite (bind_ok _ _ _ _ _ (getPreviousStatus_string s w Hs)).
Qed.

(** The handler once the previous record has been looked up. *)
Lemma handler_lookup rl o s w :
  raw_url o = JsString s → s ≠ "" →
  handler rl o w =
    match getProperty (statusStore w) s with
    | Missing =>
      (let* _ := updateLastStatus (ArgObject o) in
       notify (InitialCheck (raw_url o) (raw_status o) (raw_responseTime o))) w
    | Own previousResult =>
      if bool_decide (raw_status o = JsString (status_name (status previousResult)))
      then (let* _ := updateLastStatus (ArgObject o) in
            notify (StatusUpdate o)) w
      else
        (let* granted := consume rl (raw_url o) in
         if negb granted then
           let* timeUntilNext := getTimeUntilNextToken rl (raw_url o) in
           let* tokensRemaining := getTokenCount rl (raw_url o) in
           notify (RateLimited (raw_url o) (raw_status o)
                     (status previousResult) timeUntilNext tokensRemaining)
         else
           let* tokensRemaining := getTokenCount rl (raw_url o) in
           let* _ := notify (StatusChange o (status previousResult)
                               tokensRemaining) in
           updateLastStatus (ArgObject o)) w
    | Inherited =>
      if bool_decide (raw_status o = JsUndefined)
      then (let* _ := updateLastStatus (ArgObject o) in
            notify (StatusUpdate o)) w
      else
        (let* granted := consume rl (raw_url o) in
         if negb granted then
           let* timeUntilNext := getTimeUntilNextToken rl (raw_url o) in
           let* tokensRemaining := getTokenCount rl (raw_url o) in
           notify (RateLimitedFromUndefined (raw_url o) (raw_status o)
                     timeUntilNext tokensRemaining)
         else
           let* tokensRemaining := getTokenCount rl (raw_url o) in
           let* _ := notify (StatusChangeFromUndefined o tokensRemaining) in
           updateLastStatus (ArgObject o)) w
    end.
Proof.
  intros Hu Hs. unfold handler. cbv zeta. rewrite Hu.
  rewrite (bind_ok _ _ _ _ _ (lookup_phase s w Hs)).
  destruct (getProperty (statusStore w) s); [case_bool_decide| |];
    try reflexivity.
  case_bool_decide; reflexivity.
Qed.

(** The same with the record of the site in hand: an own property is
    found whatever its name. *)
Lemma handler_lookup_own rl o s p w :
  raw_url o = JsString s → s ≠ "" →
  statusStore w !! s = Some p →
  handler rl o w =
    if bool_decide (raw_status o = JsString (status_name (status p)))
    then (let* _ := updateLastStatus (ArgObject o) in
          notify (StatusUpdate o)) w
    else
      (let* granted := consume rl (raw_url o) in
       if negb granted then
         let* timeUntilNext := getTimeUntilNextToken rl (raw_url o) in
         let* tokensRemaining := getTokenCount rl (raw_url o) in
         notify (RateLimited (raw_url o) (raw_status o)
                   (status p) timeUntilNext tokensRemaining)
       else
         let* tokensRemaining := getTokenCount rl (raw_url o) in
         let* _ := notify (StatusChange o (status p) tokensRemaining) in
         updateLastStatus (ArgObject o)) w.
Proof.
  intros Hu Hs Hp. rewrite (handler_lookup rl o s w Hu Hs).
  by rewrite (getProperty_own _ _ _ Hp).
Qed.

(** Without a record, for a url that is an [ownName]. *)
Lemma handler_lookup_missing rl o s w :
  raw_url o = JsString s → s ≠ "" →
  ownName s → statusStore w !! s = None →
  handler rl o w =
    (let* _ := updateLastStatus (ArgObject o) in
     notify (InitialCheck (raw_url o) (raw_status o) (raw_responseTime o))) w.
Proof.
  intros Hu Hs Hown Hnone. rewrite (handler_lookup rl o s w Hu Hs).
  by rewrite getProperty_ownName, Hnone.
Qed.

Lemma handler_invalid_url rl o w :
  (∀ s, raw_url o = JsString s → s = "") →
  handler rl o w = (Ok tt, w).
Proof.
  intros H. unfold handler. cbv zeta. unfold bind at 1, try_catch.
  by rewrite (bind_throw _ _ _ _ _ (getPreviousStatus_invalid _ w H)).
Qed.

Lemma status_name_inj s1 s2 : status_name s1 = status_name s2 → s1 = s2.
Proof. by destruct s1, s2. Qed.

Lemma handler_first rl o r w :
  accepted o r → ownName (url r) → statusStore w !! url r = None →
  handler rl o w =
    (Ok tt, notified (InitialCheck (raw_url o) (raw_status o) (raw_responseTime o))
                     (persisted r w)).
Proof.
  intros Hacc Hown Hnone. destruct (accepted_url o r Hacc) as [Hu Hs].
  rewrite (handler_lookup_missing rl o (url r) w Hu Hs Hown Hnone).
  by rewrite (bind_ok _ _ _ _ _ (updateLastStatus_accepted o r w Hacc Hown)).
Qed.

Lemma handler_routine rl o r p w :
  accepted o r → ownName (url r) →
  statusStore w !! url r = Some p → status p = status r →
  handler rl o w = (Ok tt, notified (StatusUpdate o) (persisted r w)).
Proof.
  intros Hacc Hown Hp Hst. destruct (accepted_url o r Hacc) as [Hu Hs].
  rewrite (handler_lookup_own rl o (url r) p w Hu Hs Hp).
  apply accepted_inv in Hacc as Hinv. destruct Hinv as (_ & _ & Hstatus & _).
  rewrite bool_decide_eq_true_2 by (by rewrite Hstatus, Hst).
  by rewrite (bind_ok _ _ _ _ _ (updateLastStatus_accepted o r w Hacc Hown)).
Qed.

Lemma notify_eq n w : notify n w = (Ok tt, notified n w).
Proof. done. Qed.

Lemma consume_granted rl s w :
  s ≠ "" → (1 ≤ tokens (refilledBucket rl s w))%Qc →
  consume rl (JsString s) w =
    (Ok true,
     withBucket s {| tokens := (tokens (refilledBucket rl s w) - 1)%Qc;
                     lastRefill := lastRefill (refilledBucket rl s w) |}
                (readingsTaken s w) w).
Proof.
  intros Hs Ht. rewrite consume_string by done. simpl.
  by rewrite bool_decide_eq_true_2.
Qed.

Lemma consume_denied rl s w :
  s ≠ "" → ¬ (1 ≤ tokens (refilledBucket rl s w))%Qc →
  consume rl (JsString s) w =
    (Ok false, withBucket s (refilledBucket rl s w) (readingsTaken s w) w).
Proof.
  intros Hs Ht. rewrite consume_string by done. simpl.
  by rewrite bool_decide_eq_false_2.
Qed.

Lemma readingsTaken_withBucket s b n w :
  readingsTaken s (withBucket s b n w) = 1%nat.
Proof. unfold readingsTaken. simpl. by rewrite lookup_insert_eq. Qed.

(** A transition the limiter grants: the alert is shown, then the result
    is persisted. *)
Lemma handler_granted rl o r p w :
  accepted o r → ownName (url r) →
  statusStore w !! url r = Some p → status p ≠ status r →
  (1 ≤ tokens (refilledBucket rl (url r) w))%Qc →
  let s := url r in
  let b := refilledBucket rl s w in
  let w1 := withBucket s {| tokens := (tokens b - 1)%Qc; lastRefill := lastRefill b |}
                       (readingsTaken s w) w in
  let b1 := refilledBucket rl s w1 in
  let w2 := withBucket s b1 1 w1 in
  handler rl o w =
    (Ok tt, persisted r (notified (StatusChange o (status p) (Js.floor (tokens b1))) w2)).
Proof.
  intros Hacc Hown Hp Hst Htok s b w1 b1 w2.
  destruct (accepted_url o r Hacc) as [Hu Hs].
  rewrite (handler_lookup_own rl o (url r) p w Hu Hs Hp).
  apply accepted_inv in Hacc as Hinv. destruct Hinv as (_ & _ & Hstatus & _).
  rewrite bool_decide_eq_false_2
    by (rewrite Hstatus; intros [= E]; by apply status_name_inj in E).
  rewrite Hu.
  rewrite (bind_ok _ _ _ _ _ (consume_granted rl (url r) w Hs Htok)).
  cbn [negb]. fold s b w1.
  rewrite (bind_ok _ _ _ _ _ (getTokenCount_string rl s w1 Hs)).
  rewrite (readingsTaken_withBucket s _ _ w : readingsTaken s w1 = 1%nat).
  fold b1 w2.
  rewrite (bind_ok _ _ _ _ _ (notify_eq _ _)).
  by rewrite (updateLastStatus_accepted o r _ Hacc Hown).
Qed.

(** A transition the limiter denies: only the limiter's bucket and the
    terminal change. *)
Lemma handler_denied rl o s p w :
  raw_url o = JsString s → s ≠ "" →
  statusStore w !! s = Some p →
  raw_status o ≠ JsString (status_name (status p)) →
  ¬ (1 ≤ tokens (refilledBucket rl s w))%Qc →
  let b := refilledBucket rl s w in
  let w1 := withBucket s b (readingsTaken s w) w in
  let b1 := refilledBucket rl s w1 in
  let w2 := withBucket s b1 1 w1 in
  let b2 := refilledBucket rl s w2 in
  let w3 := withBucket s b2 1 w2 in
  handler rl o w =
    (Ok tt,
     notified (RateLimited (raw_url o) (raw_status o) (status p)
                 (if bool_decide (1 ≤ tokens b1)%Qc then 0
                  else Js.ceil ((1 - tokens b1) / refillRate rl)%Qc)
                 (Js.floor (tokens b2))) w3).
Proof.
  intros Hu Hs Hp Hst Htok b w1 b1 w2 b2 w3.
  rewrite (handler_lookup_own rl o s p w Hu Hs Hp).
  rewrite bool_decide_eq_false_2 by done.
  rewrite Hu.
  rewrite (bind_ok _ _ _ _ _ (consume_denied rl s w Hs Htok)).
  cbn [negb]. fold b w1.
  rewrite (bind_ok _ _ _ _ _ (getTimeUntilNextToken_string rl s w1 Hs)).
  rewrite (readingsTaken_withBucket s _ _ w : readingsTaken s w1 = 1%nat).
  fold b1 w2.
  rewrite (bind_ok _ _ _ _ _ (getTokenCount_string rl s w2 Hs)).
  rewrite (readingsTaken_withBucket s _ _ w1 : readingsTaken s w2 = 1%nat).
  fold b2 w3.
  by rewrite notify_eq.
Qed.

Lemma persisted_history r w :
  historyStore (persisted r w) =
    drop (length (historyStore w ++ [r]) - 1000) (historyStore w ++ [r]).
Proof.
  transitivity (historyStore (after (addToHistoryCapped 1000 r) w)).
  - unfold addToHistoryCapped. by run_monad.
  - rewrite addToHistoryCapped_history by done.
    by replace (Z.to_nat 1000) with 1000%nat by lia.
Qed.

Lemma persisted_history_last r w : list.last (historyStore (persisted r w)) = Some r.
Proof.
  rewrite persisted_history.
  set (h := historyStore w).
  assert (Hlen : length (h ++ [r]) = S (length h))
    by (rewrite length_app; simpl; lia).
  destruct (decide (length (h ++ [r]) - 1000 ≤ length h)%nat) as [Hle|Hgt].
  - rewrite drop_app_le by done. by rewrite last_snoc.
  - lia.
Qed.

(** C4, as amended: for results whose url has a scheme, as every
    absolute URL has.  Such a result that passes the guards, for a site
    without a status record, is always persisted, and the limiter is not
    involved: the handler returns normally, no bucket changes and the
    clock is not read, the status record becomes the result, the result
    is the newest entry of the history, the terminal shows the
    initial-check line, and the metrics entry of the site, and no other,
    is replaced by one that counts the check: one more check, one more
    success or one more consecutive failure, the timestamp of the result
    as the last up or down time, the response time folded into the mean,
    the maximum and the minimum, and the uptime recomputed. *)
Theorem first_observation_always_persists
    (rl : Config) (w : World) (o : RawResult) (r : StatusResult) :
  accepted o r →
  hasUrlScheme (url r) = true →
  statusStore w !! url r = None →
  let w' := after (handler rl o) w in
  let before := default (initialMetrics (url r)) (metricsStore w !! url r) in
  let up := bool_decide (status r = UP) in
  outcome (handler rl o) w = Ok tt ∧
  buckets w' = buckets w ∧ ticks w' = ticks w ∧
  statusStore w' = <[url r := r]> (statusStore w) ∧
  historyStore w' =
    drop (length (historyStore w ++ [r]) - 1000) (historyStore w ++ [r]) ∧
  list.last (historyStore w') = Some r ∧
  (∃ m, metricsStore w' = <[url r := m]> (metricsStore w) ∧
        m_url m = m_url before ∧
        totalChecks m = totalChecks before + 1 ∧
        successfulChecks m
          = successfulChecks before + (if up then 1 else 0) ∧
        consecutiveFailures m
          = (if up then 0 else consecutiveFailures before + 1) ∧
        lastUpTime m = (if up then Some (checkedAt r) else lastUpTime before) ∧
        lastDownTime m
          = (if up then lastDownTime before else Some (checkedAt r)) ∧
        averageResponseTime m
          = ((averageResponseTime before * Qc_of_Z (totalChecks before)
              + responseTime r) / Qc_of_Z (totalChecks before + 1))%Qc ∧
        maxResponseTime m = Js.max (maxResponseTime before) (responseTime r) ∧
        minResponseTime m
          = Js.min_inf (minResponseTime before) (responseTime r) ∧
        uptimePercentage m
          = (Qc_of_Z (successfulChecks m) / Qc_of_Z (totalChecks m)
             * Qc_of_Z 100)%Qc) ∧
  terminal w' =
    terminal w ++ [InitialCheck (raw_url o) (raw_status o) (raw_responseTime o)].
Proof.
  intros Hacc Hscheme Hnone w' before up. subst w'. unfold outcome, after.
  rewrite (handler_first rl o r w Hacc (hasUrlScheme_ownName _ Hscheme) Hnone).
  cbn [fst snd]. split_and!; try done.
  - apply (persisted_history r w).
  - apply (persisted_history_last r w).
  - eexists. split; [reflexivity|]. fold before. unfold recordCheck.
    fold up. cbn.
    replace (totalChecks before + 1 - 1) with (totalChecks before) by lia.
    split_and!; try done. destruct up; lia.
Qed.

(** C1. When the status of an incoming result differs from the stored
    status of its site and [consume] is denied, the handler returns
    normally, shows exactly one rate-limited notice, which carries the
    value [getTimeUntilNextToken] returns right after the denied
    [consume], and persists nothing: status store, history and metrics
    are as before, so the record of the site is still the stale one. *)
Theorem suppressed_transition_is_not_persisted
    (rl : Config) (w : World) (o : RawResult) (s : string)
    (previous : StatusResult) :
  raw_url o = JsString s →
  statusStore w !! s = Some previous →
  raw_status o ≠ JsString (status_name (status previous)) →
  outcome (consume rl (raw_url o)) w = Ok false →
  let w' := after (handler rl o) w in
  outcome (handler rl o) w = Ok tt ∧
  (∃ timeUntilNextMs tokensRemaining,
     outcome (getTimeUntilNextToken rl (raw_url o))
             (after (consume rl (raw_url o)) w) = Ok timeUntilNextMs ∧
     terminal w' =
       terminal w ++ [RateLimited (raw_url o) (raw_status o) (status previous)
                                  timeUntilNextMs tokensRemaining]) ∧
  statusStore w' = statusStore w ∧
  historyStore w' = historyStore w ∧
  metricsStore w' = metricsStore w ∧
  statusStore w' !! s = Some previous.
Proof.
  intros Hu Hprev Hst Hdenied w'. rewrite Hu in *.
  assert (Hs : s ≠ "").
  { intros ->. unfold outcome, consume in Hdenied.
    by rewrite (bind_throw _ _ _ _ _ (refilled_invalid rl (JsString "") w
                                        ltac:(by intros ? [= <-]))) in Hdenied. }
  assert (Htok : ¬ (1 ≤ tokens (refilledBucket rl s w))%Qc).
  { intros Htok. unfold outcome in Hdenied.
    by rewrite (consume_granted rl s w Hs Htok) in Hdenied. }
  subst w'. unfold outcome, after.
  rewrite (handler_denied rl o s previous w Hu Hs Hprev Hst Htok).
  rewrite (consume_denied rl s w Hs Htok).
  rewrite getTimeUntilNextToken_string by done. rewrite Hu. simpl.
  split_and!; try done. eauto.
Qed.

(** ** Validation *)

Lemma validate_rejects o : shapeInvalid o → ∃ e, validate o = Throw e.
Proof.
  unfold shapeInvalid, nonEmptyString, validate.
  intros [Hu|[[Hup Hdown]|[Hrt|Hc]]].
  - destruct (raw_url o) as [| | | |u]; eauto. simpl.
    case_bool_decide as Hne; simpl; eauto.
    destruct Hu. eauto.
  - destruct (raw_url o) as [| | | |u]; eauto. simpl.
    case_bool_decide; simpl; eauto.
    destruct (raw_status o) as [| | | |st]; eauto.
    repeat case_bool_decide; subst; try done; eauto.
  - destruct (raw_url o) as [| | | |u]; eauto. simpl.
    case_bool_decide; simpl; eauto.
    destruct (raw_status o) as [| | | |st]; eauto.
    repeat case_bool_decide; subst; eauto;
      destruct (raw_responseTime o) as [| | |q|]; eauto;
      specialize (Hrt q eq_refl); by rewrite bool_decide_eq_true_2; eauto.
  - destruct (raw_url o) as [| | | |u]; eauto. simpl.
    case_bool_decide; simpl; eauto.
    destruct (raw_status o) as [| | | |st]; eauto.
    repeat case_bool_decide; subst; eauto;
      destruct (raw_responseTime o) as [| | |q|]; eauto;
      case_bool_decide; eauto;
      destruct (raw_checkedAt o) as [| | | |c]; eauto; simpl;
      case_bool_decide; simpl; eauto; destruct Hc; eauto.
Qed.

(** The guards reject nothing else. *)
Lemma validate_accepts o : ¬ shapeInvalid o → ∃ r, accepted o r.
Proof.
  unfold shapeInvalid, nonEmptyString. intros H.
  destruct (raw_url o) as [| | | |u] eqn:Eu;
    try (destruct H; left; intros (? & ? & ?); discriminate).
  destruct (decide (u = "")) as [->|Hu];
    [destruct H; left; intros (? & [= <-] & ?); done|].
  destruct (raw_status o) as [| | | |st] eqn:Est;
    try (destruct H; right; left; split; discriminate).
  destruct (raw_responseTime o) as [| | |q|] eqn:Ert;
    try (destruct H; right; right; left; intros; discriminate).
  destruct (decide (q < 0)%Qc) as [Hq|Hq];
    [destruct H; right; right; left; by intros ? [= <-]|].
  destruct (raw_checkedAt o) as [| | | |c] eqn:Ec;
    try (destruct H; right; right; right; intros (? & ? & ?); discriminate).
  destruct (decide (c = "")) as [->|Hc];
    [destruct H; right; right; right; intros (? & [= <-] & ?); done|].
  assert (Hst : st = "UP" ∨ st = "DOWN").
  { destruct (decide (st = "UP")); [by left|].
    destruct (decide (st = "DOWN")); [by right|].
    destruct H. right. left. split; congruence. }
  apply Qcnot_lt_le in Hq.
  destruct Hst as [-> | ->].
  - exists {| url := u; status := UP; code := raw_code o; responseTime := q;
              checkedAt := c; error := raw_error o |}.
    apply accepted_inv. simpl. by rewrite Eu, Est, Ert, Ec.
  - exists {| url := u; status := DOWN; code := raw_code o; responseTime := q;
              checkedAt := c; error := raw_error o |}.
    apply accepted_inv. simpl. by rewrite Eu, Est, Ert, Ec.
Qed.

(** C9 (as the code has it). A submission whose argument is not a plain
    object, or whose url or timestamp is missing, empty or not a string,
    whose status is not the string UP or DOWN, or whose response time is
    not a number or is negative, throws, and the world it leaves is the
    world it found: none of the three stores is touched. *)
Theorem invalid_shape_is_rejected_before_any_mutation
    (w : World) (result : JsArg) :
  rejectedShape result →
  ∃ e, updateLastStatus result w = (Throw e, w).
Proof.
  destruct result as [v| |o]; simpl; intros H; [by eexists..|].
  destruct (validate_rejects o H) as [e He].
  exists e. unfold updateLastStatus. by rewrite He.
Qed.

(** C9 fails as stated: a result whose timestamp holds no digit cannot be
    parsed as a date, so it is malformed, yet it is accepted and stored. *)
Lemma malformed_result_is_stored :
  malformed strangeResult ∧
  outcome (updateLastStatus (ArgObject strangeResult)) (emptyWorld (λ _, 0))
    = Ok tt ∧
  is_Some (statusStore (after (updateLastStatus (ArgObject strangeResult))
                              (emptyWorld (λ _, 0))) !! "https://a.example") ∧
  length (historyStore (after (updateLastStatus (ArgObject strangeResult))
                              (emptyWorld (λ _, 0)))) = 1%nat.
Proof.
  split; [do 3 right; by intros s [= <-]|].
  assert (Hacc : accepted strangeResult
                   {| url := "https://a.example"; status := UP; code := JsNull;
                      responseTime := Qc_of_Z 10; checkedAt := "yesterday";
                      error := JsNull |}) by (by vm_compute).
  unfold outcome, after.
  rewrite (updateLastStatus_accepted _ _ _ Hacc (hasUrlScheme_ownName "https://a.example" eq_refl)).
  simpl. split_and!; [done| |done].
  rewrite lookup_insert_eq. eauto.
Qed.

(** ** Round trip through the handler *)

Lemma emitted_snoc {A} (m : M A) w n :
  terminal (after m w) = terminal w ++ [n] → emitted m w = [n].
Proof. unfold emitted. intros ->. by rewrite drop_app_length. Qed.

Lemma suppressed_eval rl o w w1 n :
  handler rl o w = (Ok tt, w1) →
  terminal w1 = terminal w ++ [n] →
  suppressed rl o w =
    match n with
    | RateLimited _ _ _ _ _ | RateLimitedFromUndefined _ _ _ _ => true
    | _ => false
    end.
Proof.
  intros E Ht. unfold suppressed. rewrite (emitted_snoc _ w n).
  - by destruct n.
  - unfold after. by rewrite E.
Qed.

Lemma wellFormed_url r : wellFormed r → url r ≠ "".
Proof. intros H. by destruct (accepted_url _ _ H). Qed.

(** One well-formed result through the handler: it returns normally, and
    either the result was suppressed and the status store is untouched,
    or it was not and the record of its site is now the result. *)
Lemma handler_wellFormed rl r w :
  wellFormed r → ownName (url r) →
  let w1 := after (handler rl (to_raw r)) w in
  handler rl (to_raw r) w = (Ok tt, w1) ∧
  clock w1 = clock w ∧
  ((suppressed rl (to_raw r) w = true ∧ statusStore w1 = statusStore w) ∨
   (suppressed rl (to_raw r) w = false ∧
    statusStore w1 = <[url r := r]> (statusStore w))).
Proof.
  intros Hwf Hown w1. pose proof (wellFormed_url r Hwf) as Hs.
  assert (Hgo : ∀ W n,
    handler rl (to_raw r) w = (Ok tt, W) →
    terminal W = terminal w ++ [n] → clock W = clock w →
    (match n with
     | RateLimited _ _ _ _ _ | RateLimitedFromUndefined _ _ _ _ =>
       statusStore W = statusStore w
     | _ => statusStore W = <[url r := r]> (statusStore w)
     end) →
    handler rl (to_raw r) w = (Ok tt, w1) ∧
    clock w1 = clock w ∧
    ((suppressed rl (to_raw r) w = true ∧ statusStore w1 = statusStore w) ∨
     (suppressed rl (to_raw r) w = false ∧
      statusStore w1 = <[url r := r]> (statusStore w)))).
  { intros W n E Ht Hc Hst.
    pose proof (suppressed_eval rl _ w W n E Ht) as Hsup.
    subst w1. unfold after. rewrite E. simpl.
    split_and!; [done..|]. rewrite Hsup. destruct n; eauto. }
  destruct (statusStore w !! url r) as [p|] eqn:Hp.
  - destruct (decide (status p = status r)) as [Hst|Hst].
    + eapply Hgo; [apply (handler_routine rl _ r p w Hwf Hown Hp Hst)|done..].
    + destruct (decide (1 ≤ tokens (refilledBucket rl (url r) w))%Qc)
        as [Htok|Htok].
      * eapply Hgo;
          [apply (handler_granted rl _ r p w Hwf Hown Hp Hst Htok)|done..].
      * assert (Hst' : raw_status (to_raw r)
                         ≠ JsString (status_name (status p))).
        { simpl. intros [= E]. by apply status_name_inj in E. }
        eapply Hgo;
          [apply (handler_denied rl (to_raw r) (url r) p w
                    eq_refl Hs Hp Hst' Htok)|done..].
  - eapply Hgo; [apply (handler_first rl _ r w Hwf Hown Hp)|done..].
Qed.

Lemma handleAll_cons rl o os w w1 :
  handler rl o w = (Ok tt, w1) →
  handleAll rl (o :: os) w = handleAll rl os w1.
Proof.
  intros E. simpl.
  by rewrite (bind_ok _ _ _ _ _ (try_catch_ok _ _ _ _ _ E)).
Qed.

Lemma last_app_cases {A} (l1 l2 : list A) :
  list.last (l1 ++ l2) =
    match list.last l2 with Some x => Some x | None => list.last l1 end.
Proof.
  induction l2 as [|x l2 IH] using rev_ind.
  - by rewrite app_nil_r.
  - by rewrite app_assoc, !last_snoc.
Qed.

(** C2 (as the code has it). After a run of well-formed results whose
    urls have a scheme through the handler, the snapshot entry of a site
    is the last result of that site that was not suppressed by the rate
    limiter; a site whose results were all suppressed keeps the entry it
    had. *)
Theorem snapshot_holds_last_result_not_suppressed
    (rl : Config) (w : World) (rs : list StatusResult) (u : string) :
  Forall wellFormed rs →
  Forall (λ r, hasUrlScheme (url r) = true) rs →
  let w' := after (handleAll rl (to_raw <$> rs)) w in
  outcome getSnapshot w' = Ok (statusStore w') ∧
  statusStore w' !! u =
    match list.last (ofSite u (notSuppressed rl rs w)) with
    | Some r => Some r
    | None => statusStore w !! u
    end.
Proof.
  intros Hwf Hsch w'. split; [done|]. subst w'. revert w.
  induction Hwf as [|r rs Hr _ IH]; intros w; [done|].
  apply list.Forall_cons in Hsch as [Hr' Hsch]. specialize (IH Hsch).
  destruct (handler_wellFormed rl r w Hr (hasUrlScheme_ownName _ Hr'))
    as (E & _ & Hcase).
  rewrite fmap_cons. unfold after at 1.
  rewrite (handleAll_cons rl _ _ w _ E). fold (after (handleAll rl (to_raw <$> rs)) (after (handler rl (to_raw r)) w)).
  rewrite IH. simpl notSuppressed. unfold ofSite.
  rewrite list.filter_app, last_app_cases.
  fold (ofSite u (notSuppressed rl rs (after (handler rl (to_raw r)) w))).
  destruct (list.last (ofSite u (notSuppressed rl rs (after (handler rl (to_raw r)) w))));
    [done|].
  destruct Hcase as [[-> ->]|[-> ->]]; [done|].
  rewrite filter_cons, filter_nil. case_decide as Hu.
  - subst u. by rewrite lookup_insert_eq.
  - by rewrite lookup_insert_ne.
Qed.

(** C2 fails as stated: with [burst = 1], after UP, DOWN, UP for one site
    at one instant the third result is suppressed, and the snapshot still
    holds the second. *)
Lemma suppressed_result_missing_from_snapshot :
  let rl := sampleLimiter 1 300 in
  let up := sampleResult "https://a.example" UP 10 in
  let down := sampleResult "https://a.example" DOWN 20 in
  let w' := after (handleAll rl (to_raw <$> [up; down; up]))
                  (emptyWorld (λ _, 0)) in
  createRateLimiter (Qc_of_Z 1) (Qc_of_Z 300) = Ok rl ∧
  list.last [up; down; up] = Some up ∧
  outcome getSnapshot w' = Ok (statusStore w') ∧
  statusStore w' !! "https://a.example" = Some down ∧
  down ≠ up.
Proof.
  intros rl up down w'. split_and!.
  - by vm_compute.
  - done.
  - done.
  - by vm_compute.
  - discriminate.
Qed.


(** ** Flapping inside a short window *)

Section Window.

Variables (rl : Config) (lo hi : Z).
Hypothesis rate_pos : (0 < refillRate rl)%Qc.
Hypothesis window_short : (Qc_of_Z (hi - lo) * refillRate rl < 1)%Qc.

Lemma refill_amount_split (a b : Z) :
  (Qc_of_Z (a - lo) * refillRate rl + Qc_of_Z (b - a) * refillRate rl
   = Qc_of_Z (b - lo) * refillRate rl)%Qc.
Proof.
  rewrite <- Qcmult_plus_distr_l, <- Z2Qc_inj_add.
  by replace (a - lo + (b - a)) with (b - lo) by lia.
Qed.

Lemma refill_amount_small (a : Z) :
  lo ≤ a ≤ hi → (Qc_of_Z (a - lo) * refillRate rl < 1)%Qc.
Proof.
  intros Ha. eapply Qcle_lt_trans; [|exact window_short].
  apply Qcmult_le_mono_nonneg_r; [by apply Qclt_le_weak|].
  apply (proj1 (Z2Qc_inj_le (a - lo) (hi - lo))). lia.
Qed.

Lemma refill_amount_nonneg (a b : Z) :
  a ≤ b → (0 ≤ Qc_of_Z (b - a) * refillRate rl)%Qc.
Proof.
  intros Hab. apply Qcmult_nonneg_nonneg; [|by apply Qclt_le_weak].
  apply (proj1 (Z2Qc_inj_le 0 (b - a))). lia.
Qed.

Lemma refillAt_inBudget k now b :
  (Qc_of_Z k ≤ burst rl)%Qc → lo ≤ now ≤ hi →
  inBudget rl lo hi k b → inBudget rl lo hi k (refillAt rl now b).
Proof.
  intros Hk Hnow (Hlr & Hge & Hle). unfold refillAt.
  destruct (0 <? now - lastRefill b) eqn:E; [|done].
  apply Z.ltb_lt in E. split; [done|]. simpl.
  pose proof (refill_amount_nonneg (lastRefill b) now ltac:(lia)) as Hadd.
  pose proof (refill_amount_split (lastRefill b) now) as Hsplit.
  set (x := (Qc_of_Z (now - lastRefill b) * refillRate rl)%Qc) in *.
  set (y := (Qc_of_Z (lastRefill b - lo) * refillRate rl)%Qc) in *.
  set (z := (Qc_of_Z (now - lo) * refillRate rl)%Qc) in *.
  split.
  - apply Js_min_glb; [done|]. clearbody x y z. clear -Hge Hadd. qc_lra.
  - eapply Qcle_trans; [apply Js_min_le_r|].
    clearbody x y z. rewrite <- Hsplit. clear -Hle. qc_lra.
Qed.

Lemma inBudget_lt k b :
  inBudget rl lo hi k b → (tokens b < Qc_of_Z k + 1)%Qc.
Proof.
  intros (Hlr & _ & Hle).
  pose proof (refill_amount_small (lastRefill b) Hlr) as Hsmall.
  set (y := (Qc_of_Z (lastRefill b - lo) * refillRate rl)%Qc) in *.
  clearbody y. clear -Hle Hsmall. qc_lra.
Qed.

Lemma inBudget_floor k b : inBudget rl lo hi k b → Js.floor (tokens b) = k.
Proof.
  intros Hb. pose proof (inBudget_lt k b Hb) as Hlt.
  destruct Hb as (_ & Hge & _). unfold Js.floor.
  assert (H1 : k ≤ Qfloor (tokens b)).
  { rewrite <- (Qfloor_Z k). apply Qfloor_resp_le. exact Hge. }
  assert (H2 : Qfloor (tokens b) < k + 1).
  { rewrite Zlt_Qlt. eapply Qle_lt_trans; [apply Qfloor_le|].
    rewrite inject_Z_plus. unfold Qclt in Hlt. simpl in Hlt.
    rewrite Qred_correct in Hlt. exact Hlt. }
  lia.
Qed.

Lemma clockWithin_eq w W : clock W = clock w → clockWithin lo hi w → clockWithin lo hi W.
Proof. unfold clockWithin. by intros ->. Qed.

Lemma refilledBucket_none s w :
  clockWithin lo hi w → buckets w !! s = None →
  tokens (refilledBucket rl s w) = burst rl ∧
  lo ≤ lastRefill (refilledBucket rl s w) ≤ hi.
Proof.
  intros Hclk Hnone. unfold refilledBucket, bucketBefore, refillAt.
  rewrite Hnone. simpl.
  match goal with |- context [0 <? ?d] => destruct (0 <? d) eqn:E end; simpl.
  - split; [|apply Hclk]. unfold Js.min.
    case_bool_decide as Hm; [done|]. destruct Hm.
    apply Z.ltb_lt in E.
    match goal with |- (_ ≤ _ + ?x)%Qc => assert (0 ≤ x)%Qc as Hx end.
    { apply refill_amount_nonneg. lia. }
    revert Hx. generalize (burst rl). intros q.
    match goal with |- (0 ≤ ?x)%Qc → _ => generalize x end.
    intros x Hx. qc_lra.
  - split; [done|apply Hclk].
Qed.

Lemma refilledBucket_budget s k w :
  (Qc_of_Z k ≤ burst rl)%Qc →
  clockWithin lo hi w → budget rl lo hi s k w →
  inBudget rl lo hi k (refilledBucket rl s w).
Proof.
  intros Hk Hclk (b & Hb & Hin). unfold refilledBucket, bucketBefore.
  rewrite Hb. simpl. apply refillAt_inBudget; [done|apply Hclk|done].
Qed.

Lemma budget_withBucket s k b n w :
  inBudget rl lo hi k b → budget rl lo hi s k (withBucket s b n w).
Proof. intros Hb. exists b. simpl. by rewrite lookup_insert_eq. Qed.

Lemma inBudget_consume k b :
  inBudget rl lo hi k b →
  inBudget rl lo hi (k - 1)
    {| tokens := (tokens b - 1)%Qc; lastRefill := lastRefill b |}.
Proof.
  intros (Hlr & Hge & Hle). split; [done|]. simpl.
  rewrite Z2Qc_inj_sub, Z2Qc_inj_1.
  set (y := (Qc_of_Z (lastRefill b - lo) * refillRate rl)%Qc) in *.
  clearbody y. revert Hge Hle. generalize (tokens b) (Qc_of_Z k).
  intros t q ? ?. split; qc_lra.
Qed.

Lemma clockWithin_withBucket s b n w :
  clockWithin lo hi w → clockWithin lo hi (withBucket s b n w).
Proof. done. Qed.

(** A transition granted to a site whose bucket holds [k >= 1] tokens
    (up to the refill of the window). *)
Lemma step_granted r p k w :
  wellFormed r → ownName (url r) → clockWithin lo hi w →
  statusStore w !! url r = Some p → status p ≠ status r →
  (Qc_of_Z k ≤ burst rl)%Qc → 1 ≤ k →
  budget rl lo hi (url r) k w →
  ∃ W, handler rl (to_raw r) w = (Ok tt, W) ∧
       terminal W = terminal w ++ [StatusChange (to_raw r) (status p) (k - 1)] ∧
       statusStore W = <[url r := r]> (statusStore w) ∧
       budget rl lo hi (url r) (k - 1) W ∧ clock W = clock w.
Proof.
  intros Hwf Hown Hclk Hp Hst Hk Hk1 Hbud.
  pose proof (refilledBucket_budget _ _ _ Hk Hclk Hbud) as Hin.
  assert (Htok : (1 ≤ tokens (refilledBucket rl (url r) w))%Qc).
  { destruct Hin as (_ & Hge & _). eapply Qcle_trans; [|exact Hge].
    apply (proj1 (Z2Qc_inj_le 1 k)). lia. }
  pose proof (handler_granted rl _ r p w Hwf Hown Hp Hst Htok) as E.
  cbv zeta in E.
  set (w1 := withBucket (url r) _ _ w) in E.
  assert (Hin1 : inBudget rl lo hi (k - 1) (refilledBucket rl (url r) w1)).
  { apply refilledBucket_budget.
    - eapply Qcle_trans; [|exact Hk].
      apply (proj1 (Z2Qc_inj_le (k - 1) k)). lia.
    - by apply clockWithin_withBucket.
    - apply budget_withBucket. by apply inBudget_consume. }
  rewrite (inBudget_floor _ _ Hin1) in E.
  eexists. split; [exact E|]. simpl. split_and!; try done.
  by apply budget_withBucket.
Qed.

(** The first transition of a site: its bucket is created full. *)
Lemma step_granted_fresh r p k w :
  wellFormed r → ownName (url r) → clockWithin lo hi w →
  statusStore w !! url r = Some p → status p ≠ status r →
  burst rl = Qc_of_Z k → 1 ≤ k →
  buckets w !! url r = None →
  ∃ W, handler rl (to_raw r) w = (Ok tt, W) ∧
       terminal W = terminal w ++ [StatusChange (to_raw r) (status p) (k - 1)] ∧
       statusStore W = <[url r := r]> (statusStore w) ∧
       budget rl lo hi (url r) (k - 1) W ∧ clock W = clock w.
Proof.
  intros Hwf Hown Hclk Hp Hst Hk Hk1 Hnone.
  destruct (refilledBucket_none (url r) w Hclk Hnone) as [Ht Hlr].
  assert (Htok : (1 ≤ tokens (refilledBucket rl (url r) w))%Qc).
  { rewrite Ht, Hk. apply (proj1 (Z2Qc_inj_le 1 k)). lia. }
  pose proof (handler_granted rl _ r p w Hwf Hown Hp Hst Htok) as E.
  cbv zeta in E.
  set (w1 := withBucket (url r) _ _ w) in E.
  assert (Hin1 : inBudget rl lo hi (k - 1) (refilledBucket rl (url r) w1)).
  { apply refilledBucket_budget.
    - rewrite Hk. apply (proj1 (Z2Qc_inj_le (k - 1) k)). lia.
    - by apply clockWithin_withBucket.
    - apply budget_withBucket. split; [done|]. simpl.
      rewrite Ht, Hk, Z2Qc_inj_sub, Z2Qc_inj_1.
      pose proof (refill_amount_nonneg lo
                    (lastRefill (refilledBucket rl (url r) w)) ltac:(lia)) as Hy.
      revert Hy.
      match goal with |- (0 ≤ ?y)%Qc → _ => generalize y end.
      generalize (Qc_of_Z k). intros q y Hy. split; qc_lra. }
  rewrite (inBudget_floor _ _ Hin1) in E.
  eexists. split; [exact E|]. simpl. split_and!; try done.
  by apply budget_withBucket.
Qed.

(** A transition of a site whose bucket is spent: suppressed. *)
Lemma step_denied r p w :
  wellFormed r → clockWithin lo hi w →
  statusStore w !! url r = Some p → status p ≠ status r →
  (0 ≤ burst rl)%Qc →
  budget rl lo hi (url r) 0 w →
  ∃ W t, handler rl (to_raw r) w = (Ok tt, W) ∧
         terminal W =
           terminal w ++ [RateLimited (JsString (url r))
                            (JsString (status_name (status r))) (status p) t 0] ∧
         statusStore W = statusStore w ∧
         metricsStore W = metricsStore w ∧
         historyStore W = historyStore w ∧
         budget rl lo hi (url r) 0 W ∧ clock W = clock w.
Proof.
  intros Hwf Hclk Hp Hst Hb Hbud.
  pose proof (wellFormed_url r Hwf) as Hs.
  assert (H0 : (Qc_of_Z 0 ≤ burst rl)%Qc) by (by rewrite Z2Qc_inj_0).
  pose proof (refilledBucket_budget _ _ _ H0 Hclk Hbud) as Hin.
  assert (Htok : ¬ (1 ≤ tokens (refilledBucket rl (url r) w))%Qc).
  { apply Qclt_not_le. pose proof (inBudget_lt _ _ Hin) as Hlt.
    by rewrite Z2Qc_inj_0, Qcplus_0_l in Hlt. }
  assert (Hst' : raw_status (to_raw r) ≠ JsString (status_name (status p))).
  { simpl. intros [= E]. by apply status_name_inj in E. }
  pose proof (handler_denied rl (to_raw r) (url r) p w
                eq_refl Hs Hp Hst' Htok) as E.
  cbv zeta in E.
  set (w1 := withBucket (url r) _ _ w) in E.
  assert (Hin1 : inBudget rl lo hi 0 (refilledBucket rl (url r) w1)).
  { apply refilledBucket_budget; [done|by apply clockWithin_withBucket|].
    by apply budget_withBucket. }
  set (w2 := withBucket (url r) _ _ w1) in E.
  assert (Hin2 : inBudget rl lo hi 0 (refilledBucket rl (url r) w2)).
  { apply refilledBucket_budget; [done|by apply clockWithin_withBucket|].
    by apply budget_withBucket. }
  rewrite (inBudget_floor _ _ Hin2) in E.
  do 2 eexists. split; [exact E|]. simpl. split_and!; try done.
  by apply budget_withBucket.
Qed.

End Window.

Lemma step_first rl r w :
  wellFormed r → ownName (url r) → statusStore w !! url r = None →
  ∃ W, handler rl (to_raw r) w = (Ok tt, W) ∧
       terminal W =
         terminal w ++ [InitialCheck (JsString (url r))
                          (JsString (status_name (status r)))
                          (JsNumber (responseTime r))] ∧
       statusStore W = <[url r := r]> (statusStore w) ∧
       buckets W = buckets w ∧ clock W = clock w.
Proof.
  intros Hwf Hown Hnone. eexists.
  split; [apply (handler_first rl _ r w Hwf Hown Hnone)|]. done.
Qed.

Lemma step_routine rl r p w :
  wellFormed r → ownName (url r) →
  statusStore w !! url r = Some p → status p = status r →
  ∃ W, handler rl (to_raw r) w = (Ok tt, W) ∧
       terminal W = terminal w ++ [StatusUpdate (to_raw r)] ∧
       statusStore W = <[url r := r]> (statusStore w) ∧
       buckets W = buckets w ∧ clock W = clock w.
Proof.
  intros Hwf Hown Hp Hst. eexists.
  split; [apply (handler_routine rl _ r p w Hwf Hown Hp Hst)|]. done.
Qed.

Lemma handleAll_nil rl w : handleAll rl [] w = (Ok tt, w).
Proof. done. Qed.

(** C3, as amended.  A limiter built with [burst = 2]; one site, whose
    url has a scheme, never seen before and without a bucket; six
    well-formed results UP, DOWN, UP, DOWN, UP, DOWN; every clock reading
    inside a window shorter than [windowSec] and so short that less than
    one token is refilled over it.  Then exactly two status-change alerts
    are shown (for the second and third result); the fourth and sixth
    result are transitions against the stored UP record and are
    suppressed, the fifth agrees with it and is a routine update; and the
    stored status stays UP: the record is the third result after the
    fourth, and the fifth at the end. *)
Theorem flapping_site_alerts_twice
    (rl : Config) (ws : Qc) (w : World) (lo hi : Z) (u : string)
    (r1 r2 r3 r4 r5 r6 : StatusResult) :
  createRateLimiter (Qc_of_Z 2) ws = Ok rl →
  hasUrlScheme u = true →
  Forall (λ r, wellFormed r ∧ url r = u) [r1; r2; r3; r4; r5; r6] →
  status <$> [r1; r2; r3; r4; r5; r6] = [UP; DOWN; UP; DOWN; UP; DOWN] →
  statusStore w !! u = None →
  buckets w !! u = None →
  clockWithin lo hi w →
  (Qc_of_Z (hi - lo) < windowSec rl * Qc_of_Z 1000)%Qc →
  (Qc_of_Z (hi - lo) * refillRate rl < 1)%Qc →
  let run := handleAll rl (to_raw <$> [r1; r2; r3; r4; r5; r6]) in
  length (filter isStatusChange (emitted run w)) = 2%nat ∧
  (∃ t4 t6,
     emitted run w =
       [InitialCheck (JsString u) (JsString "UP") (JsNumber (responseTime r1));
        StatusChange (to_raw r2) UP 1;
        StatusChange (to_raw r3) DOWN 0;
        RateLimited (JsString u) (JsString "DOWN") UP t4 0;
        StatusUpdate (to_raw r5);
        RateLimited (JsString u) (JsString "DOWN") UP t6 0]) ∧
  statusStore (after (handleAll rl (to_raw <$> [r1; r2; r3; r4])) w) !! u
    = Some r3 ∧
  statusStore (after run w) !! u = Some r5.
Proof.
  intros Hrl Hscheme Hall Hst Hnone Hbucket Hclk _ Hshort run.
  apply hasUrlScheme_ownName in Hscheme.
  destruct (createRateLimiter_ok _ _ _ Hrl) as (Hburst & _ & _ & Hbpos & _ & Hrate).
  assert (Hb0 : (0 ≤ burst rl)%Qc) by (by apply Qclt_le_weak).
  rewrite !list.Forall_cons in Hall.
  destruct Hall as ([F1 U1] & [F2 U2] & [F3 U3] & [F4 U4] & [F5 U5]
                    & [F6 U6] & _).
  injection Hst as S1 S2 S3 S4 S5 S6. subst u.
  assert (O2 : ownName (url r2)) by (by rewrite U2).
  assert (O3 : ownName (url r3)) by (by rewrite U3).
  assert (O5 : ownName (url r5)) by (by rewrite U5).
  (* first observation *)
  destruct (step_first rl r1 w) as (W1 & E1 & T1 & St1 & B1 & C1); [done..|].
  (* second result: the bucket is created, one token is spent *)
  destruct (step_granted_fresh rl lo hi Hrate Hshort r2 r1 2 W1)
    as (W2 & E2 & T2 & St2 & Bud2 & C2); try done.
  { by apply (clockWithin_eq lo hi w). }
  { by rewrite U2, St1, lookup_insert_eq. }
  { congruence. }
  { by rewrite U2, B1. }
  (* third result: the last token is spent *)
  destruct (step_granted rl lo hi Hrate Hshort r3 r2 1 W2)
    as (W3 & E3 & T3 & St3 & Bud3 & C3); try done.
  { apply (clockWithin_eq lo hi w); [congruence|done]. }
  { by rewrite U3, St2, <- U2, lookup_insert_eq. }
  { congruence. }
  { rewrite Hburst. by apply (proj1 (Z2Qc_inj_le 1 2)). }
  { by rewrite U3, <- U2. }
  (* fourth result: suppressed *)
  destruct (step_denied rl lo hi Hrate Hshort r4 r3 W3)
    as (W4 & t4 & E4 & T4 & St4 & _ & _ & Bud4 & C4); try done.
  { apply (clockWithin_eq lo hi w); [congruence|done]. }
  { by rewrite U4, St3, <- U3, lookup_insert_eq. }
  { congruence. }
  { by rewrite U4, <- U3. }
  (* fifth result: same status as the stored one *)
  destruct (step_routine rl r5 r3 W4) as (W5 & E5 & T5 & St5 & B5 & C5);
    try done.
  { by rewrite U5, St4, St3, <- U3, lookup_insert_eq. }
  { congruence. }
  (* sixth result: suppressed *)
  destruct (step_denied rl lo hi Hrate Hshort r6 r5 W5)
    as (W6 & t6 & E6 & T6 & St6 & _ & _ & Bud6 & C6); try done.
  { apply (clockWithin_eq lo hi w); [congruence|done]. }
  { by rewrite U6, St5, <- U5, lookup_insert_eq. }
  { congruence. }
  { destruct Bud4 as (b & Hb & Hin). exists b. split; [|done].
    by rewrite U6, B5, <- U4. }
  assert (Erun : run w = (Ok tt, W6)).
  { subst run. rewrite !fmap_cons, fmap_nil.
    rewrite (handleAll_cons _ _ _ _ _ E1), (handleAll_cons _ _ _ _ _ E2),
      (handleAll_cons _ _ _ _ _ E3), (handleAll_cons _ _ _ _ _ E4),
      (handleAll_cons _ _ _ _ _ E5), (handleAll_cons _ _ _ _ _ E6).
    apply handleAll_nil. }
  assert (Erun4 : handleAll rl (to_raw <$> [r1; r2; r3; r4]) w = (Ok tt, W4)).
  { rewrite !fmap_cons, fmap_nil.
    rewrite (handleAll_cons _ _ _ _ _ E1), (handleAll_cons _ _ _ _ _ E2),
      (handleAll_cons _ _ _ _ _ E3), (handleAll_cons _ _ _ _ _ E4).
    apply handleAll_nil. }
  assert (Hem : emitted run w =
       [InitialCheck (JsString (url r1)) (JsString "UP") (JsNumber (responseTime r1));
        StatusChange (to_raw r2) UP 1;
        StatusChange (to_raw r3) DOWN 0;
        RateLimited (JsString (url r1)) (JsString "DOWN") UP t4 0;
        StatusUpdate (to_raw r5);
        RateLimited (JsString (url r1)) (JsString "DOWN") UP t6 0]).
  { unfold emitted, after. rewrite Erun. simpl.
    rewrite T6, T5, T4, T3, T2, T1, <- !app_assoc. simpl.
    rewrite drop_app_length.
    by rewrite ?S1, ?S2, ?S3, ?S4, ?S5, ?S6, ?U2, ?U3, ?U4, ?U5, ?U6. }
  split_and!.
  - by rewrite Hem.
  - eauto.
  - unfold after. rewrite Erun4. simpl.
    by rewrite St4, St3, <- U3, lookup_insert_eq.
  - unfold after. rewrite Erun. simpl.
    by rewrite St6, St5, <- U5, lookup_insert_eq.
Qed.

(** ** Further facts *)

Lemma drop_to_cap_app {A} (cap : nat) (X Y : list A) :
  drop (length (drop (length X - cap) X ++ Y) - cap) (drop (length X - cap) X ++ Y)
  = drop (length (X ++ Y) - cap) (X ++ Y).
Proof.
  destruct (decide (length X ≤ cap)%nat) as [Hle|Hgt].
  - replace (length X - cap)%nat with 0%nat by lia. by rewrite drop_0.
  - rewrite <- drop_app_le by lia. rewrite drop_drop. f_equal.
    rewrite length_drop, !length_app. lia.
Qed.

(** The history is always the most recent [cap] entries of everything
    appended so far. *)
Lemma appendAll_history cap rs w :
  0 < cap →
  (length (historyStore w) ≤ Z.to_nat cap)%nat →
  historyStore (after (appendAll cap rs) w) =
    drop (length (historyStore w ++ rs) - Z.to_nat cap) (historyStore w ++ rs).
Proof.
  intros Hcap. revert w. induction rs as [|r rs IH]; intros w Hlen.
  - simpl. unfold after, ret. simpl. rewrite app_nil_r.
    by replace (length (historyStore w) - Z.to_nat cap)%nat with 0%nat by lia.
  - destruct (addToHistoryCapped_frame cap r w) as [Hok _].
    pose proof (addToHistoryCapped_history cap r w Hcap) as Hh.
    unfold outcome, after in Hok, Hh.
    destruct (addToHistoryCapped cap r w) as [res w1] eqn:E.
    simpl in Hok, Hh. subst res.
    simpl appendAll. unfold after in *.
    rewrite (bind_ok _ _ _ _ _ E), IH.
    + rewrite Hh, drop_to_cap_app. by rewrite <- app_assoc.
    + rewrite Hh, length_drop, length_app. simpl. lia.
Qed.

(** The cap of the code, 1000, is global as well: two results of one site
    followed by a thousand results of another leave no history for the
    first. *)
Lemma history_cap_1000_evicts_other_site (a1 a2 b : StatusResult) (w : World) :
  url b ≠ url a1 → url a2 = url a1 →
  let w' := after (appendAll 1000 ([a1; a2] ++ replicate 1000 b))
                  (set_historyStore [] w) in
  historyStore w' = replicate 1000 b ∧
  outcome (getSiteHistory (url a1) 10) w' = Ok [].
Proof.
  intros Hb Ha w'.
  assert (Hh : historyStore w' = replicate 1000 b).
  { subst w'. rewrite appendAll_history by (simpl; lia). simpl historyStore.
    rewrite app_nil_l, length_app, length_replicate.
    by replace (length [a1; a2] + 1000 - Z.to_nat 1000)%nat with 2%nat
      by (simpl; lia). }
  split; [done|]. clearbody w'.
  unfold getSiteHistory, outcome, bind, gets, ret. simpl.
  rewrite Hh. f_equal.
  assert (Hf : filter (λ result, url result = url a1) (replicate 1000 b) = []).
  { generalize 1000%nat. intros n. induction n as [|n IH]; [done|].
    simpl. rewrite filter_cons. by rewrite decide_False. }
  by rewrite Hf.
Qed.

(** Submitted straight to the store, results under names of their own do
    round-trip: the snapshot entry of a site is its last accepted
    result. *)
Lemma updateAll_snapshot os rs w u :
  Forall2 accepted os rs → Forall (λ r, ownName (url r)) rs →
  statusStore (after (updateAll os) w) !! u =
    match list.last (ofSite u rs) with
    | Some r => Some r
    | None => statusStore w !! u
    end.
Proof.
  intros H Hown. revert w.
  induction H as [|o r os rs Ho _ IH]; intros w; [done|].
  apply list.Forall_cons in Hown as [Hr Hown]. specialize (IH Hown).
  simpl. unfold after in *.
  rewrite (bind_ok _ _ _ _ _ (updateLastStatus_accepted o r w Ho Hr)).
  rewrite IH. unfold ofSite. rewrite filter_cons.
  fold (ofSite u rs). case_decide as Hu.
  - rewrite last_cons. destruct (list.last (ofSite u rs)); [done|].
    subst u. simpl. by rewrite lookup_insert_eq.
  - destruct (list.last (ofSite u rs)); [done|].
    simpl. by rewrite lookup_insert_ne.
Qed.

(** C3 fails as stated: with a window below [windowSec] but long enough
    to refill a token, a third alert does fire.  200 s into a 300 s
    window the bucket of a [burst = 2] limiter holds 4/3 of a token
    again, so the fourth result, a transition, is alerted and becomes the
    record. *)
Lemma flapping_site_third_alert_after_refill :
  let rl := sampleLimiter 2 300 in
  let u := "https://a.example" in
  let up := sampleResult u UP 10 in
  let down := sampleResult u DOWN 20 in
  let w := emptyWorld (λ n, if (n <? 5)%nat then 0 else 200000) in
  let run := handleAll rl (to_raw <$> [up; down; up; down; up; down]) in
  createRateLimiter (Qc_of_Z 2) (Qc_of_Z 300) = Ok rl ∧
  clockWithin 0 200000 w ∧
  (Qc_of_Z (200000 - 0) < windowSec rl * Qc_of_Z 1000)%Qc ∧
  length (filter isStatusChange (emitted run w)) = 3%nat ∧
  status <$> statusStore (after (handleAll rl (to_raw <$> [up; down; up])) w) !! u
    = Some UP ∧
  status <$> statusStore (after (handleAll rl (to_raw <$> [up; down; up; down])) w) !! u
    = Some DOWN.
Proof.
  intros rl u up down w run. split_and!.
  - by vm_compute.
  - intros n. simpl. destruct (n <? 5)%nat; lia.
  - by vm_compute.
  - by vm_compute.
  - by vm_compute.
  - by vm_compute.
Qed.

(** Under the name [__proto__] nothing is ever stored: a result that is
    not suppressed is alerted, appended to the history, and missing from
    the snapshot all the same. *)
Lemma proto_result_missing_from_snapshot :
  let rl := sampleLimiter 2 300 in
  let r := sampleResult "__proto__" UP 10 in
  let w := emptyWorld (λ _, 0) in
  let w' := after (handleAll rl [to_raw r]) w in
  wellFormed r ∧
  suppressed rl (to_raw r) w = false ∧
  terminal w' = [StatusChangeFromUndefined (to_raw r) 1] ∧
  historyStore w' = [r] ∧
  outcome getSnapshot w' = Ok ∅.
Proof. intros rl r w w'. split_and!; by vm_compute. Qed.

(** C4 fails as stated: a first result for the url [toString] finds no
    status record, yet the lookup returns the inherited member, so the
    handler takes the change-of-status branch: the clock is read, a
    bucket is created and a token spent, a status-change alert is shown
    instead of the initial-check line, and no metrics entry is
    written. *)
Lemma first_observation_under_inherited_name :
  let rl := sampleLimiter 2 300 in
  let r := sampleResult "toString" UP 10 in
  let w := emptyWorld (λ _, 0) in
  let w' := after (handler rl (to_raw r)) w in
  accepted (to_raw r) r ∧
  statusStore w !! url r = None ∧
  outcome (handler rl (to_raw r)) w = Ok tt ∧
  ticks w = 0%nat ∧ ticks w' = 3%nat ∧
  buckets w = ∅ ∧ is_Some (buckets w' !! "toString") ∧
  outcome (getTokenCount rl (JsString "toString")) w' = Ok 1 ∧
  terminal w' = [StatusChangeFromUndefined (to_raw r) 1] ∧
  statusStore w' !! url r = Some r ∧
  metricsStore w' = ∅.
Proof.
  intros rl r w w'. split_and!; try done; by vm_compute.
Qed.

(** C5 fails as stated: 7 UP and 3 DOWN accepted results for the url
    [toString] leave no metrics entry for it, so no uptime of 70 either;
    what [getSiteMetrics] returns is the inherited member. *)
Lemma uptime_lost_under_inherited_name :
  let u := "toString" in
  let rs := replicate 7 (sampleResult u UP 100)
            ++ replicate 3 (sampleResult u DOWN 5000) in
  let w' := after (updateAll (to_raw <$> rs)) (emptyWorld (λ _, 0)) in
  Forall2 accepted (to_raw <$> rs) rs ∧
  countStatus UP (ofSite u rs) = 7%nat ∧
  countStatus DOWN (ofSite u rs) = 3%nat ∧
  outcome (updateAll (to_raw <$> rs)) (emptyWorld (λ _, 0)) = Ok tt ∧
  length (historyStore w') = 10%nat ∧
  metricsStore w' = ∅ ∧
  outcome (getSiteMetrics (JsString u)) w' = Ok Inherited.
Proof.
  intros u rs w'. split_and!; try (by vm_compute).
  subst rs. simpl. repeat constructor.
Qed.

(** C6 fails as stated: two accepted results for the url [__proto__],
    with response times 100 and 300, are recorded in the history, but no
    metrics entry holds their mean of 200: the metrics object stays
    empty. *)
Lemma mean_lost_under_proto_name :
  let u := "__proto__" in
  let rs := [sampleResult u UP 100; sampleResult u UP 300] in
  let w' := after (updateAll (to_raw <$> rs)) (emptyWorld (λ _, 0)) in
  Forall2 accepted (to_raw <$> rs) rs ∧
  outcome (updateAll (to_raw <$> rs)) (emptyWorld (λ _, 0)) = Ok tt ∧
  arithmeticMean (responseTime <$> ofSite u rs) = Qc_of_Z 200 ∧
  historyStore w' = rs ∧
  metricsStore w' = ∅ ∧
  outcome (getSiteMetrics (JsString u)) w' = Ok Inherited.
Proof.
  intros u rs w'. split_and!; try (by vm_compute).
  - repeat constructor.
  - by apply Qc_is_canon.
Qed.

(** ** The two concrete figures in binary64 *)

(** 7 successes out of 10 checks give exactly 70 in double precision. *)
Lemma uptime_70_in_binary64 :
  Binary64.uptimePercentage 7 10 = 70%float.
Proof. vm_compute. reflexivity. Qed.

(** In double precision the quotient handed to [Math.ceil] after a burst
    of 3 is just below 100000, so the ceiling is 100000 there as well. *)
Lemma wait_100000_in_binary64 :
  let q := Binary64.tokensNeededOverRate (3 - 1 - 1 - 1)
             (Binary64.refillRate 3 300) in
  (99999 <? q)%float = true ∧ (q <=? 100000)%float = true.
Proof. vm_compute. split; reflexivity. Qed.

(** ** Worked instances *)

Lemma sampleResult_wellFormed u s rt :
  u ≠ "" → 0 ≤ rt → wellFormed (sampleResult u s rt).
Proof.
  intros Hu Hrt. apply accepted_inv. simpl. split_and!; try done.
  by apply (proj1 (Z2Qc_inj_le 0 rt)).
Qed.

Lemma suppressed_transition_is_not_persisted_witness :
  let u := "https://a.example" in
  let previous := sampleResult u UP 10 in
  let o := to_raw (sampleResult u DOWN 20) in
  let w := {| statusStore := {[u := previous]}; metricsStore := ∅;
              historyStore := [previous];
              buckets := {[u := {| tokens := 0%Qc; lastRefill := 0 |}]};
              terminal := []; clock := λ _, 0; ticks := 0 |} in
  let w' := after (handler (sampleLimiter 2 300) o) w in
  outcome (handler (sampleLimiter 2 300) o) w = Ok tt ∧
  (∃ timeUntilNextMs tokensRemaining,
     outcome (getTimeUntilNextToken (sampleLimiter 2 300) (raw_url o))
             (after (consume (sampleLimiter 2 300) (raw_url o)) w)
       = Ok timeUntilNextMs ∧
     terminal w' =
       terminal w ++ [RateLimited (raw_url o) (raw_status o) (status previous)
                                  timeUntilNextMs tokensRemaining]) ∧
  statusStore w' = statusStore w ∧
  historyStore w' = historyStore w ∧
  metricsStore w' = metricsStore w ∧
  statusStore w' !! u = Some previous.
Proof.
  intros u previous o w.
  apply (suppressed_transition_is_not_persisted
           (sampleLimiter 2 300) w o u previous).
  - reflexivity.
  - apply lookup_singleton_eq.
  - discriminate.
  - vm_compute. reflexivity.
Defined.

Lemma snapshot_holds_last_result_not_suppressed_witness :
  let rl := sampleLimiter 1 300 in
  let u := "https://a.example" in
  let rs := [sampleResult u UP 10; sampleResult u DOWN 20; sampleResult u UP 30] in
  let w := emptyWorld (λ _, 0) in
  let w' := after (handleAll rl (to_raw <$> rs)) w in
  outcome getSnapshot w' = Ok (statusStore w') ∧
  statusStore w' !! u =
    match list.last (ofSite u (notSuppressed rl rs w)) with
    | Some r => Some r
    | None => statusStore w !! u
    end.
Proof.
  intros rl u rs w.
  apply (snapshot_holds_last_result_not_suppressed rl w rs u).
  - repeat constructor; by apply sampleResult_wellFormed.
  - repeat constructor.
Defined.

Lemma flapping_site_alerts_twice_witness :
  let rl := sampleLimiter 2 300 in
  let u := "https://a.example" in
  let up := sampleResult u UP 10 in
  let down := sampleResult u DOWN 20 in
  let w := emptyWorld (λ n, Z.min (1000 * Z.of_nat n) 20000) in
  let run := handleAll rl (to_raw <$> [up; down; up; down; up; down]) in
  length (filter isStatusChange (emitted run w)) = 2%nat ∧
  (∃ t4 t6,
     emitted run w =
       [InitialCheck (JsString u) (JsString "UP") (JsNumber (responseTime up));
        StatusChange (to_raw down) UP 1;
        StatusChange (to_raw up) DOWN 0;
        RateLimited (JsString u) (JsString "DOWN") UP t4 0;
        StatusUpdate (to_raw up);
        RateLimited (JsString u) (JsString "DOWN") UP t6 0]) ∧
  statusStore (after (handleAll rl (to_raw <$> [up; down; up; down])) w) !! u
    = Some up ∧
  statusStore (after run w) !! u = Some up.
Proof.
  intros rl u up down w.
  apply (flapping_site_alerts_twice rl (Qc_of_Z 300) w 0 20000 u
           up down up down up down).
  - vm_compute. reflexivity.
  - reflexivity.
  - repeat constructor; by apply sampleResult_wellFormed.
  - reflexivity.
  - reflexivity.
  - reflexivity.
  - intros n. simpl. lia.
  - vm_compute. reflexivity.
  - vm_compute. reflexivity.
Defined.

Lemma first_observation_always_persists_witness :
  let rl := sampleLimiter 2 300 in
  let r := sampleResult "https://a.example" DOWN 20 in
  let o := to_raw r in
  let w := emptyWorld (λ _, 0) in
  let w' := after (handler rl o) w in
  let before := default (initialMetrics (url r)) (metricsStore w !! url r) in
  let up := bool_decide (status r = UP) in
  outcome (handler rl o) w = Ok tt ∧
  buckets w' = buckets w ∧ ticks w' = ticks w ∧
  statusStore w' = <[url r := r]> (statusStore w) ∧
  historyStore w' =
    drop (length (historyStore w ++ [r]) - 1000) (historyStore w ++ [r]) ∧
  list.last (historyStore w') = Some r ∧
  (∃ m, metricsStore w' = <[url r := m]> (metricsStore w) ∧
        m_url m = m_url before ∧
        totalChecks m = totalChecks before + 1 ∧
        successfulChecks m
          = successfulChecks before + (if up then 1 else 0) ∧
        consecutiveFailures m
          = (if up then 0 else consecutiveFailures before + 1) ∧
        lastUpTime m = (if up then Some (checkedAt r) else lastUpTime before) ∧
        lastDownTime m
          = (if up then lastDownTime before else Some (checkedAt r)) ∧
        averageResponseTime m
          = ((averageResponseTime before * Qc_of_Z (totalChecks before)
              + responseTime r) / Qc_of_Z (totalChecks before + 1))%Qc ∧
        maxResponseTime m = Js.max (maxResponseTime before) (responseTime r) ∧
        minResponseTime m
          = Js.min_inf (minResponseTime before) (responseTime r) ∧
        uptimePercentage m
          = (Qc_of_Z (successfulChecks m) / Qc_of_Z (totalChecks m)
             * Qc_of_Z 100)%Qc) ∧
  terminal w' =
    terminal w ++ [InitialCheck (raw_url o) (raw_status o) (raw_responseTime o)].
Proof.
  intros rl r o w.
  apply (first_observation_always_persists rl w o r).
  - by apply sampleResult_wellFormed.
  - reflexivity.
  - reflexivity.
Defined.

Lemma sevenUpThreeDown_scheme :
  Forall (λ r, hasUrlScheme (url r) = true) sevenUpThreeDown.
Proof. unfold sevenUpThreeDown. repeat constructor. Qed.

Lemma sevenUpThreeDown_accepted :
  Forall2 accepted (to_raw <$> sevenUpThreeDown) sevenUpThreeDown.
Proof.
  unfold sevenUpThreeDown. simpl.
  repeat constructor; by apply sampleResult_wellFormed.
Qed.

Lemma uptime_percentage_invariant_witness :
  ∃ m, metricsStore (after (updateAll (to_raw <$> sevenUpThreeDown))
                           (emptyWorld (λ _, 0))) !! "https://a.example"
       = Some m ∧
       uptimePercentage m = Qc_of_Z 70.
Proof.
  destruct (uptime_percentage_invariant (emptyWorld (λ _, 0))
              (to_raw <$> sevenUpThreeDown) sevenUpThreeDown
              "https://a.example" sevenUpThreeDown_accepted
              sevenUpThreeDown_scheme eq_refl eq_refl)
    as (_ & _ & _ & H).
  apply H; reflexivity.
Defined.

Lemma streaming_mean_is_arithmetic_mean_witness :
  ∃ m, metricsStore (after (updateAll (to_raw <$> sevenUpThreeDown))
                           (emptyWorld (λ _, 0))) !! "https://a.example"
       = Some m ∧
       averageResponseTime m =
         arithmeticMean (responseTime <$> ofSite "https://a.example" sevenUpThreeDown).
Proof.
  apply (streaming_mean_is_arithmetic_mean (emptyWorld (λ _, 0))
           (to_raw <$> sevenUpThreeDown) sevenUpThreeDown "https://a.example").
  - apply sevenUpThreeDown_accepted.
  - apply sevenUpThreeDown_scheme.
  - reflexivity.
  - discriminate.
Defined.

Lemma time_until_next_token_after_burst_witness :
  let rl := sampleLimiter 3 300 in
  refillRate rl = (Qc_of_Z 3 / Qc_of_Z 300000)%Qc ∧
  (1 / refillRate rl)%Qc = Qc_of_Z 100000 ∧
  outcome (burstThenWait rl (JsString "https://a.example") 3)
          (emptyWorld (λ _, 1757194215000))
  = Ok ([true; true; true], 100000).
Proof.
  intros rl.
  apply (time_until_next_token_after_burst rl
           (emptyWorld (λ _, 1757194215000)) "https://a.example").
  - vm_compute. reflexivity.
  - discriminate.
  - reflexivity.
  - reflexivity.
Defined.

Lemma invalid_shape_is_rejected_before_any_mutation_witness :
  let o := {| raw_url := JsString "https://a.example";
              raw_status := JsString "MAYBE";
              raw_code := JsNull;
              raw_responseTime := JsNumber (Qc_of_Z 10);
              raw_checkedAt := JsString "2025-09-06T21:30:15.000Z";
              raw_error := JsNull |} in
  ∃ e, updateLastStatus (ArgObject o) (emptyWorld (λ _, 0))
       = (Throw e, emptyWorld (λ _, 0)).
Proof.
  intros o.
  apply (invalid_shape_is_rejected_before_any_mutation
           (emptyWorld (λ _, 0)) (ArgObject o)).
  right. left. split; discriminate.
Defined.

Lemma limiter_operations_agree_witness :
  let rl := sampleLimiter 3 300 in
  let key := JsString "https://a.example" in
  let w := emptyWorld (λ n, 1000 * Z.of_nat n) in
  outcome (consume rl key) w = outcome (isAllowed rl key) w ∧
  (outcome (getTimeUntilNextToken rl key) w = Ok 0 ↔
   outcome (isAllowed rl key) w = Ok true) ∧
  (outcome (consume rl key) w = Ok false →
   after (consume rl key) w = after (isAllowed rl key) w) ∧
  (bucketsOk rl (buckets w) →
   bucketsOk rl (buckets (after (isAllowed rl key) w)) ∧
   bucketsOk rl (buckets (after (consume rl key) w)) ∧
   bucketsOk rl (buckets (after (getTokenCount rl key) w)) ∧
   bucketsOk rl (buckets (after (getTimeUntilNextToken rl key) w))).
Proof.
  intros rl key w.
  apply (limiter_operations_agree (Qc_of_Z 3) (Qc_of_Z 300) rl key w).
  vm_compute. reflexivity.
Defined.

(** * Further properties of the code *)

(** ** The rate limiter *)

(** X1. A limiter operation on one key leaves the bucket of every other
    site, the three stores and the terminal as they were. *)
Theorem limiter_sites_are_independent
    (rl : Config) (key : JsValue) (other : string) (w : World) :
  key ≠ JsString other →
  ∀ w', w' ∈ [after (isAllowed rl key) w; after (consume rl key) w;
              after (getTokenCount rl key) w;
              after (getTimeUntilNextToken rl key) w] →
  buckets w' !! other = buckets w !! other ∧
  statusStore w' = statusStore w ∧ metricsStore w' = metricsStore w ∧
  historyStore w' = historyStore w ∧ terminal w' = terminal w.
Proof.
  intros Hne w' Hw'.
  destruct (key_cases key) as [(s & -> & Hs)|Hbad].
  - assert (Hso : s ≠ other) by congruence.
    unfold after in Hw'.
    rewrite consume_string, isAllowed_string, getTokenCount_string,
      getTimeUntilNextToken_string in Hw' by done.
    cbv zeta in Hw'.
    destruct (bool_decide (1 ≤ tokens (refilledBucket rl s w))%Qc);
      cbn [snd] in Hw'; set_unfold; destruct_or!; try done;
      subst w'; simpl; by rewrite lookup_insert_ne.
  - unfold after, consume, isAllowed, getTokenCount, getTimeUntilNextToken in Hw'.
    rewrite !(bind_throw _ _ _ _ _ (refilled_invalid rl key w Hbad)) in Hw'.
    cbn [snd] in Hw'. set_unfold. by destruct_or!; subst w'.
Qed.

Lemma limiter_sites_are_independent_witness :
  let rl := sampleLimiter 2 300 in
  let w := {| statusStore := ∅; metricsStore := ∅; historyStore := [];
              buckets := {["https://b.example" :=
                             {| tokens := 0%Qc; lastRefill := 0 |}]};
              terminal := []; clock := λ _, 5; ticks := 0 |} in
  let w' := after (consume rl (JsString "https://a.example")) w in
  buckets w' !! "https://b.example" = buckets w !! "https://b.example" ∧
  statusStore w' = statusStore w ∧ metricsStore w' = metricsStore w ∧
  historyStore w' = historyStore w ∧ terminal w' = terminal w.
Proof.
  intros rl w w'.
  apply (limiter_sites_are_independent rl (JsString "https://a.example")
           "https://b.example" w).
  - discriminate.
  - set_solver.
Defined.

Lemma Qfloor_unique (q : Q) (z : Z) :
  (inject_Z z <= q)%Q → (q < inject_Z (z + 1))%Q → Qfloor q = z.
Proof.
  intros Hlo Hhi.
  assert (H1 : z ≤ Qfloor q).
  { rewrite <- (Qfloor_Z z). by apply Qfloor_resp_le. }
  assert (H2 : Qfloor q < z + 1).
  { rewrite Zlt_Qlt. eapply Qle_lt_trans; [apply Qfloor_le|done]. }
  lia.
Qed.

Lemma floor_pred (tk : Qc) : Js.floor (tk - 1)%Qc = Js.floor tk - 1.
Proof.
  unfold Js.floor. apply Qfloor_unique.
  - pose proof (Qfloor_le tk) as H. unfold Qcminus, Qcopp, Qcplus. simpl.
    rewrite !Qred_correct. unfold Z.sub.
    rewrite inject_Z_plus, inject_Z_opp.
    change (inject_Z 1) with 1%Q. lra.
  - pose proof (Qlt_floor tk) as H. unfold Qcminus, Qcopp, Qcplus. simpl.
    rewrite !Qred_correct. unfold Z.sub.
    rewrite !inject_Z_plus, inject_Z_opp in *.
    change (inject_Z 1) with 1%Q in *. lra.
Qed.

Lemma floor_small (tk : Qc) : (0 ≤ tk)%Qc → ¬ (1 ≤ tk)%Qc → Js.floor tk = 0.
Proof.
  intros H0 H1. apply Qfloor_unique; [exact H0|].
  apply Qcnot_le_lt in H1. exact H1.
Qed.

Lemma floor_one_le (tk : Qc) : (1 ≤ tk)%Qc → 1 ≤ Js.floor tk.
Proof.
  intros H. change 1 with (Qfloor (inject_Z 1)). by apply Qfloor_resp_le.
Qed.

Lemma outcome_bind_ok {A B} (m : M A) (k : A → M B) w a w' :
  m w = (Ok a, w') → outcome (bind m k) w = outcome (k a) w'.
Proof. intros H. unfold outcome. by rewrite (bind_ok _ _ _ _ _ H). Qed.

Lemma consumeTimes_still rl s t0 n :
  s ≠ "" →
  ∀ w tk,
    (∀ k, clock w k = t0) →
    refilledBucket rl s w = {| tokens := tk; lastRefill := t0 |} →
    (0 ≤ tk)%Qc →
    outcome (consumeTimes rl (JsString s) n) w
      = Ok (replicate (n `min` Z.to_nat (Js.floor tk)) true
            ++ replicate (n - Z.to_nat (Js.floor tk)) false).
Proof.
  intros Hs. induction n as [|n IH]; intros w tk Hclk Hb Htk; [done|].
  cbn [consumeTimes].
  pose proof (consume_string rl s w Hs) as Hc. cbv zeta in Hc. rewrite Hb in Hc.
  cbn [tokens lastRefill] in Hc.
  case_bool_decide as Hone.
  - rewrite (outcome_bind_ok _ _ _ _ _ Hc).
    set (w1 := withBucket s _ _ w) in *.
    assert (Hat : atInstant t0 s (tk - 1)%Qc w1) by by apply atInstant_withBucket.
    assert (H0 : (0 ≤ tk - 1)%Qc) by (clear -Hone; qc_lra).
    specialize (IH w1 (tk - 1)%Qc (proj1 Hat)
                  (refilledBucket_atInstant rl s w1 t0 _ Hat) H0).
    unfold outcome in *. unfold bind at 1.
    destruct (consumeTimes rl (JsString s) n w1) as [[l|e] w2]; [|done].
    simpl in IH. injection IH as ->. simpl.
    rewrite floor_pred. pose proof (floor_one_le tk Hone).
    replace (Z.to_nat (Js.floor tk)) with (S (Z.to_nat (Js.floor tk - 1))) by lia.
    done.
  - rewrite (outcome_bind_ok _ _ _ _ _ Hc).
    set (w1 := withBucket s _ _ w) in *.
    assert (Hat : atInstant t0 s tk w1) by by apply atInstant_withBucket.
    specialize (IH w1 tk (proj1 Hat)
                  (refilledBucket_atInstant rl s w1 t0 _ Hat) Htk).
    unfold outcome in *. unfold bind at 1.
    destruct (consumeTimes rl (JsString s) n w1) as [[l|e] w2]; [|done].
    simpl in IH. injection IH as ->. simpl.
    rewrite (floor_small tk Htk Hone). simpl. by rewrite Nat.min_0_r, Nat.sub_0_r.
Qed.

(** X2. With the clock standing still, [n] calls of [consume] in a row
    for a site the limiter has not seen are granted exactly for the first
    [Math.floor(burst)] of them and denied from then on. *)
Theorem burst_at_one_instant
    (b ws : Qc) (rl : Config) (s : string) (t0 : Z) (n : nat) (w : World) :
  createRateLimiter b ws = Ok rl →
  s ≠ "" →
  (∀ k, clock w k = t0) →
  buckets w !! s = None →
  outcome (consumeTimes rl (JsString s) n) w
    = Ok (replicate (n `min` Z.to_nat (Js.floor b)) true
          ++ replicate (n - Z.to_nat (Js.floor b)) false).
Proof.
  intros Hrl Hs Hclk Hnone.
  destruct (createRateLimiter_ok b ws rl Hrl) as (<- & _ & _ & Hb & _).
  apply (consumeTimes_still rl s t0); [done..| |by apply Qclt_le_weak].
  by apply refilledBucket_fresh.
Qed.

Lemma burst_at_one_instant_witness :
  outcome (consumeTimes (sampleLimiter 2 300) (JsString "https://a.example") 5)
          (emptyWorld (λ _, 1000))
    = Ok ([true; true] ++ [false; false; false]).
Proof.
  apply (burst_at_one_instant (Qc_of_Z 2) (Qc_of_Z 300) (sampleLimiter 2 300)
           "https://a.example" 1000 5 (emptyWorld (λ _, 1000))); done.
Defined.

(** X3. What a refill does to a bucket holding between 0 and [burst]
    tokens: it never lowers the token count and never exceeds [burst];
    a clock that did not advance leaves the bucket as it is, one that
    did stamps the bucket with the new time. *)
Theorem refill_is_monotone_and_capped
    (b ws : Qc) (rl : Config) (now : Z) (bucket : TokenBucket) :
  createRateLimiter b ws = Ok rl →
  (0 ≤ tokens bucket)%Qc → (tokens bucket ≤ burst rl)%Qc →
  (tokens bucket ≤ tokens (refillAt rl now bucket))%Qc ∧
  (tokens (refillAt rl now bucket) ≤ burst rl)%Qc ∧
  (now ≤ lastRefill bucket → refillAt rl now bucket = bucket) ∧
  (lastRefill bucket < now →
   lastRefill (refillAt rl now bucket) = now).
Proof.
  intros Hrl H0 H1.
  destruct (createRateLimiter_ok b ws rl Hrl) as (Eb & Ew & Hrate & Hb & Hws & Hr).
  rewrite <- Eb, <- Ew in Hrate. clear Eb Ew.
  unfold refillAt. split_and!.
  - destruct (0 <? now - lastRefill bucket) eqn:E; simpl; [|apply Qcle_refl].
    apply Z.ltb_lt in E. apply Js_min_glb; [done|].
    assert (0 ≤ Qc_of_Z (now - lastRefill bucket) * refillRate rl)%Qc.
    { apply Qcmult_nonneg_nonneg; [|by apply Qclt_le_weak].
      apply (proj1 (Z2Qc_inj_le 0 (now - lastRefill bucket))). lia. }
    generalize dependent (Qc_of_Z (now - lastRefill bucket) * refillRate rl)%Qc.
    intros. clear -H. qc_lra.
  - destruct (0 <? now - lastRefill bucket) eqn:E; simpl; [|done].
    apply Js_min_le_l.
  - intros Hle. destruct (0 <? now - lastRefill bucket) eqn:E; [|done].
    apply Z.ltb_lt in E. lia.
  - intros Hlt. destruct (0 <? now - lastRefill bucket) eqn:E; [done|].
    apply Z.ltb_ge in E. lia.
Qed.

Lemma refill_is_monotone_and_capped_witness :
  let rl := sampleLimiter 3 300 in
  let bucket := {| tokens := 0%Qc; lastRefill := 1000 |} in
  (tokens bucket ≤ tokens (refillAt rl 301000 bucket))%Qc ∧
  (tokens (refillAt rl 301000 bucket) ≤ burst rl)%Qc ∧
  (301000 ≤ lastRefill bucket → refillAt rl 301000 bucket = bucket) ∧
  (lastRefill bucket < 301000 →
   lastRefill (refillAt rl 301000 bucket) = 301000).
Proof.
  intros rl bucket.
  apply (refill_is_monotone_and_capped (Qc_of_Z 3) (Qc_of_Z 300) rl 301000 bucket).
  - reflexivity.
  - by vm_compute.
  - by vm_compute.
Defined.

Lemma refill_amount_nonneg_any rl (d : Z) :
  (0 < refillRate rl)%Qc → 0 ≤ d → (0 ≤ Qc_of_Z d * refillRate rl)%Qc.
Proof.
  intros Hr Hd. apply Qcmult_nonneg_nonneg; [|by apply Qclt_le_weak].
  by apply (proj1 (Z2Qc_inj_le 0 d)).
Qed.

(** The first use of a site finds a full bucket, whatever the clock
    does between the two readings taken. *)
Lemma refilledBucket_new_site rl s w :
  (0 < refillRate rl)%Qc → buckets w !! s = None →
  tokens (refilledBucket rl s w) = burst rl.
Proof.
  intros Hr Hnone. unfold refilledBucket, bucketBefore, refillAt.
  rewrite Hnone. cbn [default tokens lastRefill].
  match goal with |- context [0 <? ?d] => destruct (0 <? d) eqn:E; [|done] end.
  apply Z.ltb_lt in E. cbn [tokens]. unfold Js.min.
  case_bool_decide as H; [done|]. exfalso. apply H.
  match type of E with 0 < ?d =>
    pose proof (refill_amount_nonneg_any rl d Hr ltac:(lia)) as Hn;
    generalize dependent (Qc_of_Z d * refillRate rl)%Qc end.
  intros. clear -Hn. qc_lra.
Qed.


(** X5. The first request for a site the limiter has not seen finds a
    full bucket whatever the clock reads: [getTokenCount] is
    [Math.floor(burst)], [isAllowed] and [consume] answer true exactly
    when [burst] is at least 1, and [getTimeUntilNextToken] is 0 in that
    case. *)
Theorem new_site_starts_with_full_bucket
    (b ws : Qc) (rl : Config) (s : string) (w : World) :
  createRateLimiter b ws = Ok rl →
  s ≠ "" →
  buckets w !! s = None →
  outcome (getTokenCount rl (JsString s)) w = Ok (Js.floor b) ∧
  outcome (isAllowed rl (JsString s)) w = Ok (bool_decide (1 ≤ b)%Qc) ∧
  outcome (consume rl (JsString s)) w = Ok (bool_decide (1 ≤ b)%Qc) ∧
  ((1 ≤ b)%Qc → outcome (getTimeUntilNextToken rl (JsString s)) w = Ok 0).
Proof.
  intros Hrl Hs Hnone.
  destruct (createRateLimiter_ok b ws rl Hrl) as (Eb & _ & _ & _ & _ & Hr).
  pose proof (refilledBucket_new_site rl s w Hr Hnone) as Hfull.
  rewrite Eb in Hfull. unfold outcome.
  rewrite getTokenCount_string, isAllowed_string, consume_string,
    getTimeUntilNextToken_string by done.
  cbv zeta. rewrite Hfull. split_and!; try done.
  - by case_bool_decide.
  - intros Hone. by rewrite bool_decide_eq_true_2.
Qed.

Lemma new_site_starts_with_full_bucket_witness :
  let rl := sampleLimiter 3 300 in
  let s := "https://a.example" in
  let w := emptyWorld (λ n, Z.of_nat n * 1000) in
  outcome (getTokenCount rl (JsString s)) w = Ok (Js.floor (Qc_of_Z 3)) ∧
  outcome (isAllowed rl (JsString s)) w
    = Ok (bool_decide (1 ≤ Qc_of_Z 3)%Qc) ∧
  outcome (consume rl (JsString s)) w = Ok (bool_decide (1 ≤ Qc_of_Z 3)%Qc) ∧
  ((1 ≤ Qc_of_Z 3)%Qc →
   outcome (getTimeUntilNextToken rl (JsString s)) w = Ok 0).
Proof.
  intros rl s w.
  apply (new_site_starts_with_full_bucket (Qc_of_Z 3) (Qc_of_Z 300) rl s w);
    done.
Defined.

(** X6. A limiter whose [burst] is below 1 never grants anything:
    [isAllowed] and [consume] answer false for every site and
    [getTimeUntilNextToken] announces a positive wait, however long the
    limiter has been idle. *)
Theorem burst_below_one_never_grants
    (b ws : Qc) (rl : Config) (s : string) (w : World) :
  createRateLimiter b ws = Ok rl →
  (b < 1)%Qc →
  s ≠ "" →
  bucketsOk rl (buckets w) →
  outcome (isAllowed rl (JsString s)) w = Ok false ∧
  outcome (consume rl (JsString s)) w = Ok false ∧
  ∃ wait, outcome (getTimeUntilNextToken rl (JsString s)) w = Ok wait ∧
          0 < wait.
Proof.
  intros Hrl Hlt Hs Hok.
  destruct (createRateLimiter_ok b ws rl Hrl) as (Eb & _ & _ & Hb & _ & Hr).
  destruct (refilledBucket_range rl s w Hr (Qclt_le_weak _ _ Hb) Hok)
    as [_ Hhi].
  rewrite Eb in Hhi.
  assert (Hno : ¬ (1 ≤ tokens (refilledBucket rl s w))%Qc).
  { apply Qclt_not_le. eapply Qcle_lt_trans; [exact Hhi|exact Hlt]. }
  unfold outcome.
  rewrite isAllowed_string, consume_string, getTimeUntilNextToken_string
    by done.
  cbv zeta. rewrite !bool_decide_eq_false_2 by done.
  split_and!; [done..|]. eexists. split; [done|].
  apply Qceiling_pos. unfold Qcdiv.
  apply Qcmult_pos_pos; [|by apply Qcinv_pos].
  apply Qcnot_le_lt in Hno. clear -Hno.
  generalize dependent (tokens (refilledBucket rl s w)). intros. qc_lra.
Qed.

Lemma burst_below_one_never_grants_witness :
  let rl := {| burst := Q2Qc (1 # 2); windowSec := Qc_of_Z 1;
               refillRate := (Q2Qc (1 # 2) / (Qc_of_Z 1 * Qc_of_Z 1000))%Qc |} in
  let s := "https://a.example" in
  let w := emptyWorld (λ n, Z.of_nat n * 1000000) in
  outcome (isAllowed rl (JsString s)) w = Ok false ∧
  outcome (consume rl (JsString s)) w = Ok false ∧
  ∃ wait, outcome (getTimeUntilNextToken rl (JsString s)) w = Ok wait ∧
          0 < wait.
Proof.
  intros rl s w.
  apply (burst_below_one_never_grants (Q2Qc (1 # 2)) (Qc_of_Z 1) rl s w).
  - reflexivity.
  - by vm_compute.
  - discriminate.
  - intros k bk Hk. discriminate Hk.
Defined.

(** X7. [reset] forgets every bucket and nothing else, so the next
    request for any site is a first use again: its bucket is full whatever
    it held before. *)
Theorem reset_refills_every_site
    (b ws : Qc) (rl : Config) (s : string) (w : World) :
  createRateLimiter b ws = Ok rl →
  s ≠ "" →
  let w' := after reset w in
  outcome reset w = Ok tt ∧
  buckets w' = ∅ ∧
  statusStore w' = statusStore w ∧ metricsStore w' = metricsStore w ∧
  historyStore w' = historyStore w ∧ terminal w' = terminal w ∧
  ticks w' = ticks w ∧
  outcome (getTokenCount rl (JsString s)) w' = Ok (Js.floor b) ∧
  outcome (consume rl (JsString s)) w' = Ok (bool_decide (1 ≤ b)%Qc).
Proof.
  intros Hrl Hs w'.
  destruct (createRateLimiter_ok b ws rl Hrl) as (Eb & _ & _ & _ & _ & Hr).
  assert (Hnone : buckets w' !! s = None) by done.
  pose proof (refilledBucket_new_site rl s w' Hr Hnone) as Hfull.
  rewrite Eb in Hfull.
  split_and!; try done; unfold outcome.
  - rewrite getTokenCount_string by done. cbn [fst]. by rewrite Hfull.
  - rewrite consume_string by done. cbv zeta. rewrite Hfull.
    by case_bool_decide.
Qed.

Lemma reset_refills_every_site_witness :
  let rl := sampleLimiter 3 300 in
  let s := "https://a.example" in
  let w := {| statusStore := ∅; metricsStore := ∅; historyStore := [];
              buckets := {[s := {| tokens := 0%Qc; lastRefill := 0 |}]};
              terminal := []; clock := λ _, 0; ticks := 0 |} in
  outcome (consume rl (JsString s)) w = Ok false ∧
  outcome (consume rl (JsString s)) (after reset w) = Ok true.
Proof.
  intros rl s w. split; [by vm_compute|].
  apply (reset_refills_every_site (Qc_of_Z 3) (Qc_of_Z 300) rl s w).
  - reflexivity.
  - discriminate.
Defined.

(** X8. A key that is not a non-empty string makes each of the four
    operations throw the same error before any bucket is created or the
    clock is read: the world is left exactly as it was. *)
Theorem limiter_rejects_invalid_key
    (rl : Config) (key : JsValue) (w : World) :
  (∀ s, key = JsString s → s = "") →
  isAllowed rl key w = (Throw "siteUrl must be a valid string", w) ∧
  consume rl key w = (Throw "siteUrl must be a valid string", w) ∧
  getTokenCount rl key w = (Throw "siteUrl must be a valid string", w) ∧
  getTimeUntilNextToken rl key w
    = (Throw "siteUrl must be a valid string", w).
Proof.
  intros Hbad. unfold isAllowed, consume, getTokenCount, getTimeUntilNextToken.
  by rewrite !(bind_throw _ _ _ _ _ (refilled_invalid rl key w Hbad)).
Qed.

Lemma limiter_rejects_invalid_key_witness :
  let rl := sampleLimiter 3 300 in
  let w := emptyWorld (λ _, 0) in
  isAllowed rl JsUndefined w = (Throw "siteUrl must be a valid string", w) ∧
  consume rl JsUndefined w = (Throw "siteUrl must be a valid string", w) ∧
  getTokenCount rl JsUndefined w
    = (Throw "siteUrl must be a valid string", w) ∧
  getTimeUntilNextToken rl JsUndefined w
    = (Throw "siteUrl must be a valid string", w).
Proof.
  intros rl w. apply (limiter_rejects_invalid_key rl JsUndefined w).
  intros s Hs. discriminate.
Defined.

(** ** The store *)

Lemma rev_slice_last {A} (k : nat) (l : list A) :
  rev (drop (length l - k) l) = take k (rev l).
Proof. symmetry. rewrite <- (firstn_rev k l). done. Qed.

(** X9. [getSiteHistory] returns the entries of the site only, newest
    first: for a positive [limit] the [limit] most recent ones; for
    [limit = 0], since [slice(-0)] is [slice(0)], all of them rather than
    none; for a negative [limit] all but the oldest [-limit].  It reads
    the history and changes nothing. *)
Theorem site_history_is_newest_first (u : string) (limit : Z) (w : World) :
  let site := ofSite u (historyStore w) in
  after (getSiteHistory u limit) w = w ∧
  ∃ entries,
    outcome (getSiteHistory u limit) w = Ok entries ∧
    Forall (λ r, url r = u) entries ∧
    (0 < limit → entries = take (Z.to_nat limit) (rev site)) ∧
    (limit = 0 → entries = rev site) ∧
    (limit < 0 → entries = rev (drop (Z.to_nat (- limit)) site)).
Proof.
  intros site. split; [by destruct w|].
  eexists. split; [reflexivity|]. fold (ofSite u (historyStore w)). fold site.
  split_and!.
  - apply list.Forall_forall. intros r Hr.
    apply list_elem_of_In, in_rev, list_elem_of_In in Hr.
    assert (Hin : r ∈ site).
    { unfold Js.slice in Hr. cbv zeta in Hr.
      match type of Hr with _ ∈ drop ?k _ =>
        rewrite <- (take_drop k site) end.
      apply elem_of_app. by right. }
    unfold site, ofSite in Hin. by apply list_elem_of_filter in Hin as [? _].
  - intros Hpos. rewrite <- rev_slice_last. unfold Js.slice. do 2 f_equal.
    destruct (- limit <? 0) eqn:E; [lia|apply Z.ltb_ge in E; lia].
  - intros ->. unfold Js.slice. simpl. by rewrite Z.min_l by lia.
  - intros Hneg. unfold Js.slice.
    destruct (- limit <? 0) eqn:E; [apply Z.ltb_lt in E; lia|].
    f_equal.
    destruct (decide (- limit ≤ Z.of_nat (length site))).
    + by rewrite Z.min_l by lia.
    + rewrite Z.min_r by lia. rewrite Nat2Z.id.
      by rewrite !drop_ge by lia.
Qed.

Lemma site_history_is_newest_first_witness :
  let a := "https://a.example" in
  let w := after (updateAll (to_raw <$> sevenUpThreeDown)) (emptyWorld (λ _, 0)) in
  outcome (getSiteHistory a 2) w
    = Ok [sampleResult a UP 130; sampleResult a UP 100] ∧
  outcome (getSiteHistory a 0) w = Ok (rev (ofSite a (historyStore w))).
Proof.
  intros a w.
  destruct (site_history_is_newest_first a 2 w) as (_ & l & -> & _ & H & _).
  destruct (site_history_is_newest_first a 0 w) as (_ & l0 & -> & _ & _ & H0 & _).
  rewrite (H ltac:(lia)), (H0 eq_refl). split; [by vm_compute|done].
Defined.

Lemma getSiteMetrics_string s w :
  s ≠ "" →
  getSiteMetrics (JsString s) w = (Ok (getProperty (metricsStore w) s), w).
Proof.
  intros Hs. unfold getSiteMetrics. simpl.
  destruct s; [done|]. by destruct w.
Qed.

Lemma slice_last_snoc {A} (limit : Z) (l : list A) (x : A) :
  0 < limit → ∃ l', Js.slice (- limit) (l ++ [x]) = l' ++ [x].
Proof.
  intros Hpos. unfold Js.slice.
  destruct (- limit <? 0) eqn:E; [|apply Z.ltb_ge in E; lia].
  rewrite length_app. simpl.
  eexists. apply drop_app_le. lia.
Qed.

(** X10. An accepted result whose url has a scheme can be read back
    through every getter: [getPreviousStatus] returns it, [getSiteMetrics] returns an entry with
    one more check than before, and [getSiteHistory] lists it first; the
    record and the metrics of every other site, the limiter and the
    terminal are untouched. *)
Theorem accepted_result_is_read_back
    (o : RawResult) (r : StatusResult) (w : World) :
  accepted o r →
  hasUrlScheme (url r) = true →
  let w' := after (updateLastStatus (ArgObject o)) w in
  let before := default (initialMetrics (url r)) (metricsStore w !! url r) in
  outcome (updateLastStatus (ArgObject o)) w = Ok tt ∧
  outcome (getPreviousStatus (raw_url o)) w' = Ok (Own r) ∧
  (∃ m, outcome (getSiteMetrics (raw_url o)) w' = Ok (Own m) ∧
        totalChecks m = totalChecks before + 1 ∧
        m_url m = m_url before) ∧
  (∀ limit, 0 < limit →
     ∃ older, outcome (getSiteHistory (url r) limit) w' = Ok (r :: older)) ∧
  (∀ other, other ≠ "" → other ≠ url r →
     outcome (getPreviousStatus (JsString other)) w'
       = outcome (getPreviousStatus (JsString other)) w ∧
     outcome (getSiteMetrics (JsString other)) w'
       = outcome (getSiteMetrics (JsString other)) w) ∧
  buckets w' = buckets w ∧ terminal w' = terminal w ∧ ticks w' = ticks w.
Proof.
  intros Hacc Hscheme w' before.
  destruct (accepted_url o r Hacc) as [Hu Hne].
  unfold w', after, outcome.
  rewrite (updateLastStatus_accepted o r w Hacc (hasUrlScheme_ownName _ Hscheme)).
  cbn [fst snd].
  rewrite Hu, getPreviousStatus_string, getSiteMetrics_string by done.
  cbn [fst snd]. split_and!; try done.
  - simpl. by rewrite getProperty_insert_eq.
  - eexists. split; [simpl; by rewrite getProperty_insert_eq|]. done.
  - intros limit Hpos. unfold getSiteHistory. run_monad.
    set (h := historyStore w ++ [r]).
    assert (Hh : ∃ k, (if 1000 <? Z.of_nat (length h) then Js.slice (-1000) h
                       else h) = drop k (historyStore w) ++ [r]).
    { destruct (1000 <? Z.of_nat (length h)).
      - destruct (slice_last_snoc 1000 (historyStore w) r ltac:(lia))
          as [l' Hl'].
        unfold h. unfold Js.slice in *. cbv zeta in *.
        match goal with |- context [drop ?k (historyStore w ++ [r])] =>
          exists k; apply drop_app_le end.
        rewrite length_app. simpl.
        destruct (-1000 <? 0) eqn:E; [|done]. lia.
      - exists 0%nat. by rewrite drop_0. }
    destruct Hh as [k ->].
    rewrite list.filter_app, filter_cons_True, filter_nil by done.
    destruct (slice_last_snoc limit
                (filter (λ result, url result = url r) (drop k (historyStore w)))
                r Hpos) as [l' ->].
    rewrite rev_app_distr. simpl. eauto.
  - intros other Hother Hneq.
    rewrite !getPreviousStatus_string, !getSiteMetrics_string by done.
    simpl. by rewrite !getProperty_insert_ne.
Qed.

Lemma accepted_result_is_read_back_witness :
  let r := sampleResult "https://a.example" DOWN 5000 in
  let w := after (updateAll (to_raw <$> sevenUpThreeDown)) (emptyWorld (λ _, 0)) in
  let w' := after (updateLastStatus (ArgObject (to_raw r))) w in
  outcome (getPreviousStatus (JsString "https://a.example")) w' = Ok (Own r) ∧
  ∃ older, outcome (getSiteHistory "https://a.example" 3) w' = Ok (r :: older).
Proof.
  intros r w w'.
  destruct (accepted_result_is_read_back (to_raw r) r w)
    as (_ & Hp & _ & Hh & _); [reflexivity..|].
  split; [exact Hp|]. apply Hh. lia.
Defined.

Lemma metricsAfter_snoc u rs r :
  url r = u →
  metricsAfter None u (rs ++ [r])
  = Some (recordCheck (default (initialMetrics u) (metricsAfter None u rs)) r).
Proof.
  intros Hu. rewrite metricsAfter_app. simpl.
  by rewrite bool_decide_eq_true_2.
Qed.

Lemma status_cases (s : Status) : s = UP ∨ s = DOWN.
Proof. destruct s; auto. Qed.

(** The streak and the two timestamps the metrics keep, for the results
    of one site from a fresh entry. *)
Lemma metricsAfter_streak u rs :
  Forall (λ r, url r = u) rs →
  let m := default (initialMetrics u) (metricsAfter None u rs) in
  m_url m = u ∧
  consecutiveFailures m = Z.of_nat (trailingRun DOWN rs) ∧
  lastUpTime m = lastTime UP rs ∧
  lastDownTime m = lastTime DOWN rs.
Proof.
  induction rs as [|r rs IH] using rev_ind; intros Hall; [done|].
  apply Forall_app in Hall as [Hrs Hr]. rewrite Forall_singleton in Hr.
  specialize (IH Hrs). cbv zeta in IH. destruct IH as (I0 & I1 & I2 & I3).
  rewrite (metricsAfter_snoc u rs r Hr). cbn [default].
  unfold trailingRun, lastTime in *. rewrite rev_app_distr.
  rewrite !list.filter_app. cbn [rev app leadingRun].
  destruct (status r) eqn:Es.
  - rewrite (filter_cons_True (λ r, status r = UP)),
      (filter_cons_False (λ r, status r = DOWN)), !filter_nil
      by (rewrite ?Es; done).
    rewrite app_nil_r, last_snoc. unfold recordCheck. rewrite Es.
    rewrite (bool_decide_eq_true_2 (UP = UP)) by done.
    rewrite (bool_decide_eq_false_2 (UP = DOWN)) by done.
    cbn. split_and!; done.
  - rewrite (filter_cons_True (λ r, status r = DOWN)),
      (filter_cons_False (λ r, status r = UP)), !filter_nil
      by (rewrite ?Es; done).
    rewrite app_nil_r, last_snoc. unfold recordCheck. rewrite Es.
    rewrite (bool_decide_eq_false_2 (DOWN = UP)) by done.
    rewrite (bool_decide_eq_true_2 (DOWN = DOWN)) by done.
    cbn. split_and!; try done. lia.
Qed.

(** A site with an accepted result has a non-empty url, and every
    accepted result a non-negative response time. *)
Lemma accepted_site_url os rs u :
  Forall2 accepted os rs → ofSite u rs ≠ [] → u ≠ "".
Proof.
  intros Hacc Hsite.
  destruct (ofSite u rs) as [|r l] eqn:E; [done|].
  assert (Hin : r ∈ ofSite u rs) by (rewrite E; left).
  apply list_elem_of_filter in Hin as [Hur Hin].
  apply (list_elem_of_lookup_1 rs r) in Hin as [i Hi].
  destruct (Forall2_lookup_r _ _ _ _ _ Hacc Hi) as (o & _ & Ho).
  destruct (accepted_url o r Ho) as [_ ?]. congruence.
Qed.

Lemma accepted_responseTime os rs :
  Forall2 accepted os rs → Forall (λ r, (0 ≤ responseTime r)%Qc) rs.
Proof.
  induction 1 as [|o r os rs Ho _ IH]; constructor; [|done].
  apply accepted_inv in Ho. tauto.
Qed.

(** X11. For a site the metrics did not know, after any run of accepted
    results whose urls have a scheme (of any sites, interleaved):
    [consecutiveFailures] is the
    length of the run of DOWN results the site's results end with (0 as
    soon as the latest is UP), and [lastUpTime] and [lastDownTime] are the
    timestamps of its latest UP and latest DOWN result, absent when there
    was none. *)
Theorem failure_streak_and_last_times
    (os : list RawResult) (rs : list StatusResult) (w : World) (u : string) :
  Forall2 accepted os rs →
  Forall (λ r, hasUrlScheme (url r) = true) rs →
  metricsStore w !! u = None →
  ofSite u rs ≠ [] →
  ∃ m, outcome (getSiteMetrics (JsString u)) (after (updateAll os) w)
         = Ok (Own m) ∧
       m_url m = u ∧
       consecutiveFailures m = Z.of_nat (trailingRun DOWN (ofSite u rs)) ∧
       lastUpTime m = lastTime UP (ofSite u rs) ∧
       lastDownTime m = lastTime DOWN (ofSite u rs).
Proof.
  intros Hacc Hall Hnone Hsite.
  pose proof (ofSite_scheme u rs Hall Hsite) as Hscheme.
  destruct (updateAll_accepted os rs w Hacc) as [_ Hm].
  specialize (Hm u (hasUrlScheme_ownName u Hscheme)).
  rewrite Hnone, metricsAfter_ofSite in Hm.
  pose proof (metricsAfter_streak u (ofSite u rs) (ofSite_Forall u rs)) as Hs.
  cbv zeta in Hs.
  destruct (metricsAfter_summary u (ofSite u rs) (ofSite_Forall u rs))
    as (_ & _ & _ & Hsome).
  destruct (Hsome Hsite) as [Hsome' _].
  pose proof (accepted_site_url os rs u Hacc Hsite) as Hu.
  eexists. unfold outcome. rewrite getSiteMetrics_string by done.
  cbn [fst]. rewrite (getProperty_own _ _ _ (eq_trans Hm Hsome')).
  split; [done|]. exact Hs.
Qed.

Lemma failure_streak_and_last_times_witness :
  let a := "https://a.example" in
  let rs := [sampleResult a UP 100; sampleResult "https://b.example" UP 70;
             sampleResult a DOWN 5000; sampleResult a DOWN 5000] in
  ∃ m, outcome (getSiteMetrics (JsString a))
               (after (updateAll (to_raw <$> rs)) (emptyWorld (λ _, 0)))
         = Ok (Own m) ∧
       consecutiveFailures m = 2.
Proof.
  intros a rs.
  destruct (failure_streak_and_last_times (to_raw <$> rs) rs
              (emptyWorld (λ _, 0)) a) as (m & Hm & _ & Hc & _).
  - repeat constructor.
  - repeat constructor.
  - reflexivity.
  - discriminate.
  - exists m. split; [exact Hm|]. rewrite Hc. reflexivity.
Defined.

Lemma Js_max_ge_l a b : (a ≤ Js.max a b)%Qc.
Proof. unfold Js.max. case_bool_decide; [done|apply Qcle_refl]. Qed.

Lemma Js_max_ge_r a b : (b ≤ Js.max a b)%Qc.
Proof.
  unfold Js.max. case_bool_decide as H; [apply Qcle_refl|].
  apply Qclt_le_weak. by apply Qcnot_le_lt.
Qed.

Lemma Js_max_cases a b : Js.max a b = a ∨ Js.max a b = b.
Proof. unfold Js.max. case_bool_decide; auto. Qed.

Lemma Js_min_cases a b : Js.min a b = a ∨ Js.min a b = b.
Proof. unfold Js.min. case_bool_decide; auto. Qed.

(** The extreme response times the metrics keep, for the results of one
    site from a fresh entry. *)
Lemma metricsAfter_extremes u rs :
  Forall (λ r, url r = u) rs →
  Forall (λ r, (0 ≤ responseTime r)%Qc) rs →
  rs ≠ [] →
  let m := default (initialMetrics u) (metricsAfter None u rs) in
  ∃ lo, minResponseTime m = Finite lo ∧
        lo ∈ responseTime <$> rs ∧
        maxResponseTime m ∈ responseTime <$> rs ∧
        Forall (λ r, (lo ≤ responseTime r)%Qc
                     ∧ (responseTime r ≤ maxResponseTime m)%Qc) rs.
Proof.
  induction rs as [|r rs IH] using rev_ind; intros Hall Hpos Hne; [done|].
  apply Forall_app in Hall as [Hrs Hr]. rewrite Forall_singleton in Hr.
  apply Forall_app in Hpos as [Hprs Hpr]. rewrite Forall_singleton in Hpr.
  rewrite (metricsAfter_snoc u rs r Hr). cbn [default from_option id].
  destruct rs as [|r0 rs0].
  - simpl. exists (responseTime r). split; [done|].
    assert (Hmax : Js.max 0 (responseTime r) = responseTime r).
    { unfold Js.max. by rewrite bool_decide_eq_true_2. }
    rewrite Hmax. split_and!; [left|left|].
    constructor; [|done]. split; apply Qcle_refl.
  - specialize (IH Hrs Hprs ltac:(done)). cbv zeta in IH.
    destruct IH as (lo & Hlo & Hin & Hmaxin & Hbounds).
    set (m := default (initialMetrics u) (metricsAfter None u (r0 :: rs0))) in *.
    unfold recordCheck. cbn [minResponseTime maxResponseTime]. rewrite Hlo.
    cbn [Js.min_inf]. exists (Js.min lo (responseTime r)).
    rewrite fmap_app. split_and!; [done| | |].
    + apply elem_of_app.
      destruct (Js_min_cases lo (responseTime r)) as [-> | ->];
        [by left|right; left].
    + apply elem_of_app.
      destruct (Js_max_cases (maxResponseTime m) (responseTime r)) as [-> | ->];
        [by left|right; left].
    + apply Forall_app. split.
      * eapply list.Forall_impl; [exact Hbounds|]. intros x [H1 H2]. split.
        -- eapply Qcle_trans; [apply Js_min_le_l|exact H1].
        -- eapply Qcle_trans; [exact H2|apply Js_max_ge_l].
      * constructor; [|done]. split; [apply Js_min_le_r|apply Js_max_ge_r].
Qed.

(** X12. For a site the metrics did not know, after any run of accepted
    results whose urls have a scheme: [minResponseTime] is finite, [minResponseTime] and
    [maxResponseTime] are response times of results of that site, and
    every response time of the site lies between them. *)
Theorem response_time_extremes
    (os : list RawResult) (rs : list StatusResult) (w : World) (u : string) :
  Forall2 accepted os rs →
  Forall (λ r, hasUrlScheme (url r) = true) rs →
  metricsStore w !! u = None →
  ofSite u rs ≠ [] →
  ∃ m lo, outcome (getSiteMetrics (JsString u)) (after (updateAll os) w)
            = Ok (Own m) ∧
          minResponseTime m = Finite lo ∧
          lo ∈ responseTime <$> ofSite u rs ∧
          maxResponseTime m ∈ responseTime <$> ofSite u rs ∧
          Forall (λ r, (lo ≤ responseTime r)%Qc
                       ∧ (responseTime r ≤ maxResponseTime m)%Qc)
                 (ofSite u rs).
Proof.
  intros Hacc Hall Hnone Hsite.
  pose proof (ofSite_scheme u rs Hall Hsite) as Hscheme.
  destruct (updateAll_accepted os rs w Hacc) as [_ Hm].
  specialize (Hm u (hasUrlScheme_ownName u Hscheme)).
  rewrite Hnone, metricsAfter_ofSite in Hm.
  assert (Hpos : Forall (λ r, (0 ≤ responseTime r)%Qc) (ofSite u rs)).
  { apply list.Forall_forall. intros r Hr.
    apply list_elem_of_filter in Hr as [_ Hr].
    by apply (proj1 (list.Forall_forall _ _) (accepted_responseTime os rs Hacc)). }
  destruct (metricsAfter_extremes u (ofSite u rs) (ofSite_Forall u rs) Hpos Hsite)
    as (lo & Hx).
  destruct (metricsAfter_summary u (ofSite u rs) (ofSite_Forall u rs))
    as (_ & _ & _ & Hsome).
  destruct (Hsome Hsite) as [Hsome' _].
  pose proof (accepted_site_url os rs u Hacc Hsite) as Hu.
  eexists _, lo. unfold outcome. rewrite getSiteMetrics_string by done.
  cbn [fst]. rewrite (getProperty_own _ _ _ (eq_trans Hm Hsome')).
  split; [done|]. exact Hx.
Qed.

Lemma response_time_extremes_witness :
  let a := "https://a.example" in
  ∃ m lo, outcome (getSiteMetrics (JsString a))
                  (after (updateAll (to_raw <$> sevenUpThreeDown))
                         (emptyWorld (λ _, 0)))
            = Ok (Own m) ∧
          minResponseTime m = Finite lo ∧
          lo ∈ responseTime <$> ofSite a sevenUpThreeDown ∧
          maxResponseTime m ∈ responseTime <$> ofSite a sevenUpThreeDown ∧
          Forall (λ r, (lo ≤ responseTime r)%Qc
                       ∧ (responseTime r ≤ maxResponseTime m)%Qc)
                 (ofSite a sevenUpThreeDown).
Proof.
  intros a.
  apply (response_time_extremes (to_raw <$> sevenUpThreeDown) sevenUpThreeDown
           (emptyWorld (λ _, 0)) a).
  - exact sevenUpThreeDown_accepted.
  - exact sevenUpThreeDown_scheme.
  - reflexivity.
  - discriminate.
Defined.

(** X13. [clearAllStatuses] empties the status records, the metrics and
    the history and leaves the limiter's buckets and the terminal alone;
    afterwards no site is tracked, and the next well-formed result of any
    site whose url has a scheme is handled as a first observation whose
    metrics start afresh, whatever was stored before. *)
Theorem clearing_forgets_every_site
    (rl : Config) (r : StatusResult) (w : World) :
  wellFormed r →
  hasUrlScheme (url r) = true →
  let w0 := after clearAllStatuses w in
  let w1 := after (handler rl (to_raw r)) w0 in
  outcome clearAllStatuses w = Ok tt ∧
  statusStore w0 = ∅ ∧ metricsStore w0 = ∅ ∧ historyStore w0 = [] ∧
  buckets w0 = buckets w ∧ terminal w0 = terminal w ∧ ticks w0 = ticks w ∧
  outcome getSiteCount w0 = Ok 0%nat ∧
  (∀ u limit, outcome (getSiteHistory u limit) w0 = Ok []) ∧
  emitted (handler rl (to_raw r)) w0
    = [InitialCheck (JsString (url r)) (JsString (status_name (status r)))
                    (JsNumber (responseTime r))] ∧
  statusStore w1 = {[url r := r]} ∧
  historyStore w1 = [r] ∧
  metricsStore w1 = {[url r := recordCheck (initialMetrics (url r)) r]} ∧
  buckets w1 = buckets w.
Proof.
  intros Hwf Hscheme w0 w1.
  assert (Hnone : statusStore w0 !! url r = None) by done.
  pose proof (handler_first rl (to_raw r) r w0 Hwf
                (hasUrlScheme_ownName _ Hscheme) Hnone) as Hh.
  unfold w1, after. rewrite Hh. cbn [snd].
  split_and!; try done.
  - intros u limit. unfold outcome, getSiteHistory. run_monad.
    unfold Js.slice. by rewrite ?filter_nil, ?drop_nil.
  - apply (emitted_snoc (handler rl (to_raw r)) w0). unfold after.
    by rewrite Hh.
Qed.

Lemma clearing_forgets_every_site_witness :
  let rl := sampleLimiter 3 300 in
  let r := sampleResult "https://a.example" DOWN 5000 in
  let w := after (updateAll (to_raw <$> sevenUpThreeDown)) (emptyWorld (λ _, 0)) in
  let w1 := after (handler rl (to_raw r)) (after clearAllStatuses w) in
  statusStore w1 = {[url r := r]} ∧ historyStore w1 = [r].
Proof.
  intros rl r w w1.
  destruct (clearing_forgets_every_site rl r w) as (_&_&_&_&_&_&_&_&_&_&H1&H2&_).
  - by apply sampleResult_wellFormed.
  - reflexivity.
  - split; [exact H1|exact H2].
Defined.

(** ** The alerter: what one event can change *)

Lemma updateLastStatus_rejected o e w :
  validate o = Throw e → updateLastStatus (ArgObject o) w = (Throw e, w).
Proof. intros H. unfold updateLastStatus. by rewrite H. Qed.

Lemma try_catch_ignore (m : M unit) w :
  try_catch m (λ _, ret tt) w = (Ok tt, after m w).
Proof.
  unfold try_catch, after. destruct (m w) as [[[]|e] w']; done.
Qed.

Lemma handleAll_step rl o os w :
  handleAll rl (o :: os) w = handleAll rl os (after (handler rl o) w).
Proof.
  cbn [handleAll]. by rewrite (bind_ok _ _ _ _ _ (try_catch_ignore _ w)).
Qed.

(** What a submission leaves, accepted or not. *)
Lemma updateLastStatus_effect o w :
  let w1 := snd (updateLastStatus (ArgObject o) w) in
  clock w1 = clock w ∧ buckets w1 = buckets w ∧ terminal w1 = terminal w ∧
  ((statusStore w1 = statusStore w ∧ metricsStore w1 = metricsStore w ∧
    historyStore w1 = historyStore w) ∨
   (∃ r, accepted o r ∧ w1 = stored r w)).
Proof.
  cbv zeta. destruct (validate o) as [r|e] eqn:Hv.
  - rewrite (updateLastStatus_stored o r w Hv). cbn [snd].
    split_and!; try done. right. by exists r.
  - rewrite (updateLastStatus_rejected o e w Hv). cbn [snd].
    split_and!; auto.
Qed.

(** The change-of-status block of the handler, whatever the two
    notifications are: a granted [consume] is followed by
    [getTokenCount], the alert and the submission. *)
Lemma transition_granted rl o s w
    (denied : Z → Z → Notification) (alert : Z → Notification) :
  raw_url o = JsString s → s ≠ "" →
  (1 ≤ tokens (refilledBucket rl s w))%Qc →
  let b := refilledBucket rl s w in
  let w1 := withBucket s {| tokens := (tokens b - 1)%Qc; lastRefill := lastRefill b |}
                       (readingsTaken s w) w in
  let b1 := refilledBucket rl s w1 in
  let w2 := withBucket s b1 1 w1 in
  (let* granted := consume rl (raw_url o) in
   if negb granted then
     let* timeUntilNext := getTimeUntilNextToken rl (raw_url o) in
     let* tokensRemaining := getTokenCount rl (raw_url o) in
     notify (denied timeUntilNext tokensRemaining)
   else
     let* tokensRemaining := getTokenCount rl (raw_url o) in
     let* _ := notify (alert tokensRemaining) in
     updateLastStatus (ArgObject o)) w
  = updateLastStatus (ArgObject o) (notified (alert (Js.floor (tokens b1))) w2).
Proof.
  intros Hu Hs Htok b w1 b1 w2. rewrite Hu.
  rewrite (bind_ok _ _ _ _ _ (consume_granted rl s w Hs Htok)).
  cbn [negb]. fold b w1.
  rewrite (bind_ok _ _ _ _ _ (getTokenCount_string rl s w1 Hs)).
  rewrite (readingsTaken_withBucket s _ _ w : readingsTaken s w1 = 1%nat).
  fold b1 w2.
  by rewrite (bind_ok _ _ _ _ _ (notify_eq _ _)).
Qed.

(** A denied one by [getTimeUntilNextToken], [getTokenCount] and the
    notice. *)
Lemma transition_denied rl o s w
    (denied : Z → Z → Notification) (alert : Z → Notification) :
  raw_url o = JsString s → s ≠ "" →
  ¬ (1 ≤ tokens (refilledBucket rl s w))%Qc →
  let b := refilledBucket rl s w in
  let w1 := withBucket s b (readingsTaken s w) w in
  let b1 := refilledBucket rl s w1 in
  let w2 := withBucket s b1 1 w1 in
  let b2 := refilledBucket rl s w2 in
  let w3 := withBucket s b2 1 w2 in
  (let* granted := consume rl (raw_url o) in
   if negb granted then
     let* timeUntilNext := getTimeUntilNextToken rl (raw_url o) in
     let* tokensRemaining := getTokenCount rl (raw_url o) in
     notify (denied timeUntilNext tokensRemaining)
   else
     let* tokensRemaining := getTokenCount rl (raw_url o) in
     let* _ := notify (alert tokensRemaining) in
     updateLastStatus (ArgObject o)) w
  = (Ok tt,
     notified (denied (if bool_decide (1 ≤ tokens b1)%Qc then 0
                       else Js.ceil ((1 - tokens b1) / refillRate rl)%Qc)
                      (Js.floor (tokens b2))) w3).
Proof.
  intros Hu Hs Htok b w1 b1 w2 b2 w3. rewrite Hu.
  rewrite (bind_ok _ _ _ _ _ (consume_denied rl s w Hs Htok)).
  cbn [negb]. fold b w1.
  rewrite (bind_ok _ _ _ _ _ (getTimeUntilNextToken_string rl s w1 Hs)).
  rewrite (readingsTaken_withBucket s _ _ w : readingsTaken s w1 = 1%nat).
  fold b1 w2.
  rewrite (bind_ok _ _ _ _ _ (getTokenCount_string rl s w2 Hs)).
  rewrite (readingsTaken_withBucket s _ _ w1 : readingsTaken s w2 = 1%nat).
  fold b2 w3.
  by rewrite notify_eq.
Qed.

(** Whatever the payload, the handler leaves the clock function alone,
    touches no bucket but the one of the payload's url, changes the three
    stores either not at all or exactly as storing the accepted result
    does, and shows at most one notification. *)
Lemma handler_effect rl o w :
  let w1 := after (handler rl o) w in
  clock w1 = clock w ∧
  (∀ other, JsString other ≠ raw_url o →
            buckets w1 !! other = buckets w !! other) ∧
  ((statusStore w1 = statusStore w ∧ metricsStore w1 = metricsStore w ∧
    historyStore w1 = historyStore w) ∨
   (∃ r, accepted o r ∧
         statusStore w1 = statusStore (stored r w) ∧
         metricsStore w1 = metricsStore (stored r w) ∧
         historyStore w1 = historyStore (stored r w))) ∧
  (terminal w1 = terminal w ∨ ∃ n, terminal w1 = terminal w ++ [n]).
Proof.
  unfold after.
  destruct (key_cases (raw_url o)) as [(s & Hu & Hs)|Hbad].
  2:{ rewrite (handler_invalid_url rl o w Hbad). cbn [snd].
      split_and!; auto. }
  assert (Hplain :
    ∀ n, let w1 := snd ((let* _ := updateLastStatus (ArgObject o) in notify n) w) in
         clock w1 = clock w ∧
         (∀ other, JsString other ≠ raw_url o →
                   buckets w1 !! other = buckets w !! other) ∧
         ((statusStore w1 = statusStore w ∧ metricsStore w1 = metricsStore w ∧
           historyStore w1 = historyStore w) ∨
          (∃ r, accepted o r ∧
                statusStore w1 = statusStore (stored r w) ∧
                metricsStore w1 = metricsStore (stored r w) ∧
                historyStore w1 = historyStore (stored r w))) ∧
         (terminal w1 = terminal w ∨ ∃ n, terminal w1 = terminal w ++ [n])).
  { intros n. destruct (validate o) as [r|e] eqn:Hv.
    - rewrite (bind_ok _ _ _ _ _ (updateLastStatus_stored o r w Hv)), notify_eq.
      cbn [snd]. split_and!; [done..| |right; by eexists].
      right. by exists r.
    - rewrite (bind_throw _ _ _ _ _ (updateLastStatus_rejected o e w Hv)).
      cbn [snd]. split_and!; auto. }
  assert (Hchange :
    ∀ denied alert,
      let w1 := snd ((let* granted := consume rl (raw_url o) in
                      if negb granted then
                        let* timeUntilNext := getTimeUntilNextToken rl (raw_url o) in
                        let* tokensRemaining := getTokenCount rl (raw_url o) in
                        notify (denied timeUntilNext tokensRemaining)
                      else
                        let* tokensRemaining := getTokenCount rl (raw_url o) in
                        let* _ := notify (alert tokensRemaining) in
                        updateLastStatus (ArgObject o)) w) in
      clock w1 = clock w ∧
      (∀ other, JsString other ≠ raw_url o →
                buckets w1 !! other = buckets w !! other) ∧
      ((statusStore w1 = statusStore w ∧ metricsStore w1 = metricsStore w ∧
        historyStore w1 = historyStore w) ∨
       (∃ r, accepted o r ∧
             statusStore w1 = statusStore (stored r w) ∧
             metricsStore w1 = metricsStore (stored r w) ∧
             historyStore w1 = historyStore (stored r w))) ∧
      (terminal w1 = terminal w ∨ ∃ n, terminal w1 = terminal w ++ [n])).
  { intros denied alert.
    destruct (decide (1 ≤ tokens (refilledBucket rl s w))%Qc) as [Hyes|Hno].
    - pose proof (transition_granted rl o s w denied alert Hu Hs Hyes) as Hg.
      cbv zeta in Hg. cbv zeta. rewrite Hg.
      match goal with |- context [updateLastStatus (ArgObject o) ?W] =>
        destruct (updateLastStatus_effect o W) as (H1 & H2 & H3 & H4) end.
      cbv zeta in H1, H2, H3, H4. rewrite H1, H2, H3.
      split_and!; [done| | |right; by eexists].
      + intros other Hne. simpl.
        rewrite !lookup_insert_ne; [done|congruence..].
      + destruct H4 as [(-> & -> & ->)|(r & Hacc & ->)]; [by left|].
        right. by exists r.
    - pose proof (transition_denied rl o s w denied alert Hu Hs Hno) as Hd.
      cbv zeta in Hd. cbv zeta. rewrite Hd. cbn [snd].
      split_and!; [done| |by left|right; by eexists].
      intros other Hne. simpl. rewrite !lookup_insert_ne; [done|congruence..]. }
  rewrite (handler_lookup rl o s w Hu Hs).
  destruct (getProperty (statusStore w) s) as [p| |].
  - case_bool_decide; [apply Hplain|].
    apply (Hchange (λ t k, RateLimited (raw_url o) (raw_status o) (status p) t k)
                   (λ k, StatusChange o (status p) k)).
  - case_bool_decide; [apply Hplain|].
    apply (Hchange (λ t k, RateLimitedFromUndefined (raw_url o) (raw_status o) t k)
                   (λ k, StatusChangeFromUndefined o k)).
  - apply Hplain.
Qed.

(** An accepted payload is handled without throwing, whatever its url
    and whatever is stored. *)
Lemma handler_accepted_ok rl o r w :
  accepted o r → outcome (handler rl o) w = Ok tt.
Proof.
  intros Hacc. destruct (accepted_url o r Hacc) as [Hu Hs].
  assert (Hplain :
    ∀ n, outcome (let* _ := updateLastStatus (ArgObject o) in notify n) w
         = Ok tt).
  { intros n. unfold outcome.
    by rewrite (bind_ok _ _ _ _ _ (updateLastStatus_stored o r w Hacc)). }
  assert (Hchange :
    ∀ denied alert,
      outcome (let* granted := consume rl (raw_url o) in
               if negb granted then
                 let* timeUntilNext := getTimeUntilNextToken rl (raw_url o) in
                 let* tokensRemaining := getTokenCount rl (raw_url o) in
                 notify (denied timeUntilNext tokensRemaining)
               else
                 let* tokensRemaining := getTokenCount rl (raw_url o) in
                 let* _ := notify (alert tokensRemaining) in
                 updateLastStatus (ArgObject o)) w = Ok tt).
  { intros denied alert. unfold outcome.
    destruct (decide (1 ≤ tokens (refilledBucket rl (url r) w))%Qc) as [Hyes|Hno].
    - pose proof (transition_granted rl o (url r) w denied alert Hu Hs Hyes) as Hg.
      cbv zeta in Hg. rewrite Hg.
      by rewrite (updateLastStatus_stored o r _ Hacc).
    - pose proof (transition_denied rl o (url r) w denied alert Hu Hs Hno) as Hd.
      cbv zeta in Hd. by rewrite Hd. }
  unfold outcome in *. rewrite (handler_lookup rl o (url r) w Hu Hs).
  destruct (getProperty (statusStore w) (url r)) as [p| |].
  - destruct (bool_decide (raw_status o = _)); [apply Hplain|].
    apply (Hchange (λ t k, RateLimited (raw_url o) (raw_status o) (status p) t k)
                   (λ k, StatusChange o (status p) k)).
  - destruct (bool_decide (raw_status o = _)); [apply Hplain|].
    apply (Hchange (λ t k, RateLimitedFromUndefined (raw_url o) (raw_status o) t k)
                   (λ k, StatusChangeFromUndefined o k)).
  - apply Hplain.
Qed.

(** ** Stores that agree *)

Lemma Qc_div_nonneg (a b : Qc) : (0 ≤ a)%Qc → (0 < b)%Qc → (0 ≤ a / b)%Qc.
Proof.
  intros Ha Hb. unfold Qcdiv. apply Qcmult_nonneg_nonneg; [done|].
  by apply Qclt_le_weak, Qcinv_pos.
Qed.

Lemma Qc_div_le (a b c : Qc) : (0 < b)%Qc → (a ≤ c * b)%Qc → (a / b ≤ c)%Qc.
Proof.
  intros Hb Hle.
  assert (H : (a / b ≤ c * b / b)%Qc).
  { unfold Qcdiv. apply Qcmult_le_compat_r; [done|].
    by apply Qclt_le_weak, Qcinv_pos. }
  rewrite Qcdiv_mult_l in H; [done|].
  intros Hz. rewrite Hz in Hb. by apply Qclt_not_eq in Hb.
Qed.

(** One more check keeps a site's record and its metrics in agreement. *)
Lemma recordCheck_sync existing r :
  0 ≤ consecutiveFailures existing →
  0 ≤ successfulChecks existing ≤ totalChecks existing →
  (0 ≤ averageResponseTime existing)%Qc →
  (0 ≤ responseTime r)%Qc →
  siteInSync r (recordCheck existing r).
Proof.
  intros Hcf Hsucc Havg Hrt. unfold siteInSync, recordCheck.
  cbn [consecutiveFailures successfulChecks totalChecks uptimePercentage
       averageResponseTime].
  split_and!.
  - destruct (status r) eqn:Es.
    + rewrite bool_decide_eq_true_2 by done. split; [done|lia].
    + rewrite bool_decide_eq_false_2 by done. split; [lia|done].
  - case_bool_decide; lia.
  - case_bool_decide; lia.
  - case_bool_decide; lia.
  - lia.
  - done.
  - apply Qc_div_nonneg; [|apply (proj1 (Z2Qc_inj_lt 0 _)); lia].
    apply Qcplus_nonneg_nonneg; [|done].
    apply Qcmult_nonneg_nonneg; [done|].
    apply (proj1 (Z2Qc_inj_le 0 _)). lia.
Qed.

Lemma siteInSync_uptime r m :
  siteInSync r m →
  (0 ≤ uptimePercentage m)%Qc ∧ (uptimePercentage m ≤ Qc_of_Z 100)%Qc.
Proof.
  intros (_ & _ & [H0 H1] & Ht & -> & _).
  assert (Hpos : (0 < Qc_of_Z (totalChecks m))%Qc)
    by by apply (proj1 (Z2Qc_inj_lt 0 _)).
  assert (Hratio0 : (0 ≤ Qc_of_Z (successfulChecks m) / Qc_of_Z (totalChecks m))%Qc).
  { apply Qc_div_nonneg; [|done]. by apply (proj1 (Z2Qc_inj_le 0 _)). }
  assert (Hratio1 : (Qc_of_Z (successfulChecks m) / Qc_of_Z (totalChecks m) ≤ 1)%Qc).
  { apply Qc_div_le; [done|]. rewrite Qcmult_1_l.
    by apply (proj1 (Z2Qc_inj_le _ _)). }
  split.
  - apply Qcmult_nonneg_nonneg; [done|]. by apply (proj1 (Z2Qc_inj_le 0 100)).
  - rewrite <- (Qcmult_1_l (Qc_of_Z 100)) at 2.
    apply Qcmult_le_compat_r; [done|]. by apply (proj1 (Z2Qc_inj_le 0 100)).
Qed.

Lemma persisted_sync r w :
  (0 ≤ responseTime r)%Qc →
  storesInSync w →
  inSync (statusStore (persisted r w)) (metricsStore (persisted r w)).
Proof.
  intros Hrt Hw u. cbn [persisted statusStore metricsStore].
  destruct (decide (u = url r)) as [->|Hne].
  - rewrite !lookup_insert_eq. specialize (Hw (url r)).
    destruct (metricsStore w !! url r) as [m|] eqn:Hm; cbn [default from_option id].
    + destruct (statusStore w !! url r) as [r'|]; [|done].
      destruct Hw as (_ & ? & ? & ? & _ & ?).
      apply recordCheck_sync; [done|lia|done..].
    + by apply recordCheck_sync.
  - rewrite !lookup_insert_ne by done. apply Hw.
Qed.

(** An accepted payload that is [schemeOrNoUrl] has a url with a scheme,
    so what is stored for it is what [persisted] describes. *)
Lemma accepted_scheme o r :
  accepted o r → schemeOrNoUrl o = true → hasUrlScheme (url r) = true.
Proof.
  intros Hacc Ho. destruct (accepted_url o r Hacc) as [Hu Hne].
  unfold schemeOrNoUrl in Ho. rewrite Hu in Ho.
  by rewrite bool_decide_eq_false_2 in Ho.
Qed.

Lemma stored_scheme o r w :
  accepted o r → schemeOrNoUrl o = true → stored r w = persisted r w.
Proof.
  intros Hacc Ho. apply stored_ownName, hasUrlScheme_ownName.
  by apply (accepted_scheme o).
Qed.

Lemma handler_sync rl o w :
  schemeOrNoUrl o = true →
  storesInSync w → storesInSync (after (handler rl o) w).
Proof.
  intros Ho Hw. destruct (handler_effect rl o w) as (_ & _ & Hstores & _).
  unfold storesInSync.
  destruct Hstores as [(-> & -> & _)|(r & Hacc & -> & -> & _)]; [done|].
  rewrite (stored_scheme o r w Hacc Ho).
  apply persisted_sync; [|done]. apply accepted_inv in Hacc. tauto.
Qed.

Lemma handleAll_sync rl os w :
  Forall (λ o, schemeOrNoUrl o = true) os →
  storesInSync w → storesInSync (after (handleAll rl os) w).
Proof.
  revert w. induction os as [|o os IH]; intros w Hall Hw; [done|].
  apply list.Forall_cons in Hall as [Ho Hos].
  unfold after. rewrite handleAll_step. apply IH; [done|].
  by apply handler_sync.
Qed.

Lemma empty_stores_sync w :
  statusStore w = ∅ → metricsStore w = ∅ → storesInSync w.
Proof. intros Hs Hm u. unfold storesInSync. by rewrite Hs, Hm. Qed.

(** ** Counting over the values of an object *)

Lemma values_insert {A} (m : gmap string A) u a :
  m !! u = None → values (<[u := a]> m) ≡ₚ a :: values m.
Proof.
  intros Hu. unfold values. by rewrite map_to_list_insert.
Qed.

Lemma values_empty {A} : values (∅ : gmap string A) = [].
Proof. unfold values. by rewrite map_to_list_empty. Qed.

Lemma length_values {A} (m : gmap string A) : length (values m) = size m.
Proof. unfold values. by rewrite length_fmap, length_map_to_list. Qed.

(** Two objects with the same keys whose entries satisfy [P] and [Q]
    together have as many values with [P] as with [Q]. *)
Lemma count_aligned {A B} (P : A → Prop) (Q : B → Prop)
    `{!∀ a, Decision (P a)} `{!∀ b, Decision (Q b)}
    (ma : gmap string A) (mb : gmap string B) :
  (∀ u, match ma !! u, mb !! u with
        | Some a, Some b => P a ↔ Q b
        | None, None => True
        | _, _ => False
        end) →
  length (filter P (values ma)) = length (filter Q (values mb)).
Proof.
  revert mb. induction ma as [|u a ma Hu IH] using map_ind; intros mb Hall.
  - assert (mb = ∅) as ->.
    { apply map_empty. intros u. specialize (Hall u). rewrite lookup_empty in Hall.
      by destruct (mb !! u). }
    by rewrite !values_empty.
  - pose proof (Hall u) as Hu'. rewrite lookup_insert_eq in Hu'.
    destruct (mb !! u) as [b|] eqn:Hb; [|done].
    rewrite <- (insert_delete_id mb u b Hb).
    rewrite (values_insert ma u a Hu).
    rewrite (values_insert (delete u mb) u b) by apply lookup_delete_eq.
    rewrite !filter_cons.
    assert (IH' : length (filter P (values ma))
                  = length (filter Q (values (delete u mb)))).
    { apply IH. intros k. destruct (decide (k = u)) as [->|Hk].
      - by rewrite Hu, lookup_delete_eq.
      - specialize (Hall k). rewrite lookup_insert_ne in Hall by done.
        by rewrite lookup_delete_ne. }
    destruct (decide (P a)) as [Hp|Hp], (decide (Q b)) as [Hq|Hq];
      simpl; rewrite ?IH'; tauto || done.
Qed.

(** ** System metrics and the health endpoint *)

Lemma foldl_sum_snoc {A} (f : A → Qc) (l : list A) (x : A) :
  foldl (λ sum y, sum + f y)%Qc 0%Qc (l ++ [x])
  = (foldl (λ sum y, sum + f y)%Qc 0%Qc l + f x)%Qc.
Proof. by rewrite foldl_app. Qed.

Lemma foldl_sum_nonneg {A} (f : A → Qc) (l : list A) :
  Forall (λ x, (0 ≤ f x)%Qc) l →
  (0 ≤ foldl (λ sum y, sum + f y)%Qc 0%Qc l)%Qc.
Proof.
  induction l as [|x l IH] using rev_ind; intros Hall; [done|].
  apply Forall_app in Hall as [Hl Hx]. rewrite Forall_singleton in Hx.
  rewrite foldl_sum_snoc. by apply Qcplus_nonneg_nonneg; [apply IH|].
Qed.

Lemma foldl_sum_le {A} (f : A → Qc) (c : Qc) (l : list A) :
  Forall (λ x, (f x ≤ c)%Qc) l →
  (foldl (λ sum y, sum + f y)%Qc 0%Qc l
   ≤ c * Qc_of_Z (Z.of_nat (length l)))%Qc.
Proof.
  induction l as [|x l IH] using rev_ind; intros Hall.
  - cbn [foldl length]. change (Z.of_nat 0) with 0.
    rewrite Z2Qc_inj_0, Qcmult_0_r. apply Qcle_refl.
  - apply Forall_app in Hall as [Hl Hx]. rewrite Forall_singleton in Hx.
    rewrite foldl_sum_snoc, length_app. cbn [length].
    replace (Z.of_nat (length l + 1)) with (Z.of_nat (length l) + 1) by lia.
    rewrite Z2Qc_inj_add, Z2Qc_inj_1, Qcmult_plus_distr_r, Qcmult_1_r.
    by apply Qcplus_le_compat; [apply IH|].
Qed.

Lemma filter_True_all {A} (l : list A) : filter (λ _, True) l = l.
Proof.
  induction l as [|x l IH]; [done|]. rewrite filter_cons_True by done.
  by rewrite IH.
Qed.

Lemma elem_of_values {A} (m : gmap string A) (x : A) :
  x ∈ values m → ∃ k, m !! k = Some x.
Proof.
  unfold values. intros Hx. apply list_elem_of_fmap in Hx as ([k y] & -> & Hin).
  exists k. by apply elem_of_map_to_list.
Qed.

(** What [getSystemMetrics] computes, and that it only reads. *)
Lemma getSystemMetrics_eq getTime w :
  ∃ last w',
    getSystemMetrics getTime w
    = (Ok {| totalSites := length (values (statusStore w));
             upSites := countStatus UP (values (statusStore w));
             downSites := countStatus DOWN (values (statusStore w));
             overallUptimePercentage :=
               if (0 <? length (values (metricsStore w)))%nat
               then (foldl (λ sum m, sum + uptimePercentage m) 0
                           (values (metricsStore w))
                     / Qc_of_Z (Z.of_nat (length (values (metricsStore w)))))%Qc
               else Qc_of_Z 100;
             systemAverageResponseTime :=
               if (0 <? length (values (metricsStore w)))%nat
               then (foldl (λ sum m, sum + averageResponseTime m) 0
                           (values (metricsStore w))
                     / Qc_of_Z (Z.of_nat (length (values (metricsStore w)))))%Qc
               else 0%Qc;
             lastUpdate := last |}, w') ∧
    statusStore w' = statusStore w ∧ metricsStore w' = metricsStore w ∧
    historyStore w' = historyStore w ∧ buckets w' = buckets w ∧
    terminal w' = terminal w ∧ clock w' = clock w ∧
    (statusStore w = ∅ →
       last = Some (clock w (ticks w)) ∧ ticks w' = S (ticks w)) ∧
    (statusStore w ≠ ∅ → w' = w).
Proof.
  unfold getSystemMetrics, countStatus. run_monad.
  destruct ((λ s, getTime (checkedAt s)) <$> values (statusStore w))
    as [|t ts] eqn:E.
  - apply fmap_nil_inv in E.
    assert (Hempty : statusStore w = ∅).
    { apply map_size_empty_inv. by rewrite <- length_values, E. }
    eexists _, _. split; [reflexivity|]. simpl. split_and!; try done.
  - eexists _, _. split; [reflexivity|]. split_and!; try done.
    all: try (intros Hempty; rewrite Hempty, values_empty in E; done).
    all: intros _; by destruct w.
Qed.

(** X14. [getSystemMetrics] counts every tracked site exactly once:
    [totalSites] is what [getSiteCount] returns and is the sum of
    [upSites] and [downSites].  Without any metrics the overall uptime
    is 100 and the average response time 0; without any site
    [lastUpdate] is the current clock reading.  The stores are only
    read. *)
Theorem system_metrics_count_every_site (getTime : string → option Z) (w : World) :
  ∃ sm, outcome (getSystemMetrics getTime) w = Ok sm ∧
        outcome getSiteCount w = Ok (totalSites sm) ∧
        (upSites sm + downSites sm)%nat = totalSites sm ∧
        (metricsStore w = ∅ →
           overallUptimePercentage sm = Qc_of_Z 100 ∧
           systemAverageResponseTime sm = 0%Qc) ∧
        (statusStore w = ∅ → lastUpdate sm = Some (clock w (ticks w))) ∧
        statusStore (after (getSystemMetrics getTime) w) = statusStore w ∧
        metricsStore (after (getSystemMetrics getTime) w) = metricsStore w ∧
        historyStore (after (getSystemMetrics getTime) w) = historyStore w.
Proof.
  destruct (getSystemMetrics_eq getTime w)
    as (last & w' & Heq & H1 & H2 & H3 & _ & _ & _ & Hlast & _).
  unfold outcome, after. rewrite Heq. cbn [fst snd].
  eexists. split; [reflexivity|].
  cbn [totalSites upSites downSites overallUptimePercentage
       systemAverageResponseTime lastUpdate].
  split_and!; try done.
  - unfold getSiteCount. run_monad. by rewrite length_values.
  - apply countStatus_total.
  - intros Hm. by rewrite Hm, values_empty.
  - intros Hs. by destruct (Hlast Hs).
Qed.

Lemma inSync_values_metrics store metrics m :
  inSync store metrics → m ∈ values metrics → ∃ r, siteInSync r m.
Proof.
  intros Hsync Hm. apply elem_of_values in Hm as [k Hk].
  specialize (Hsync k). rewrite Hk in Hsync.
  destruct (store !! k) as [r|]; [by exists r|done].
Qed.

(** X15. In any world reached from empty stores by handling payloads
    whose url, when there is one, has a scheme, the overall uptime [getSystemMetrics] reports is a
    percentage between 0 and 100, the average response time is not
    negative, and the metrics know exactly the tracked sites. *)
Theorem system_uptime_is_a_percentage
    (rl : Config) (os : list RawResult) (getTime : string → option Z)
    (w0 : World) :
  Forall (λ o, schemeOrNoUrl o = true) os →
  statusStore w0 = ∅ → metricsStore w0 = ∅ →
  let w := after (handleAll rl os) w0 in
  ∃ sm, outcome (getSystemMetrics getTime) w = Ok sm ∧
        (0 ≤ overallUptimePercentage sm)%Qc ∧
        (overallUptimePercentage sm ≤ Qc_of_Z 100)%Qc ∧
        (0 ≤ systemAverageResponseTime sm)%Qc ∧
        size (metricsStore w) = totalSites sm.
Proof.
  intros Hos Hs Hm w.
  pose proof (handleAll_sync rl os w0 Hos (empty_stores_sync w0 Hs Hm)) as Hsync.
  fold w in Hsync. unfold storesInSync in Hsync.
  destruct (getSystemMetrics_eq getTime w) as (last & w' & Heq & _).
  unfold outcome. rewrite Heq. cbn [fst]. eexists. split; [reflexivity|].
  cbn [totalSites overallUptimePercentage systemAverageResponseTime].
  assert (Hup : Forall (λ m, (0 ≤ uptimePercentage m)%Qc
                             ∧ (uptimePercentage m ≤ Qc_of_Z 100)%Qc)
                       (values (metricsStore w))).
  { apply list.Forall_forall. intros m Hin.
    destruct (inSync_values_metrics _ _ m Hsync Hin) as [r Hr].
    by apply (siteInSync_uptime r m). }
  assert (Havg : Forall (λ m, (0 ≤ averageResponseTime m)%Qc)
                        (values (metricsStore w))).
  { apply list.Forall_forall. intros m Hin.
    destruct (inSync_values_metrics _ _ m Hsync Hin) as [r Hr].
    unfold siteInSync in Hr. tauto. }
  destruct (0 <? length (values (metricsStore w)))%nat eqn:E.
  - apply Nat.ltb_lt in E.
    assert (Hcount : (0 < Qc_of_Z (Z.of_nat (length (values (metricsStore w)))))%Qc)
      by (apply (proj1 (Z2Qc_inj_lt 0 _)); lia).
    split_and!.
    + apply Qc_div_nonneg; [|done]. apply foldl_sum_nonneg.
      eapply list.Forall_impl; [exact Hup|]. by intros m [? _].
    + apply Qc_div_le; [done|]. apply foldl_sum_le.
      eapply list.Forall_impl; [exact Hup|]. by intros m [_ ?].
    + apply Qc_div_nonneg; [|done]. by apply foldl_sum_nonneg.
    + rewrite <- !length_values.
      rewrite <- (filter_True_all (values (metricsStore w))).
      rewrite <- (filter_True_all (values (statusStore w))).
      apply count_aligned. intros u. specialize (Hsync u).
      destruct (metricsStore w !! u), (statusStore w !! u); done.
  - split_and!; [by apply (proj1 (Z2Qc_inj_le 0 100))|apply Qcle_refl|done|].
    rewrite <- !length_values.
    rewrite <- (filter_True_all (values (metricsStore w))).
    rewrite <- (filter_True_all (values (statusStore w))).
    apply count_aligned. intros u. specialize (Hsync u).
    destruct (metricsStore w !! u), (statusStore w !! u); done.
Qed.

Lemma system_uptime_is_a_percentage_witness :
  let w := after (handleAll (sampleLimiter 3 300) (to_raw <$> sevenUpThreeDown))
                 (emptyWorld (λ _, 0)) in
  ∃ sm, outcome (getSystemMetrics (λ _, None)) w = Ok sm ∧
        (0 ≤ overallUptimePercentage sm)%Qc ∧
        (overallUptimePercentage sm ≤ Qc_of_Z 100)%Qc ∧
        (0 ≤ systemAverageResponseTime sm)%Qc ∧
        size (metricsStore w) = totalSites sm.
Proof.
  apply (system_uptime_is_a_percentage (sampleLimiter 3 300)
           (to_raw <$> sevenUpThreeDown) (λ _, None) (emptyWorld (λ _, 0)));
    [repeat constructor|reflexivity..].
Defined.

Lemma half_le (n d : Z) :
  (Qc_of_Z n * (1 / (1 + 1)) ≤ Qc_of_Z d)%Qc ↔ n ≤ 2 * d.
Proof.
  rewrite (Z2Qc_inj_le n (2 * d)), Z2Qc_inj_mul, Z2Qc_inj_2.
  assert (Hhalf : (1 / (1 + 1))%Qc = (/ 2)%Qc) by (by apply Qc_is_canon).
  rewrite Hhalf.
  assert (H2 : (0 < 2)%Qc) by done.
  split; intros H.
  - apply (Qcmult_le_compat_r _ _ 2) in H; [|by apply Qclt_le_weak].
    rewrite <- Qcmult_assoc, (Qcmult_comm (/ 2)), Qcmult_inv_r in H by done.
    by rewrite Qcmult_1_r, Qcmult_comm in H.
  - apply (Qcmult_le_compat_r _ _ (/ 2)) in H;
      [|by apply Qclt_le_weak, Qcinv_pos].
    rewrite (Qcmult_comm 2), <- Qcmult_assoc, Qcmult_inv_r, Qcmult_1_r in H
      by done.
    done.
Qed.

Lemma HealthCheck_handler_eq configured nowIso processUptime getTime w :
  ∃ resp,
    outcome (HealthCheck.handler configured nowIso processUptime getTime) w
      = Ok resp ∧
    HealthCheck.lastKnown resp = statusStore w ∧
    HealthCheck.sitesConfigured resp = configured ∧
    HealthCheck.now resp = nowIso ∧
    HealthCheck.uptime resp = processUptime ∧
    (∃ sm, outcome (getSystemMetrics getTime) w = Ok sm ∧
           HealthCheck.totalUptime resp = overallUptimePercentage sm ∧
           HealthCheck.averageResponseTime resp = systemAverageResponseTime sm) ∧
    HealthCheck.activeAlerts resp
      = length (filter (λ m, 0 < consecutiveFailures m)
                       (values (metricsStore w))) ∧
    HealthCheck.healthStatus resp
      = (let downSites := countStatus DOWN (values (statusStore w)) in
         let totalSites := length (values (statusStore w)) in
         if (0 <? downSites)%nat then
           if bool_decide (Qc_of_Z (Z.of_nat totalSites) * (1 / (1 + 1))
                           ≤ Qc_of_Z (Z.of_nat downSites))%Qc
           then HealthCheck.down else HealthCheck.degraded
         else HealthCheck.ok).
Proof.
  destruct (getSystemMetrics_eq getTime w)
    as (last & w' & Heq & H1 & H2 & _).
  assert (Hsnap : getSnapshot w = (Ok (statusStore w), w)) by done.
  assert (Hall : getAllMetrics w' = (Ok (metricsStore w'), w')) by done.
  unfold outcome, HealthCheck.handler.
  rewrite (bind_ok _ _ _ _ _ Hsnap), (bind_ok _ _ _ _ _ Heq),
    (bind_ok _ _ _ _ _ Hall).
  unfold ret. cbn [fst].
  eexists. split; [reflexivity|]. rewrite H2.
  cbn [HealthCheck.lastKnown HealthCheck.sitesConfigured HealthCheck.now
       HealthCheck.uptime HealthCheck.totalUptime
       HealthCheck.averageResponseTime HealthCheck.activeAlerts
       HealthCheck.healthStatus overallUptimePercentage
       systemAverageResponseTime].
  split_and!; try done.
  eexists. rewrite Heq. split; [reflexivity|]. done.
Qed.

(** X16. The health endpoint answers [ok] exactly when no tracked site is
    DOWN, [down] exactly when some site is DOWN and the DOWN sites are at
    least half of the tracked ones, and [degraded] otherwise; it passes
    the snapshot, the configured count, the timestamp and the system
    metrics through and leaves the stores as they are. *)
Theorem health_status_classification
    (configured : Z) (nowIso : string) (processUptime : Qc)
    (getTime : string → option Z) (w : World) :
  let downSites := countStatus DOWN (values (statusStore w)) in
  let totalSites := size (statusStore w) in
  ∃ resp,
    outcome (HealthCheck.handler configured nowIso processUptime getTime) w
      = Ok resp ∧
    HealthCheck.lastKnown resp = statusStore w ∧
    HealthCheck.sitesConfigured resp = configured ∧
    (HealthCheck.healthStatus resp = HealthCheck.ok ↔ downSites = 0%nat) ∧
    (HealthCheck.healthStatus resp = HealthCheck.down ↔
       (0 < downSites ∧ totalSites ≤ 2 * downSites)%nat) ∧
    (HealthCheck.healthStatus resp = HealthCheck.degraded ↔
       (0 < downSites ∧ 2 * downSites < totalSites)%nat) ∧
    (∃ sm, outcome (getSystemMetrics getTime) w = Ok sm ∧
           HealthCheck.totalUptime resp = overallUptimePercentage sm ∧
           HealthCheck.averageResponseTime resp = systemAverageResponseTime sm).
Proof.
  intros downSites totalSites.
  destruct (HealthCheck_handler_eq configured nowIso processUptime getTime w)
    as (resp & Hresp & Hk & Hc & _ & _ & Hsm & _ & Hst).
  exists resp. split_and!; try done.
  all: rewrite Hst; cbv zeta; fold downSites; rewrite length_values;
    fold totalSites.
  all: destruct (Nat.ltb_spec 0 downSites) as [E|E];
    [case_bool_decide as Hh; rewrite half_le in Hh|].
  all: split; intros H; try done; try lia.
Qed.

(** X17. In any world reached from empty stores by handling payloads
    whose url, when there is one, has a scheme, the [activeAlerts] of the health endpoint (the metrics entries with a
    positive failure streak) is the number of sites whose last known
    status is DOWN, so it is 0 exactly when the endpoint answers [ok]. *)
Theorem active_alerts_are_the_down_sites
    (rl : Config) (os : list RawResult)
    (configured : Z) (nowIso : string) (processUptime : Qc)
    (getTime : string → option Z) (w0 : World) :
  Forall (λ o, schemeOrNoUrl o = true) os →
  statusStore w0 = ∅ → metricsStore w0 = ∅ →
  let w := after (handleAll rl os) w0 in
  ∃ resp,
    outcome (HealthCheck.handler configured nowIso processUptime getTime) w
      = Ok resp ∧
    HealthCheck.activeAlerts resp
      = countStatus DOWN (values (HealthCheck.lastKnown resp)) ∧
    (HealthCheck.activeAlerts resp = 0%nat ↔
       HealthCheck.healthStatus resp = HealthCheck.ok).
Proof.
  intros Hos Hs Hm w.
  pose proof (handleAll_sync rl os w0 Hos (empty_stores_sync w0 Hs Hm)) as Hsync.
  fold w in Hsync. unfold storesInSync in Hsync.
  destruct (HealthCheck_handler_eq configured nowIso processUptime getTime w)
    as (resp & Hresp & Hk & _ & _ & _ & _ & Ha & Hst).
  exists resp. split; [done|].
  assert (Hcount : HealthCheck.activeAlerts resp
                   = countStatus DOWN (values (statusStore w))).
  { rewrite Ha. unfold countStatus. apply count_aligned. intros u.
    specialize (Hsync u).
    destruct (metricsStore w !! u), (statusStore w !! u); try done.
    destruct Hsync as [Hiff _]. by symmetry. }
  split; [by rewrite Hk|].
  rewrite Hcount, Hst. cbv zeta.
  destruct (Nat.ltb_spec 0 (countStatus DOWN (values (statusStore w))))
    as [E|E]; [case_bool_decide|]; split; intros Hx; try done; lia.
Qed.

Lemma active_alerts_are_the_down_sites_witness :
  let a := "https://a.example" in
  let b := "https://b.example" in
  let os := to_raw <$> [sampleResult a UP 100; sampleResult b UP 70;
                        sampleResult a DOWN 5000; sampleResult a DOWN 5000] in
  let w := after (handleAll (sampleLimiter 3 300) os) (emptyWorld (λ _, 0)) in
  ∃ resp,
    outcome (HealthCheck.handler 2 "2025-09-06T21:30:15.000Z" 0%Qc (λ _, None)) w
      = Ok resp ∧
    HealthCheck.activeAlerts resp
      = countStatus DOWN (values (HealthCheck.lastKnown resp)) ∧
    (HealthCheck.activeAlerts resp = 0%nat ↔
       HealthCheck.healthStatus resp = HealthCheck.ok).
Proof.
  intros a b os w.
  apply (active_alerts_are_the_down_sites (sampleLimiter 3 300) os 2
           "2025-09-06T21:30:15.000Z" 0%Qc (λ _, None) (emptyWorld (λ _, 0)));
    [repeat constructor|reflexivity..].
Defined.

(** ** The alerter: frames and edge cases *)

(** X18. Handling results, whatever they are, changes nothing about a
    site none of them names: its status record, its metrics and its
    bucket are the ones from before the run. *)
Theorem other_sites_are_untouched
    (rl : Config) (os : list RawResult) (other : string) (w : World) :
  Forall (λ o, raw_url o ≠ JsString other) os →
  let w1 := after (handleAll rl os) w in
  outcome (handleAll rl os) w = Ok tt ∧
  statusStore w1 !! other = statusStore w !! other ∧
  metricsStore w1 !! other = metricsStore w !! other ∧
  buckets w1 !! other = buckets w !! other ∧
  clock w1 = clock w.
Proof.
  revert w. induction os as [|o os IH]; intros w Hall; [done|].
  apply list.Forall_cons in Hall as [Ho Hos].
  unfold outcome, after. rewrite handleAll_step.
  specialize (IH (after (handler rl o) w) Hos). cbv zeta in IH.
  unfold outcome, after in *. destruct IH as (-> & -> & -> & -> & ->).
  destruct (handler_effect rl o w) as (Hc & Hb & Hstores & _).
  unfold after in *.
  split_and!; [done| | |by apply Hb|done].
  - destruct Hstores as [(-> & _)|(r & Hacc & -> & _)]; [done|].
    destruct (accepted_url o r Hacc) as [Hu _].
    simpl. apply setProperty_ne. congruence.
  - destruct Hstores as [(_ & -> & _)|(r & Hacc & _ & -> & _)]; [done|].
    destruct (accepted_url o r Hacc) as [Hu _].
    simpl. destruct (getProperty (metricsStore w) (url r)); [|done|];
      apply setProperty_ne; congruence.
Qed.

Lemma other_sites_are_untouched_witness :
  let rl := sampleLimiter 1 300 in
  let a := "https://a.example" in
  let b := "https://b.example" in
  let w := after (handleAll rl [to_raw (sampleResult b UP 70)])
                 (emptyWorld (λ _, 0)) in
  let w1 := after (handleAll rl (to_raw <$> [sampleResult a UP 100;
                                              sampleResult a DOWN 5000;
                                              sampleResult a UP 100])) w in
  statusStore w1 !! b = Some (sampleResult b UP 70) ∧
  buckets w1 !! b = None.
Proof.
  intros rl a b w w1.
  destruct (other_sites_are_untouched rl
              (to_raw <$> [sampleResult a UP 100; sampleResult a DOWN 5000;
                           sampleResult a UP 100]) b w)
    as (_ & Hs & _ & Hb & _).
  - repeat constructor; discriminate.
  - fold w1 in Hs, Hb. rewrite Hs, Hb. split; reflexivity.
Defined.

(** X19. The alerter decides and alerts before the store validates: for
    a payload the store rejects whose status differs from the stored one,
    with a token available, the status-change alert is shown and the token
    is spent (the limiter is left as [consume] and [getTokenCount] leave
    it), then [updateLastStatus] throws its validation error; the stored
    record, the metrics and the history stay as they were. *)
Theorem alert_is_shown_before_validation
    (rl : Config) (o : RawResult) (s e : string) (p : StatusResult) (w : World) :
  raw_url o = JsString s → s ≠ "" →
  statusStore w !! s = Some p →
  raw_status o ≠ JsString (status_name (status p)) →
  (1 ≤ tokens (refilledBucket rl s w))%Qc →
  validate o = Throw e →
  let w1 := after (handler rl o) w in
  let spent := (let* _ := consume rl (raw_url o) in
                getTokenCount rl (raw_url o)) in
  outcome (handler rl o) w = Throw e ∧
  outcome (consume rl (raw_url o)) w = Ok true ∧
  (∃ remaining,
     outcome spent w = Ok remaining ∧
     emitted (handler rl o) w = [StatusChange o (status p) remaining]) ∧
  buckets w1 = buckets (after spent w) ∧
  ticks w1 = ticks (after spent w) ∧
  statusStore w1 = statusStore w ∧ metricsStore w1 = metricsStore w ∧
  historyStore w1 = historyStore w.
Proof.
  intros Hu Hs Hp Hdiff Htok Hv w1 spent.
  pose proof (consume_granted rl s w Hs Htok) as Hc.
  set (wc := withBucket s _ (readingsTaken s w) w) in Hc.
  pose proof (getTokenCount_string rl s wc Hs) as Hg.
  set (wg := withBucket s _ (readingsTaken s wc) wc) in Hg.
  set (k := Js.floor _) in Hg.
  assert (Hh : handler rl o w
               = (Throw e, notified (StatusChange o (status p) k) wg)).
  { rewrite (handler_lookup_own rl o s p w Hu Hs Hp).
    rewrite bool_decide_eq_false_2 by done. rewrite Hu.
    rewrite (bind_ok _ _ _ _ _ Hc). cbn [negb].
    rewrite (bind_ok _ _ _ _ _ Hg).
    rewrite (bind_ok _ _ _ _ _ (notify_eq _ _)).
    by rewrite (updateLastStatus_rejected o e _ Hv). }
  assert (Hspent : spent w = (Ok k, wg)).
  { unfold spent. rewrite Hu. by rewrite (bind_ok _ _ _ _ _ Hc). }
  unfold w1, outcome, after. rewrite Hh, Hspent, Hu, Hc. cbn [fst snd].
  split_and!; try done.
  exists k. split; [done|]. apply emitted_snoc. unfold after. by rewrite Hh.
Qed.

Lemma alert_is_shown_before_validation_witness :
  let rl := sampleLimiter 3 300 in
  let a := "https://a.example" in
  let w := after (handler rl (to_raw (sampleResult a UP 100)))
                 (emptyWorld (λ _, 0)) in
  let o := {| raw_url := JsString a; raw_status := JsString "MAYBE";
              raw_code := JsNull; raw_responseTime := JsNumber (Qc_of_Z 5);
              raw_checkedAt := JsString "2025-09-06T21:31:15.000Z";
              raw_error := JsNull |} in
  outcome (handler rl o) w
    = Throw "Result must have a valid status (UP or DOWN)" ∧
  emitted (handler rl o) w = [StatusChange o UP 2] ∧
  statusStore (after (handler rl o) w) = statusStore w.
Proof.
  intros rl a w o.
  destruct (alert_is_shown_before_validation rl o a
              "Result must have a valid status (UP or DOWN)"
              (sampleResult a UP 100) w)
    as (H1 & _ & (k & Hk & H3) & _ & _ & H4 & _);
    [reflexivity|discriminate|reflexivity|discriminate|by vm_compute
    |reflexivity|].
  split_and!; [exact H1| |exact H4].
  rewrite H3. f_equal. f_equal. vm_compute in Hk. congruence.
Defined.

(** X20. A payload whose url is not a non-empty string is dropped
    without a trace: [getPreviousStatus] throws, the handler catches it
    and returns normally, and a whole run of such payloads leaves the
    world exactly as it was. *)
Theorem events_without_url_are_dropped
    (rl : Config) (os : list RawResult) (w : World) :
  Forall (λ o, ∀ s, raw_url o = JsString s → s = "") os →
  Forall (λ o, handler rl o w = (Ok tt, w)) os ∧
  handleAll rl os w = (Ok tt, w).
Proof.
  intros Hall. split.
  - eapply list.Forall_impl; [exact Hall|]. intros o Ho.
    by apply handler_invalid_url.
  - induction os as [|o os IH]; [done|].
    apply list.Forall_cons in Hall as [Ho Hos].
    rewrite handleAll_step. unfold after.
    rewrite (handler_invalid_url rl o w Ho). by apply IH.
Qed.

Lemma events_without_url_are_dropped_witness :
  let rl := sampleLimiter 3 300 in
  let w := emptyWorld (λ _, 0) in
  let o1 := {| raw_url := JsUndefined; raw_status := JsString "UP";
               raw_code := JsNull; raw_responseTime := JsNumber (Qc_of_Z 5);
               raw_checkedAt := JsString "2025-09-06T21:31:15.000Z";
               raw_error := JsNull |} in
  let o2 := {| raw_url := JsString ""; raw_status := JsString "DOWN";
               raw_code := JsNull; raw_responseTime := JsNumber (Qc_of_Z 5);
               raw_checkedAt := JsString "2025-09-06T21:31:15.000Z";
               raw_error := JsNull |} in
  handleAll rl [o1; o2] w = (Ok tt, w).
Proof.
  intros rl w o1 o2.
  apply (events_without_url_are_dropped rl [o1; o2] w).
  repeat constructor; intros s Hs; [discriminate Hs|by injection Hs].
Defined.

(** X21. Every well-formed result whose url has a scheme yields exactly
    one notification and the handler returns normally.  Which one is decided by the stored
    record alone, except for a change of status, where the limiter
    decides: no record, an initial check; same status, a routine update;
    another status and a token, a status-change alert; another status and
    no token, a rate-limited notice.  The result becomes the site's record
    in every case but the last, where the record stays. *)
Theorem one_notification_per_result
    (rl : Config) (r : StatusResult) (w : World) :
  wellFormed r →
  hasUrlScheme (url r) = true →
  let o := to_raw r in
  let w1 := after (handler rl o) w in
  outcome (handler rl o) w = Ok tt ∧
  ∃ n, emitted (handler rl o) w = [n] ∧
       match statusStore w !! url r with
       | None =>
         n = InitialCheck (raw_url o) (raw_status o) (raw_responseTime o) ∧
         statusStore w1 !! url r = Some r ∧ buckets w1 = buckets w
       | Some p =>
         if bool_decide (status p = status r) then
           n = StatusUpdate o ∧
           statusStore w1 !! url r = Some r ∧ buckets w1 = buckets w
         else
           match outcome (consume rl (raw_url o)) w with
           | Ok true =>
             (∃ remaining, n = StatusChange o (status p) remaining) ∧
             statusStore w1 !! url r = Some r
           | _ =>
             (∃ wait remaining,
                n = RateLimited (raw_url o) (raw_status o) (status p)
                                wait remaining) ∧
             statusStore w1 = statusStore w ∧
             metricsStore w1 = metricsStore w ∧
             historyStore w1 = historyStore w
           end
       end.
Proof.
  intros Hwf Hscheme o w1. pose proof (wellFormed_url r Hwf) as Hs.
  pose proof (hasUrlScheme_ownName _ Hscheme) as Hown.
  destruct (statusStore w !! url r) as [p|] eqn:Hp.
  2:{ pose proof (handler_first rl o r w Hwf Hown Hp) as Hh.
      unfold w1, outcome, after. rewrite Hh. cbn [fst snd]. split; [done|].
      eexists. split; [apply emitted_snoc; unfold after; by rewrite Hh|].
      split_and!; try done. simpl. by rewrite lookup_insert_eq. }
  case_bool_decide as Hsame.
  { pose proof (handler_routine rl o r p w Hwf Hown Hp Hsame) as Hh.
    unfold w1, outcome, after. rewrite Hh. cbn [fst snd]. split; [done|].
    eexists. split; [apply emitted_snoc; unfold after; by rewrite Hh|].
    split_and!; try done. simpl. by rewrite lookup_insert_eq. }
  change (raw_url o) with (JsString (url r)).
  destruct (decide (1 ≤ tokens (refilledBucket rl (url r) w))%Qc) as [Hyes|Hno].
  - pose proof (handler_granted rl o r p w Hwf Hown Hp Hsame Hyes) as Hh.
    cbv zeta in Hh.
    unfold w1, outcome, after.
    rewrite Hh, (consume_granted rl (url r) w Hs Hyes). cbn [fst snd].
    split; [done|].
    eexists. split; [apply emitted_snoc; unfold after; by rewrite Hh|].
    split; [by eexists|]. simpl. by rewrite lookup_insert_eq.
  - assert (Hdiff : raw_status o ≠ JsString (status_name (status p))).
    { simpl. intros [= H]. apply status_name_inj in H. congruence. }
    pose proof (handler_denied rl o (url r) p w eq_refl Hs Hp Hdiff Hno) as Hh.
    cbv zeta in Hh.
    unfold w1, outcome, after.
    rewrite Hh, (consume_denied rl (url r) w Hs Hno). cbn [fst snd].
    split; [done|].
    eexists. split; [apply emitted_snoc; unfold after; by rewrite Hh|].
    split; [by eexists _, _|done].
Qed.

Lemma one_notification_per_result_witness :
  let rl := sampleLimiter 3 300 in
  let r := sampleResult "https://a.example" UP 100 in
  outcome (handler rl (to_raw r)) (emptyWorld (λ _, 0)) = Ok tt ∧
  emitted (handler rl (to_raw r)) (emptyWorld (λ _, 0))
    = [InitialCheck (JsString "https://a.example") (JsString "UP")
                    (JsNumber (Qc_of_Z 100))].
Proof.
  intros rl r.
  destruct (one_notification_per_result rl r (emptyWorld (λ _, 0)))
    as (H1 & n & Hn & Hcase).
  - by apply sampleResult_wellFormed.
  - reflexivity.
  - split; [exact H1|]. rewrite Hn. simpl in Hcase.
    destruct Hcase as (-> & _). reflexivity.
Defined.

(** ** The alerter and the limiter at one instant *)

(** What a handled event does to the limiter and the terminal: either no
    bucket is touched and no status-change alert is shown, or the event
    is a change of status for a valid url, and then a granted [consume]
    is followed by [getTokenCount] and an alert for that url, a denied
    one by [getTimeUntilNextToken], [getTokenCount] and the rate-limited
    notice. *)
Lemma handler_limiter rl o w :
  let w1 := after (handler rl o) w in
  (buckets w1 = buckets w ∧
   ∃ ns, terminal w1 = terminal w ++ ns ∧
         Forall (λ n, isStatusChange n = false) ns)
  ∨ (∃ s, raw_url o = JsString s ∧ s ≠ "" ∧
       if bool_decide (1 ≤ tokens (refilledBucket rl s w))%Qc then
         buckets w1
           = buckets (after (getTokenCount rl (JsString s))
                        (after (consume rl (JsString s)) w)) ∧
         ∃ n, terminal w1 = terminal w ++ [n] ∧
              ∀ s0, isAlertFor s0 n = bool_decide (raw_url o = JsString s0)
       else
         buckets w1
           = buckets (after (getTokenCount rl (JsString s))
                        (after (getTimeUntilNextToken rl (JsString s))
                           (after (consume rl (JsString s)) w))) ∧
         ∃ n, terminal w1 = terminal w ++ [n] ∧ isStatusChange n = false).
Proof.
  unfold after.
  destruct (key_cases (raw_url o)) as [(s & Hu & Hs)|Hbad].
  2:{ rewrite (handler_invalid_url rl o w Hbad). cbn [snd]. left.
      split; [done|]. exists []. by rewrite app_nil_r. }
  assert (Hplain :
    ∀ n, isStatusChange n = false →
         let w1 := snd ((let* _ := updateLastStatus (ArgObject o) in notify n) w) in
         buckets w1 = buckets w ∧
         ∃ ns, terminal w1 = terminal w ++ ns ∧
               Forall (λ n, isStatusChange n = false) ns).
  { intros n Hn. destruct (validate o) as [r|e] eqn:Hv.
    - rewrite (bind_ok _ _ _ _ _ (updateLastStatus_stored o r w Hv)), notify_eq.
      cbn [snd]. split; [done|]. exists [n]. split; [done|]. by constructor.
    - rewrite (bind_throw _ _ _ _ _ (updateLastStatus_rejected o e w Hv)).
      cbn [snd]. split; [done|]. exists []. by rewrite app_nil_r. }
  assert (Hchange :
    ∀ denied alert,
      (∀ t k, isStatusChange (denied t k) = false) →
      (∀ k s0, isAlertFor s0 (alert k) = bool_decide (raw_url o = JsString s0)) →
      let w1 := snd ((let* granted := consume rl (raw_url o) in
                      if negb granted then
                        let* timeUntilNext := getTimeUntilNextToken rl (raw_url o) in
                        let* tokensRemaining := getTokenCount rl (raw_url o) in
                        notify (denied timeUntilNext tokensRemaining)
                      else
                        let* tokensRemaining := getTokenCount rl (raw_url o) in
                        let* _ := notify (alert tokensRemaining) in
                        updateLastStatus (ArgObject o)) w) in
      if bool_decide (1 ≤ tokens (refilledBucket rl s w))%Qc then
        buckets w1
          = buckets (snd (getTokenCount rl (JsString s)
                            (snd (consume rl (JsString s) w)))) ∧
        ∃ n, terminal w1 = terminal w ++ [n] ∧
             ∀ s0, isAlertFor s0 n = bool_decide (raw_url o = JsString s0)
      else
        buckets w1
          = buckets (snd (getTokenCount rl (JsString s)
                       (snd (getTimeUntilNextToken rl (JsString s)
                          (snd (consume rl (JsString s) w)))))) ∧
        ∃ n, terminal w1 = terminal w ++ [n] ∧ isStatusChange n = false).
  { intros denied alert Hdenied Halert. cbv zeta.
    case_bool_decide as Hyes.
    - pose proof (transition_granted rl o s w denied alert Hu Hs Hyes) as Hg.
      cbv zeta in Hg. rewrite Hg.
      match goal with |- context [updateLastStatus (ArgObject o) ?W] =>
        destruct (updateLastStatus_effect o W) as (_ & H2 & H3 & _) end.
      cbv zeta in H2, H3. rewrite H2, H3.
      rewrite (consume_granted rl s w Hs Hyes). cbn [snd].
      rewrite (getTokenCount_string rl s _ Hs). cbn [snd].
      rewrite !readingsTaken_withBucket.
      split; [done|]. eexists. split; [reflexivity|]. apply Halert.
    - pose proof (transition_denied rl o s w denied alert Hu Hs Hyes) as Hd.
      cbv zeta in Hd. rewrite Hd. cbn [snd].
      rewrite (consume_denied rl s w Hs Hyes). cbn [snd].
      rewrite (getTimeUntilNextToken_string rl s _ Hs). cbn [snd].
      rewrite (getTokenCount_string rl s _ Hs). cbn [snd].
      rewrite !readingsTaken_withBucket.
      split; [done|]. eexists. split; [reflexivity|]. apply Hdenied. }
  rewrite (handler_lookup rl o s w Hu Hs).
  destruct (getProperty (statusStore w) s) as [p| |].
  - destruct (bool_decide (raw_status o = _)); [left; by apply Hplain|].
    right. exists s. split_and!; [done..|].
    by apply (Hchange
                (λ t k, RateLimited (raw_url o) (raw_status o) (status p) t k)
                (λ k, StatusChange o (status p) k)).
  - destruct (bool_decide (raw_status o = _)); [left; by apply Hplain|].
    right. exists s. split_and!; [done..|].
    by apply (Hchange
                (λ t k, RateLimitedFromUndefined (raw_url o) (raw_status o) t k)
                (λ k, StatusChangeFromUndefined o k)).
  - left. by apply Hplain.
Qed.

Lemma alertsFor_app s ns1 ns2 :
  alertsFor s (ns1 ++ ns2) = (alertsFor s ns1 + alertsFor s ns2)%nat.
Proof. unfold alertsFor. by rewrite list.filter_app, length_app. Qed.

Lemma alertsFor_none s ns :
  Forall (λ n, isAlertFor s n = false) ns → alertsFor s ns = 0%nat.
Proof.
  unfold alertsFor. induction 1 as [|n ns Hn _ IH]; [done|].
  rewrite filter_cons_False by (by rewrite Hn). exact IH.
Qed.

Lemma isAlertFor_isStatusChange s n :
  isStatusChange n = false → isAlertFor s n = false.
Proof. by destruct n. Qed.

Lemma stillAt_atInstant rl t0 s tk w :
  atInstant t0 s tk w → stillAt rl t0 s tk w.
Proof.
  intros Hat. split; [apply Hat|by apply refilledBucket_atInstant].
Qed.

Lemma stillAt_frame rl t0 s tk w w1 :
  stillAt rl t0 s tk w →
  clock w1 = clock w → buckets w1 !! s = buckets w !! s →
  stillAt rl t0 s tk w1.
Proof.
  intros [Hclk Hb] Hc Hs. split; [by rewrite Hc|].
  rewrite <- Hb. unfold refilledBucket, bucketBefore, readingsTaken.
  by rewrite Hs, Hc, !Hclk.
Qed.

(** The limiter's operations on site [s] at a standing clock. *)
Lemma stillAt_consume rl t0 s tk w :
  s ≠ "" → stillAt rl t0 s tk w →
  atInstant t0 s (if bool_decide (1 ≤ tk)%Qc then tk - 1 else tk)%Qc
            (after (consume rl (JsString s)) w).
Proof.
  intros Hs [Hclk Hb]. unfold after. rewrite consume_string by done.
  cbv zeta. rewrite Hb. cbn [tokens lastRefill].
  case_bool_decide; cbn [snd]; by apply atInstant_withBucket.
Qed.

Lemma stillAt_getTokenCount rl t0 s tk w :
  s ≠ "" → stillAt rl t0 s tk w →
  atInstant t0 s tk (after (getTokenCount rl (JsString s)) w).
Proof.
  intros Hs [Hclk Hb]. unfold after. rewrite getTokenCount_string by done.
  cbn [snd]. rewrite Hb. by apply atInstant_withBucket.
Qed.

Lemma stillAt_getTimeUntilNextToken rl t0 s tk w :
  s ≠ "" → stillAt rl t0 s tk w →
  atInstant t0 s tk (after (getTimeUntilNextToken rl (JsString s)) w).
Proof.
  intros Hs [Hclk Hb]. unfold after.
  rewrite getTimeUntilNextToken_string by done.
  cbn [snd]. rewrite Hb. by apply atInstant_withBucket.
Qed.

(** One event, at a standing clock: the tokens the limiter sees for site
    [s] go down by the number of status-change alerts shown for [s]. *)
Lemma handler_alert_budget rl o t0 s (a : nat) w :
  stillAt rl t0 s (burst rl - Qc_of_Z (Z.of_nat a))%Qc w →
  (0 ≤ burst rl - Qc_of_Z (Z.of_nat a))%Qc →
  let w1 := after (handler rl o) w in
  ∃ ns, terminal w1 = terminal w ++ ns ∧
        stillAt rl t0 s
          (burst rl - Qc_of_Z (Z.of_nat (a + alertsFor s ns)))%Qc w1 ∧
        (0 ≤ burst rl - Qc_of_Z (Z.of_nat (a + alertsFor s ns)))%Qc.
Proof.
  intros Hstill Hnn w1.
  destruct (handler_effect rl o w) as (Hclock & Hframe & _ & _).
  fold w1 in Hclock, Hframe.
  pose proof (handler_limiter rl o w) as Hl. cbv zeta in Hl. fold w1 in Hl.
  destruct Hl as [(Hb & ns & Ht & Hns)|(s' & Hu & Hs' & Hcase)].
  - exists ns. split; [done|].
    rewrite (alertsFor_none s ns), Nat.add_0_r.
    + split; [|done]. apply (stillAt_frame rl t0 s _ w); [done..|by rewrite Hb].
    + eapply list.Forall_impl; [exact Hns|].
      intros n. apply isAlertFor_isStatusChange.
  - destruct (decide (s' = s)) as [->|Hne].
    + destruct Hstill as [Hclk Hrb]. rewrite Hrb in Hcase. cbn [tokens] in Hcase.
      pose proof (stillAt_consume rl t0 s _ w Hs' (conj Hclk Hrb)) as Hc.
      case_bool_decide as Hyes.
      * destruct Hcase as (Hb & n & Ht & Hn).
        pose proof (stillAt_getTokenCount rl t0 s _ _ Hs'
                      (stillAt_atInstant rl t0 s _ _ Hc)) as [_ Hg].
        exists [n]. split; [done|].
        assert (Hone : alertsFor s [n] = 1%nat).
        { unfold alertsFor. rewrite filter_cons_True; [done|].
          rewrite Hn. by rewrite bool_decide_eq_true_2. }
        rewrite Hone.
        assert (Hq : (burst rl - Qc_of_Z (Z.of_nat (a + 1)))%Qc
                     = (burst rl - Qc_of_Z (Z.of_nat a) - 1)%Qc).
        { rewrite Nat2Z.inj_add, Z2Qc_inj_add. change (Z.of_nat 1) with 1.
          rewrite Z2Qc_inj_1. ring. }
        rewrite Hq. split.
        -- apply stillAt_atInstant. split; [by rewrite Hclock|].
           by rewrite Hb.
        -- clear -Hyes. generalize dependent (burst rl - Qc_of_Z (Z.of_nat a))%Qc.
           intros. qc_lra.
      * destruct Hcase as (Hb & n & Ht & Hn).
        pose proof (stillAt_getTimeUntilNextToken rl t0 s _ _ Hs'
                      (stillAt_atInstant rl t0 s _ _ Hc)) as Hw.
        pose proof (stillAt_getTokenCount rl t0 s _ _ Hs'
                      (stillAt_atInstant rl t0 s _ _ Hw)) as [_ Hg].
        exists [n]. split; [done|].
        rewrite (alertsFor_none s [n]), Nat.add_0_r
          by (constructor; [by apply isAlertFor_isStatusChange|done]).
        split; [|done].
        apply stillAt_atInstant. split; [by rewrite Hclock|]. by rewrite Hb.
    + assert (Hkeep : stillAt rl t0 s (burst rl - Qc_of_Z (Z.of_nat a))%Qc w1).
      { apply (stillAt_frame rl t0 s _ w); [done..|].
        apply Hframe. rewrite Hu. congruence. }
      assert (Hnone1 : ∀ n, (∀ s0, isAlertFor s0 n
                                    = bool_decide (raw_url o = JsString s0)) →
                            alertsFor s [n] = 0%nat).
      { intros n Hn. apply alertsFor_none. constructor; [|done].
        rewrite Hn, Hu. apply bool_decide_eq_false_2. congruence. }
      assert (Hnone2 : ∀ n, isStatusChange n = false → alertsFor s [n] = 0%nat).
      { intros n Hn. apply alertsFor_none. constructor; [|done].
        by apply isAlertFor_isStatusChange. }
      case_bool_decide as Hyes.
      * destruct Hcase as (_ & n & Ht & Hn). exists [n].
        split; [done|]. by rewrite (Hnone1 n Hn), Nat.add_0_r.
      * destruct Hcase as (_ & n & Ht & Hn). exists [n].
        split; [done|]. by rewrite (Hnone2 n Hn), Nat.add_0_r.
Qed.

Lemma handleAll_alert_budget rl os t0 s :
  ∀ (a : nat) w,
    stillAt rl t0 s (burst rl - Qc_of_Z (Z.of_nat a))%Qc w →
    (0 ≤ burst rl - Qc_of_Z (Z.of_nat a))%Qc →
    ∃ ns, terminal (after (handleAll rl os) w) = terminal w ++ ns ∧
          (0 ≤ burst rl - Qc_of_Z (Z.of_nat (a + alertsFor s ns)))%Qc.
Proof.
  induction os as [|o os IH]; intros a w Hstill Hnn.
  - exists []. rewrite app_nil_r. split; [done|].
    change (alertsFor s []) with 0%nat. by rewrite Nat.add_0_r.
  - destruct (handler_alert_budget rl o t0 s a w Hstill Hnn)
      as (ns1 & Ht1 & Hstill1 & Hnn1).
    destruct (IH _ _ Hstill1 Hnn1) as (ns2 & Ht2 & Hnn2).
    exists (ns1 ++ ns2). unfold after in *. rewrite handleAll_step.
    unfold after. rewrite Ht2, Ht1, app_assoc. split; [done|].
    by rewrite alertsFor_app, Nat.add_assoc.
Qed.

(** X22. With the clock standing still, a run of events, whatever they
    are, shows at most [Math.floor(burst)] status-change alerts for a
    site the limiter had not seen before, however often its status
    flips. *)
Theorem alerts_per_site_bounded_by_burst
    (b ws : Qc) (rl : Config) (os : list RawResult) (s : string) (t0 : Z)
    (w : World) :
  createRateLimiter b ws = Ok rl →
  (∀ n, clock w n = t0) →
  buckets w !! s = None →
  Z.of_nat (alertsFor s (emitted (handleAll rl os) w)) ≤ Js.floor b.
Proof.
  intros Hrl Hclk Hnone.
  destruct (createRateLimiter_ok b ws rl Hrl) as (Eb & _ & _ & Hb & _).
  assert (H0 : (burst rl - Qc_of_Z (Z.of_nat 0))%Qc = burst rl).
  { change (Z.of_nat 0) with 0. rewrite Z2Qc_inj_0. ring. }
  destruct (handleAll_alert_budget rl os t0 s 0 w) as (ns & Ht & Hnn).
  - split; [done|]. rewrite H0. by apply refilledBucket_fresh.
  - rewrite H0. by apply Qclt_le_weak.
  - unfold emitted. rewrite Ht, drop_app_length. rewrite Nat.add_0_l in Hnn.
    rewrite Eb in Hnn.
    rewrite <- (Qfloor_Z (Z.of_nat (alertsFor s ns))).
    apply Qfloor_resp_le.
    change (Qc_of_Z (Z.of_nat (alertsFor s ns)) ≤ b)%Qc.
    generalize dependent (Qc_of_Z (Z.of_nat (alertsFor s ns))).
    intros. clear -Hnn. qc_lra.
Qed.

Lemma alerts_per_site_bounded_by_burst_witness :
  let a := "https://a.example" in
  let os := to_raw <$> [sampleResult a UP 100; sampleResult a DOWN 5000;
                        sampleResult a UP 100; sampleResult a DOWN 5000;
                        sampleResult a UP 100; sampleResult a DOWN 5000] in
  Z.of_nat (alertsFor a (emitted (handleAll (sampleLimiter 2 300) os)
                                 (emptyWorld (λ _, 0))))
  ≤ Js.floor (Qc_of_Z 2).
Proof.
  intros a os.
  apply (alerts_per_site_bounded_by_burst (Qc_of_Z 2) (Qc_of_Z 300)
           (sampleLimiter 2 300) os a 0 (emptyWorld (λ _, 0))); done.
Defined.

(** ** The checker *)

Lemma accepted_to_raw o r : accepted o r → o = to_raw r.
Proof.
  rewrite accepted_inv. intros (H1 & _ & H2 & H3 & _ & H4 & _ & H5 & H6).
  destruct o. unfold to_raw. simpl in *. congruence.
Qed.

Lemma round_nonneg (q : Qc) : (0 ≤ q)%Qc → 0 ≤ Checker.round q.
Proof.
  intros Hq. unfold Checker.round.
  change 0 with (Qfloor (inject_Z 0)). apply Qfloor_resp_le.
  change (0 ≤ q + 1 / (1 + 1))%Qc.
  assert (Hhalf : (0 ≤ 1 / (1 + 1))%Qc) by done.
  generalize dependent (1 / (1 + 1))%Qc. intros. qc_lra.
Qed.

Lemma check_shape u parsed fetched elapsed nowIso :
  let o := Checker.check u parsed fetched elapsed nowIso in
  raw_url o = JsString u ∧
  raw_checkedAt o = JsString nowIso ∧
  raw_responseTime o = JsNumber (Qc_of_Z (Checker.round elapsed)) ∧
  (raw_status o = JsString "UP" ∨ raw_status o = JsString "DOWN").
Proof.
  unfold Checker.check.
  destruct (Checker.attempt parsed fetched) as [e|httpStatus]; simpl;
    [auto|].
  destruct ((200 <=? httpStatus) && (httpStatus <? 400)); auto.
Qed.

(** X23. What the checker emits is always a result the store accepts,
    for a non-empty url and timestamp and an elapsed time, the number the
    handler gets by subtracting its two clock readings, that is not
    negative: the url and the timestamp are passed through, the response
    time is that number rounded and is not negative.  Both topics carry
    that same result, [check.result] first, and the alerter handles it
    without throwing, in any state. *)
Theorem checker_result_is_accepted
    (u : string) (parsed : Checker.UrlParse) (fetched : Checker.Fetch)
    (elapsed : Qc) (nowIso : string) :
  u ≠ "" → nowIso ≠ "" → (0 ≤ elapsed)%Qc →
  let o := Checker.check u parsed fetched elapsed nowIso in
  Checker.handler u parsed fetched elapsed nowIso
    = [(Checker.check_result, o); (Checker.status_stream, o)] ∧
  ∃ r, accepted o r ∧
       url r = u ∧ checkedAt r = nowIso ∧
       responseTime r = Qc_of_Z (Checker.round elapsed) ∧
       (0 ≤ responseTime r)%Qc ∧
       ∀ rl w, outcome (Alerter.handler rl o) w = Ok tt.
Proof.
  intros Hu Hnow Htime o. split; [done|].
  destruct (check_shape u parsed fetched elapsed nowIso)
    as (H1 & H2 & H3 & H4). fold o in H1, H2, H3, H4.
  assert (Hrt : 0 ≤ Checker.round elapsed) by (by apply round_nonneg).
  assert (Hacc : ∃ r, accepted o r).
  { apply validate_accepts. intros [Hbad|[[Hb1 Hb2]|[Hbad|Hbad]]].
    - apply Hbad. by exists u.
    - by destruct H4.
    - specialize (Hbad _ H3). apply Qclt_not_le in Hbad. apply Hbad.
      by apply (proj1 (Z2Qc_inj_le 0 _)).
    - apply Hbad. by exists nowIso. }
  destruct Hacc as [r Hacc]. exists r.
  pose proof (proj1 (accepted_inv o r) Hacc) as (A1 & _ & _ & A3 & A4 & A5 & _).
  split_and!; try done.
  - congruence.
  - congruence.
  - congruence.
  - intros rl w. by apply (handler_accepted_ok rl o r w).
Qed.

Lemma checker_result_is_accepted_witness :
  let o := Checker.check "https://a.example" (Checker.UrlProtocol "https:")
             (Checker.FetchResponds 503) (Q2Qc (241 # 2))
             "2025-09-06T21:30:15.000Z" in
  ∃ r, accepted o r ∧ status r = DOWN ∧ responseTime r = Qc_of_Z 121.
Proof.
  intros o.
  destruct (checker_result_is_accepted "https://a.example"
              (Checker.UrlProtocol "https:") (Checker.FetchResponds 503)
              (Q2Qc (241 # 2)) "2025-09-06T21:30:15.000Z")
    as (_ & r & Hacc & _ & _ & Hrt & _);
    [discriminate|discriminate|by vm_compute|].
  exists r. split; [exact Hacc|].
  apply accepted_inv in Hacc. destruct Hacc as (_ & _ & Hs & _).
  split; [|rewrite Hrt; by apply Qc_is_canon].
  destruct (status r); [discriminate Hs|reflexivity].
Defined.

(** X24. The checker reports UP exactly when the url parses with the
    [http:] or [https:] protocol and the server answers with a status
    from 200 to 399 (redirects are not followed, so 3xx counts as UP);
    every other outcome is DOWN.  A response gives its code and no error;
    a failure gives an error message and no code. *)
Theorem checker_reports_up_iff_response_below_400
    (u : string) (parsed : Checker.UrlParse) (fetched : Checker.Fetch)
    (elapsed : Qc) (nowIso : string) :
  let o := Checker.check u parsed fetched elapsed nowIso in
  (raw_status o = JsString "UP" ↔
     ∃ protocol httpStatus,
       parsed = Checker.UrlProtocol protocol ∧
       (protocol = "http:" ∨ protocol = "https:") ∧
       fetched = Checker.FetchResponds httpStatus ∧
       200 ≤ httpStatus < 400) ∧
  (raw_status o ≠ JsString "UP" → raw_status o = JsString "DOWN") ∧
  match Checker.attempt parsed fetched with
  | inr httpStatus =>
    raw_code o = JsNumber (Qc_of_Z httpStatus) ∧ raw_error o = JsNull
  | inl e =>
    raw_code o = JsNull ∧ raw_error o = JsString (Checker.errorMessageOf e) ∧
    raw_status o = JsString "DOWN"
  end.
Proof.
  intros o. unfold o, Checker.check, Checker.attempt.
  destruct parsed as [e|protocol]; simpl.
  { split_and!; try done. split; [done|].
    by intros (? & ? & ? & _). }
  destruct (bool_decide (protocol = "http:") || bool_decide (protocol = "https:"))
    eqn:Ep; simpl.
  2:{ split_and!; try done. split; [done|].
      intros (p' & h & [= <-] & [-> | ->] & _); done. }
  assert (Hp : protocol = "http:" ∨ protocol = "https:").
  { apply orb_true_iff in Ep as [Ep|Ep]; apply bool_decide_eq_true in Ep; auto. }
  destruct fetched as [e|httpStatus]; simpl.
  { split_and!; try done. split; [done|].
    by intros (? & ? & _ & _ & ? & _). }
  destruct ((200 <=? httpStatus) && (httpStatus <? 400)) eqn:Eh; simpl.
  - apply andb_true_iff in Eh as [E1 E2].
    apply Z.leb_le in E1. apply Z.ltb_lt in E2.
    split_and!; try done. split; [|done]. intros _. by exists protocol, httpStatus.
  - split_and!; try done. split; [done|].
    intros (p' & h & _ & _ & [= <-] & H1 & H2).
    apply andb_false_iff in Eh as [E|E];
      [apply Z.leb_gt in E|apply Z.ltb_ge in E]; lia.
Qed.

(** X25. How a failure is reported.  A url that does not parse, or one
    with another protocol than [http:] and [https:], is reported without
    the request being made: the result does not depend on what [fetch]
    would do.  An [AbortError] is reported as the 10 s timeout whatever
    its message and code; a [TypeError] mentioning fetch as a network
    error even when it has an error code; a thrown value that is not an
    [Error] by its string. *)
Theorem checker_failure_reporting
    (u : string) (fetched fetched' : Checker.Fetch)
    (elapsed : Qc) (nowIso : string) :
  (∀ e, Checker.check u (Checker.UrlThrows e) fetched elapsed nowIso
        = Checker.check u (Checker.UrlThrows e) fetched' elapsed nowIso) ∧
  (∀ protocol,
     protocol ≠ "http:" → protocol ≠ "https:" →
     Checker.check u (Checker.UrlProtocol protocol) fetched elapsed nowIso
     = Checker.check u (Checker.UrlProtocol protocol) fetched' elapsed nowIso
     ∧ raw_error (Checker.check u (Checker.UrlProtocol protocol) fetched
                    elapsed nowIso)
       = JsString "Only HTTP and HTTPS protocols are supported") ∧
  (∀ message code,
     Checker.errorMessageOf (Checker.ErrorObject "AbortError" message code)
     = "Request timeout (10s)") ∧
  (∀ message code,
     Checker.includes "fetch" message = true →
     Checker.errorMessageOf (Checker.ErrorObject "TypeError" message code)
     = "Network error - unable to connect") ∧
  (∀ name message,
     name ≠ "AbortError" →
     (name = "TypeError" → Checker.includes "fetch" message = false) →
     Checker.errorMessageOf (Checker.ErrorObject name message None) = message ∧
     Checker.errorMessageOf
       (Checker.ErrorObject name message (Some (JsString "ECONNREFUSED")))
     = "Connection refused") ∧
  (∀ text, Checker.errorMessageOf (Checker.NotAnError text) = text).
Proof.
  split_and!; try done.
  - intros protocol H1 H2. unfold Checker.check, Checker.attempt.
    rewrite !bool_decide_eq_false_2 by done. done.
  - intros message code Hinc. unfold Checker.errorMessageOf.
    rewrite bool_decide_eq_false_2 by done.
    rewrite bool_decide_eq_true_2 by done. by rewrite Hinc.
  - intros name message Hname Hfetch. unfold Checker.errorMessageOf.
    rewrite bool_decide_eq_false_2 by done.
    case_bool_decide as Ht; [rewrite (Hfetch Ht)|]; done.
Qed.

(** X26. From the probe to the store: the result the checker emits for a
    site whose url has a scheme and that has no record is handled as an initial check and becomes the
    site's status record and newest history entry, with the status the
    probe decided, without any bucket being touched. *)
Theorem checked_new_site_is_recorded
    (rl : Config) (u : string) (parsed : Checker.UrlParse)
    (fetched : Checker.Fetch) (elapsed : Qc) (nowIso : string)
    (w : World) :
  hasUrlScheme u = true → nowIso ≠ "" → (0 ≤ elapsed)%Qc →
  statusStore w !! u = None →
  let o := Checker.check u parsed fetched elapsed nowIso in
  let w1 := after (Alerter.handler rl o) w in
  In (Checker.check_result, o)
     (Checker.handler u parsed fetched elapsed nowIso) ∧
  outcome (Alerter.handler rl o) w = Ok tt ∧
  emitted (Alerter.handler rl o) w
    = [InitialCheck (JsString u) (raw_status o) (raw_responseTime o)] ∧
  (∃ r, o = to_raw r ∧
        outcome (getPreviousStatus (JsString u)) w1 = Ok (Own r) ∧
        list.last (historyStore w1) = Some r ∧
        (∃ m, outcome (getSiteMetrics (JsString u)) w1 = Ok (Own m) ∧
              totalChecks m = totalChecks (default (initialMetrics u)
                                             (metricsStore w !! u)) + 1)) ∧
  buckets w1 = buckets w ∧ ticks w1 = ticks w.
Proof.
  intros Hscheme Hnow Htime Hnone o w1.
  assert (Hu : u ≠ "") by (by intros ->).
  destruct (check_shape u parsed fetched elapsed nowIso)
    as (H1 & H2 & H3 & H4). fold o in H1, H2, H3, H4.
  assert (Hacc : ∃ r, accepted o r).
  { apply validate_accepts. intros [Hbad|[[Hb1 Hb2]|[Hbad|Hbad]]].
    - apply Hbad. by exists u.
    - by destruct H4.
    - specialize (Hbad _ H3). apply Qclt_not_le in Hbad. apply Hbad.
      apply (proj1 (Z2Qc_inj_le 0 _)). by apply round_nonneg.
    - apply Hbad. by exists nowIso. }
  destruct Hacc as [r Hacc].
  destruct (accepted_url o r Hacc) as [Hur _].
  assert (Heq : url r = u) by congruence.
  rewrite <- Heq in Hnone, Hscheme.
  pose proof (handler_first rl o r w Hacc
                (hasUrlScheme_ownName _ Hscheme) Hnone) as Hh.
  unfold w1, outcome, after. rewrite Hh. cbn [fst snd].
  split_and!; try done.
  - left. done.
  - rewrite <- H1. apply emitted_snoc. unfold after. by rewrite Hh.
  - exists r. split; [by apply accepted_to_raw|].
    rewrite getPreviousStatus_string, getSiteMetrics_string by done.
    cbn [fst]. split_and!.
    + simpl. by rewrite <- Heq, getProperty_insert_eq.
    + apply (persisted_history_last r w).
    + rewrite <- Heq. eexists.
      split; [simpl; by rewrite getProperty_insert_eq|done].
Qed.

Lemma checked_new_site_is_recorded_witness :
  let rl := sampleLimiter 3 300 in
  let u := "https://a.example" in
  let o := Checker.check u (Checker.UrlProtocol "https:")
             (Checker.FetchRejects
                (Checker.ErrorObject "Error" "getaddrinfo ENOTFOUND a.example"
                   (Some (JsString "ENOTFOUND"))))
             (Qc_of_Z 35) "2025-09-06T21:30:15.000Z" in
  let w1 := after (Alerter.handler rl o) (emptyWorld (λ _, 0)) in
  ∃ r, outcome (getPreviousStatus (JsString u)) w1 = Ok (Own r) ∧
       status r = DOWN ∧ error r = JsString "DNS resolution failed".
Proof.
  intros rl u o w1.
  destruct (checked_new_site_is_recorded rl u (Checker.UrlProtocol "https:")
              (Checker.FetchRejects
                 (Checker.ErrorObject "Error" "getaddrinfo ENOTFOUND a.example"
                    (Some (JsString "ENOTFOUND"))))
              (Qc_of_Z 35) "2025-09-06T21:30:15.000Z"
              (emptyWorld (λ _, 0)))
    as (_ & _ & _ & (r & Hr & Hp & _) & _);
    [reflexivity|discriminate|by vm_compute|reflexivity|].
  exists r. split; [exact Hp|].
  destruct r as [ru rs rc rt rca re]. unfold to_raw in Hr. simpl in Hr.
  injection Hr as _ Hs _ _ _ He. simpl. split; [|by rewrite <- He].
  destruct rs; [discriminate Hs|reflexivity].
Defined.

(** ** Creating the limiter *)

(** X27. [createRateLimiter] throws exactly for a burst or a window that
    is not positive, naming the burst first; otherwise it returns a
    limiter that keeps both values. *)
Theorem createRateLimiter_validates (b ws : Qc) :
  match createRateLimiter b ws with
  | Throw e =>
    ((b ≤ 0)%Qc ∧ e = "burst must be a positive number") ∨
    ((0 < b)%Qc ∧ (ws ≤ 0)%Qc ∧ e = "windowSec must be a positive number")
  | Ok rl =>
    (0 < b)%Qc ∧ (0 < ws)%Qc ∧ burst rl = b ∧ windowSec rl = ws
  end.
Proof.
  destruct (createRateLimiter b ws) as [rl|e] eqn:E.
  - destruct (createRateLimiter_ok b ws rl E) as (Hb & Hw & Hrate & H1 & H2 & H3).
    rewrite Hb in H1. rewrite Hw in H2. by split_and!.
  - unfold createRateLimiter in E.
    case_bool_decide as Hb; [left; split; [done|congruence]|].
    case_bool_decide as Hw; [|discriminate].
    right. split_and!; [by apply Qcnot_le_lt|done|congruence].
Qed.

(** ** The history and the stores *)

Lemma ofSite_app u l1 l2 : ofSite u (l1 ++ l2) = ofSite u l1 ++ ofSite u l2.
Proof. unfold ofSite. apply list.filter_app. Qed.

Lemma ofSite_drop_length u k h :
  (length (ofSite u (drop k h)) ≤ length (ofSite u h))%nat.
Proof.
  rewrite <- (take_drop k h) at 2. rewrite ofSite_app, length_app. lia.
Qed.

Lemma ofSite_drop_last u k h r :
  list.last (ofSite u (drop k h)) = Some r →
  list.last (ofSite u h) = Some r.
Proof.
  intros H. rewrite <- (take_drop k h), ofSite_app, last_app_cases.
  by rewrite H.
Qed.

Lemma persisted_historyAgrees r w :
  historyAgrees w → historyAgrees (persisted r w).
Proof.
  intros Hw u. rewrite persisted_history.
  set (k := (length (historyStore w ++ [r]) - 1000)%nat).
  assert (Hk : (k ≤ length (historyStore w))%nat).
  { unfold k. rewrite length_app. simpl. lia. }
  rewrite drop_app_le by done. rewrite ofSite_app.
  destruct (Hw u) as [Hlast Hlen].
  cbn [persisted statusStore metricsStore].
  pose proof (ofSite_drop_length u k (historyStore w)) as Hle.
  destruct (decide (url r = u)) as [<-|Hne].
  - unfold ofSite at 2 4. rewrite filter_cons_True, filter_nil by done.
    rewrite last_snoc, length_app, !lookup_insert_eq. cbn [length fmap option_fmap option_map default].
    split; [done|].
    unfold recordCheck. cbn [totalChecks].
    destruct (metricsStore w !! url r) as [m|]; cbn [default from_option id fmap option_fmap option_map] in *;
      cbn [initialMetrics totalChecks]; lia.
  - unfold ofSite at 2 4. rewrite filter_cons_False, filter_nil by done.
    rewrite app_nil_r, !lookup_insert_ne by done. split; [|lia].
    destruct (list.last (ofSite u (drop k (historyStore w)))) as [x|] eqn:E;
      [|done].
    by rewrite (ofSite_drop_last u k _ x E) in Hlast.
Qed.

Lemma handler_historyAgrees rl o w :
  schemeOrNoUrl o = true →
  historyAgrees w → historyAgrees (after (handler rl o) w).
Proof.
  intros Ho Hw. destruct (handler_effect rl o w) as (_ & _ & Hstores & _).
  destruct Hstores as [(H1 & H2 & H3)|(r & Hacc & H1 & H2 & H3)];
    intros u; rewrite H1, H2, H3; [apply Hw|].
  rewrite (stored_scheme o r w Hacc Ho).
  apply (persisted_historyAgrees r w Hw).
Qed.

Lemma handleAll_historyAgrees rl os w :
  Forall (λ o, schemeOrNoUrl o = true) os →
  historyAgrees w → historyAgrees (after (handleAll rl os) w).
Proof.
  revert w. induction os as [|o os IH]; intros w Hall Hw; [done|].
  apply list.Forall_cons in Hall as [Ho Hos].
  unfold after. rewrite handleAll_step. apply IH; [done|].
  by apply handler_historyAgrees.
Qed.

Lemma site_history_shape u limit w :
  0 < limit →
  (outcome (getSiteHistory u limit) w = Ok [] ∧ ofSite u (historyStore w) = [])
  ∨ (∃ r older, outcome (getSiteHistory u limit) w = Ok (r :: older) ∧
                list.last (ofSite u (historyStore w)) = Some r).
Proof.
  intros Hlimit. unfold outcome, getSiteHistory. run_monad.
  fold (ofSite u (historyStore w)).
  destruct (ofSite u (historyStore w)) as [|x l _] using rev_ind.
  - left. split; [|done]. unfold Js.slice. by rewrite drop_nil.
  - right. destruct (slice_last_snoc limit l x Hlimit) as [l' ->].
    exists x, (rev l'). by rewrite rev_app_distr, last_snoc.
Qed.

(** X28. In any world reached from empty stores by handling payloads
    whose url, when there is one, has a scheme, the three stores agree: the first entry
    [getSiteHistory] returns for a site is the record
    [getPreviousStatus] returns for it, a site found in the history has a
    metrics entry, and its [totalChecks] is at least the number of its
    entries the capped history still holds. *)
Theorem history_agrees_with_the_stores
    (rl : Config) (os : list RawResult) (u : string) (limit : Z) (w0 : World) :
  Forall (λ o, schemeOrNoUrl o = true) os →
  statusStore w0 = ∅ → metricsStore w0 = ∅ → historyStore w0 = [] →
  u ≠ "" → 0 < limit →
  let w := after (handleAll rl os) w0 in
  ∃ entries,
    outcome (getSiteHistory u limit) w = Ok entries ∧
    match entries with
    | [] => ofSite u (historyStore w) = []
    | newest :: _ =>
      outcome (getPreviousStatus (JsString u)) w = Ok (Own newest) ∧
      ∃ m, outcome (getSiteMetrics (JsString u)) w = Ok (Own m) ∧
           Z.of_nat (length (ofSite u (historyStore w))) ≤ totalChecks m
    end.
Proof.
  intros Hos Hs Hm Hh Hu Hlimit w.
  assert (Hagree : historyAgrees w).
  { apply handleAll_historyAgrees; [done|]. intros k. by rewrite Hs, Hm, Hh. }
  assert (Hsync : storesInSync w).
  { apply handleAll_sync; [done|]. by apply empty_stores_sync. }
  destruct (Hagree u) as [Hlast Hlen]. specialize (Hsync u).
  destruct (site_history_shape u limit w Hlimit) as [Hempty|(r & older & Hr & Hl)].
  - exists []. split; [by apply Hempty|]. by destruct Hempty.
  - exists (r :: older). split; [done|]. rewrite Hl in Hlast.
    unfold outcome. rewrite getPreviousStatus_string, getSiteMetrics_string
      by done.
    cbn [fst]. rewrite (getProperty_own _ _ _ Hlast). rewrite Hlast in *.
    split; [done|].
    destruct (metricsStore w !! u) as [m|] eqn:Em; [|done].
    exists m. split; [by rewrite (getProperty_own _ _ _ Em)|]. exact Hlen.
Qed.

Lemma history_agrees_with_the_stores_witness :
  let a := "https://a.example" in
  let w := after (handleAll (sampleLimiter 3 300) (to_raw <$> sevenUpThreeDown))
                 (emptyWorld (λ _, 0)) in
  ∃ entries,
    outcome (getSiteHistory a 5) w = Ok entries ∧
    match entries with
    | [] => ofSite a (historyStore w) = []
    | newest :: _ =>
      outcome (getPreviousStatus (JsString a)) w = Ok (Own newest) ∧
      ∃ m, outcome (getSiteMetrics (JsString a)) w = Ok (Own m) ∧
           Z.of_nat (length (ofSite a (historyStore w))) ≤ totalChecks m
    end.
Proof.
  intros a w.
  apply (history_agrees_with_the_stores (sampleLimiter 3 300)
           (to_raw <$> sevenUpThreeDown) a 5 (emptyWorld (λ _, 0)));
    [repeat constructor|reflexivity|reflexivity|reflexivity|discriminate|lia].
Defined.
